(** * Controle financeiro: the ingestion pipeline of [ini.py]

    A shallow embedding of the ledger's validation, persistence and
    formatting functions, and the properties its specification states
    about them.

    Python values are modelled as follows.
    - [str] is a sequence of Unicode code points; a text is one that UTF-8
      encodes, so that printing it and binding it to a statement raise
      nothing.
    - [int] is [Z]; SQLite's INTEGER is the 64-bit range of it.
    - [float] is IEEE 754 binary64, every operation being the exact
      result rounded to nearest, ties to even.
    - The SQLite table is the list of its rows together with the
      AUTOINCREMENT counter.  The file is there and can be written: a
      failure of the medium (I/O, a lock, a full disk) is not modelled.
    - A raised exception is the [Err] branch of [result].
    - The terminal is the list of the lines still to be typed, and the
      list of what was written. *)

From Stdlib Require Import String Ascii.
From Stdlib Require Import ZArith NArith List Bool Lia.
From Stdlib Require Import Sorting.Sorted Sorting.Permutation.
From Stdlib Require SpecFloat.
Import ListNotations.
Open Scope Z_scope.

(** ** Python strings *)

(** A character is its code point, a text the list of its characters. *)
Abbreviation char := N (only parsing).
Abbreviation str := (list N) (only parsing).

(** Decoding of the UTF-8 bytes of a literal of this file into code points. *)
Fixpoint utf8_decode (bs : list N) : str :=
  match bs with
  | [] => []
  | b0 :: r0 =>
      if (b0 <? 128)%N then b0 :: utf8_decode r0
      else match r0 with
      | [] => [b0]
      | b1 :: r1 =>
          if (b0 <? 224)%N
          then ((b0 - 192) * 64 + (b1 - 128))%N :: utf8_decode r1
          else match r1 with
          | [] => [b0]
          | b2 :: r2 =>
              if (b0 <? 240)%N
              then ((b0 - 224) * 4096 + (b1 - 128) * 64 + (b2 - 128))%N
                     :: utf8_decode r2
              else match r2 with
              | [] => [b0]
              | b3 :: r3 =>
                  ((b0 - 240) * 262144 + (b1 - 128) * 4096
                   + (b2 - 128) * 64 + (b3 - 128))%N :: utf8_decode r3
              end
          end
      end
  end.

Definition lit (x : string) : str :=
  utf8_decode (map N_of_ascii (list_ascii_of_string x)).

Definition ch (a : ascii) : char := N_of_ascii a.

Fixpoint str_eqb (a b : str) : bool :=
  match a, b with
  | [], [] => true
  | x :: a', y :: b' => (x =? y)%N && str_eqb a' b'
  | _, _ => false
  end.

(** [c in s] for a one-character [c]. *)
Definition contains (c : char) (s : str) : bool := existsb (N.eqb c) s.

(** [x in xs] for a list of strings. *)
Definition str_in (x : str) (xs : list str) : bool := existsb (str_eqb x) xs.

(** The characters [str.strip()] removes: those [str.isspace()] holds of. *)
Definition is_space (c : char) : bool :=
  ((9 <=? c) && (c <=? 13) || (28 <=? c) && (c <=? 32)
   || (c =? 133) || (c =? 160) || (c =? 5760)
   || (8192 <=? c) && (c <=? 8202)
   || (c =? 8232) || (c =? 8233) || (c =? 8239) || (c =? 8287)
   || (c =? 12288))%N.

Fixpoint lstrip (s : str) : str :=
  match s with
  | [] => []
  | c :: t => if is_space c then lstrip t else s
  end.

Definition rstrip (s : str) : str := rev (lstrip (rev s)).

Definition strip (s : str) : str := rstrip (lstrip s).

Fixpoint strip_prefix (p s : str) : option str :=
  match p, s with
  | [], _ => Some s
  | x :: p', y :: s' => if (x =? y)%N then strip_prefix p' s' else None
  | _ :: _, [] => None
  end.

(** [s.replace(old, new)] for a non-empty [old]: occurrences are found from
    the left and do not overlap.  [skip] counts the characters of a found
    occurrence that are still to be passed over. *)
Fixpoint replace_from (old new : str) (skip : nat) (s : str) : str :=
  match s with
  | [] => []
  | c :: t =>
      match skip with
      | S k => replace_from old new k t
      | O =>
          match strip_prefix old s with
          | Some _ => new ++ replace_from old new (pred (length old)) t
          | None => c :: replace_from old new O t
          end
      end
  end.

Definition replace (old new s : str) : str := replace_from old new O s.

(** [sep.join(xs)] *)
Fixpoint join (sep : str) (xs : list str) : str :=
  match xs with
  | [] => []
  | [x] => x
  | x :: rest => x ++ sep ++ join sep rest
  end.

(** [s.split(c)] for a one-character separator. *)
Fixpoint split_on (c : char) (s : str) : list str :=
  match s with
  | [] => [[]]
  | x :: t =>
      if (x =? c)%N then [] :: split_on c t
      else match split_on c t with
           | [] => [[x]]
           | w :: ws => (x :: w) :: ws
           end
  end.

(** [s[a:b]] for [0 <= a] and [0 <= b]. *)
Definition slice (a b : nat) (s : str) : str := firstn (b - a) (skipn a s).

(** The ASCII part of [str.lower()]. *)
Definition ascii_lower (c : char) : char :=
  if ((65 <=? c) && (c <=? 90))%N then (c + 32)%N else c.

Definition ascii_digit (c : char) : option Z :=
  if ((48 <=? c) && (c <=? 57))%N then Some (Z.of_N c - 48) else None.

(** ** The Unicode character database

    Two tables of the interpreter are not part of the program: the decimal
    value of a character of category Nd (what [\d], [int()] and [float()]
    accept as a digit) and the case mapping behind [str.lower()].  They are
    taken as an interface, with the facts about them that the program's
    behaviour rests on. *)
Class Unicode := {
  to_decimal : char -> option Z;
  lower : str -> str;
  to_decimal_ascii : forall c, (c < 128)%N -> to_decimal c = ascii_digit c;
  to_decimal_bound : forall c v, to_decimal c = Some v -> 0 <= v <= 9;
  lower_ascii : forall s, Forall (fun c => (c < 128)%N) s ->
                          lower s = map ascii_lower s;
  lower_nonempty : forall s, lower s = [] -> s = [];
  lower_idempotent : forall s, lower (lower s) = lower s;
  lower_stripped : forall s, strip s = s -> strip (lower s) = lower s
}.

(** ** Exceptions and results *)

Inductive error :=
| InvalidDate            (* ValueError: Data inválida. ... *)
| InvalidAmount          (* ValueError: Valor inválido. ... *)
| NonPositiveAmount      (* ValueError: Valor deve ser maior que zero. *)
| DuplicateTransaction   (* ValueError: Transação já existe ... *)
| NanToInteger           (* ValueError of round() on a NaN *)
| InfinityToInteger      (* OverflowError of round() on an infinity *)
| IntTooLargeForFloat    (* OverflowError of int / float *)
| IntTooLargeForSqlite   (* OverflowError of binding an int parameter *)
| IntegrityError         (* sqlite3.IntegrityError: CHECK constraint failed *)
| OperationalError       (* sqlite3.OperationalError: database or disk is full *)
| UnpackError.           (* ValueError of a two-name unpacking *)

Inductive result (A : Type) :=
| Ok (a : A)
| Err (e : error).
Arguments Ok {A} a.
Arguments Err {A} e.

Definition rbind {A B} (r : result A) (f : A -> result B) : result B :=
  match r with
  | Ok a => f a
  | Err e => Err e
  end.

Declare Scope py_scope.
Delimit Scope py_scope with py.
Notation "x <- r ;; k" := (rbind r (fun x => k))
  (at level 61, r at next level, right associativity) : py_scope.

(** ** Decimal numerals *)

Definition digit_char (d : Z) : char := Z.to_N (48 + d).

Fixpoint digits_aux (fuel : nat) (n : Z) (acc : str) : str :=
  match fuel with
  | O => acc
  | S f =>
      let acc' := digit_char (n mod 10) :: acc in
      if n / 10 =? 0 then acc' else digits_aux f (n / 10) acc'
  end.

(** [str(n)] for [0 <= n]. *)
Definition digits (n : Z) : str := digits_aux (S (Z.to_nat (Z.log2 n))) n [].

(** [s.rjust(w, "0")] *)
Definition zfill (w : nat) (s : str) : str := repeat (ch "0") (w - length s) ++ s.

(** [format(n, "0wd")] *)
Definition format_0d (w : nat) (n : Z) : str :=
  if n <? 0 then ch "-" :: zfill (w - 1) (digits (- n)) else zfill w (digits n).

(** ** The model *)

Inductive ExpenseOrIncome := expense | income.

Definition kind_text (k : ExpenseOrIncome) : str :=
  match k with
  | expense => lit "expense"
  | income => lit "income"
  end.

Definition kind_eqb (a b : ExpenseOrIncome) : bool :=
  match a, b with
  | expense, expense | income, income => true
  | _, _ => false
  end.

Definition EXPENSE_CATEGORIES : list str :=
  map lit ["Alimentação"; "Moradia"; "Transporte"; "Saúde"; "Educação";
           "Lazer"; "Vestuário"; "Impostos"; "Assinaturas"; "Pets";
           "Doações"; "Outros"]%string.

Definition INCOME_CATEGORIES : list str :=
  map lit ["Salário"; "Vendas"; "Investimentos"; "Presente"; "Reembolso";
           "Outros"]%string.

Definition PAYMENT_METHODS : list str :=
  map lit ["pix"; "débito"; "crédito"; "dinheiro"; "boleto";
           "transferência"]%string.

(** The dataclass.  [description] is annotated [str], but [is_duplicate]
    reads it as [tx.description or ""], so [None] is a value of it. *)
Record Transaction := {
  kind : ExpenseOrIncome;
  date_iso : str;
  amount_cents : Z;
  category : str;
  description : option str;
  account : str;
  payment_method : str;
  tags : option str
}.

(** ** The database

    A row of the table [transactions].  The columns declared NOT NULL hold a
    value, the others an optional one. *)
Record Row := {
  row_id : Z;
  row_type : ExpenseOrIncome;
  row_date : str;
  row_amount_cents : Z;
  row_category : str;
  row_description : option str;
  row_account : option str;
  row_payment_method : option str;
  row_tags : option str;
  row_created_at : str;
  row_updated_at : str
}.

(** The table and its AUTOINCREMENT counter (the largest id ever given). *)
Record Store := {
  rows : list Row;
  sequence : Z
}.

(** What the program acts on: the database file and the standard output. *)
Record World := {
  db : Store;
  stdout : list str
}.

(** A computation that reads and writes the world and may raise. *)
Definition M (A : Type) := World -> result A * World.

Definition ret {A} (a : A) : M A := fun w => (Ok a, w).

Definition raise {A} (e : error) : M A := fun w => (Err e, w).

Definition bind {A B} (m : M A) (f : A -> M B) : M B :=
  fun w =>
    match m w with
    | (Ok a, w') => f a w'
    | (Err e, w') => (Err e, w')
    end.

Definition lift {A} (r : result A) : M A := fun w => (r, w).

Definition print (line : str) : M unit :=
  fun w => (Ok tt, {| db := db w; stdout := stdout w ++ [line] |}).

Fixpoint print_all (lines : list str) : M unit :=
  match lines with
  | [] => ret tt
  | l :: ls => bind (print l) (fun _ => print_all ls)
  end.

Notation "x <~ m ;; k" := (bind m (fun x => k))
  (at level 61, m at next level, right associativity) : py_scope.

Definition empty_table : Store := {| rows := []; sequence := 0 |}.

(** [CREATE TABLE IF NOT EXISTS]: [None] is a database file without the
    table. *)
Definition init_db (file : option Store) : Store :=
  match file with
  | Some t => t
  | None => empty_table
  end.

Open Scope py_scope.

(** ** Calendar dates *)

Definition is_leap (y : Z) : bool :=
  (y mod 4 =? 0) && (negb (y mod 100 =? 0) || (y mod 400 =? 0)).

Definition days_in_month (y m : Z) : Z :=
  if m =? 2 then (if is_leap y then 29 else 28)
  else if (m =? 4) || (m =? 6) || (m =? 9) || (m =? 11) then 30
  else 31.

(** What the constructor [datetime.date(y, m, d)] accepts. *)
Definition valid_date (y m d : Z) : bool :=
  (1 <=? y) && (y <=? 9999) && (1 <=? m) && (m <=? 12)
  && (1 <=? d) && (d <=? days_in_month y m).

(** [date.isoformat()] *)
Definition isoformat (y m d : Z) : str :=
  format_0d 4 y ++ lit "-" ++ format_0d 2 m ++ lit "-" ++ format_0d 2 d.

(** ** Validation *)

(** [x or y] on strings. *)
Definition or_else (x y : str) : str :=
  match x with
  | [] => y
  | _ :: _ => x
  end.

Section Validation.
Context {U : Unicode}.

(** *** The patterns of [strptime]

    [_strptime] compiles a format into a regular expression and matches it
    at the start of the text.  A pattern is written here in
    continuation-passing style, so that an alternative is left for the next
    one when the rest of the pattern fails after it, as the backtracking
    matcher of [re] does.  A group hands [int()] of its text to the rest. *)
Definition pattern (A : Type) := (Z -> str -> option A) -> str -> option A.

(** A character class, with the value of the character as a digit. *)
Definition class := char -> option Z.

Definition range (lo hi : ascii) : class :=
  fun c => if ((ch lo <=? c) && (c <=? ch hi))%N then Some (Z.of_N c - 48)
           else None.

Definition blank : class :=
  fun c => if (c =? ch " ")%N then Some 0 else None.

(** [\d] *)
Definition any_digit : class := to_decimal.

Definition one {A} (a : class) : pattern A :=
  fun k s =>
    match s with
    | x :: r => match a x with
                | Some v => k v r
                | None => None
                end
    | [] => None
    end.

Definition two {A} (a b : class) : pattern A :=
  fun k s =>
    match s with
    | x :: y :: r => match a x, b y with
                     | Some v, Some w => k (10 * v + w) r
                     | _, _ => None
                     end
    | _ => None
    end.

Definition four {A} (a : class) : pattern A :=
  fun k s =>
    match s with
    | x :: y :: z :: t :: r =>
        match a x, a y, a z, a t with
        | Some v, Some w, Some p, Some q =>
            k (((v * 10 + w) * 10 + p) * 10 + q) r
        | _, _, _, _ => None
        end
    | _ => None
    end.

Definition alt {A} (p q : pattern A) : pattern A :=
  fun k s =>
    match p k s with
    | Some r => Some r
    | None => q k s
    end.

Definition literal {A} (c : ascii) (k : str -> option A) : str -> option A :=
  fun s =>
    match s with
    | x :: r => if (x =? ch c)%N then k r else None
    | [] => None
    end.

(** [%Y] is [\d\d\d\d]. *)
Definition re_Y {A} : pattern A := four any_digit.

(** [%m] is [1[0-2]|0[1-9]|[1-9]]. *)
Definition re_m {A} : pattern A :=
  alt (two (range "1" "1") (range "0" "2"))
 (alt (two (range "0" "0") (range "1" "9"))
      (one (range "1" "9"))).

(** [%d] is [3[0-1]|[1-2]\d|0[1-9]|[1-9]| [1-9]]. *)
Definition re_d {A} : pattern A :=
  alt (two (range "3" "3") (range "0" "1"))
 (alt (two (range "1" "2") any_digit)
 (alt (two (range "0" "0") (range "1" "9"))
 (alt (one (range "1" "9"))
      (two blank (range "1" "9"))))).

(** The end of a pattern: the match is found, whatever text is left. *)
Definition found (y m d : Z) (rest : str) : option (Z * Z * Z * str) :=
  Some (y, m, d, rest).

(** The format [%Y-%m-%d]. *)
Definition match_ymd : str -> option (Z * Z * Z * str) :=
  re_Y (fun y => literal "-" (re_m (fun m => literal "-"
       (re_d (fun d => found y m d))))).

(** The format [%d/%m/%Y]. *)
Definition match_dmy : str -> option (Z * Z * Z * str) :=
  re_d (fun d => literal "/" (re_m (fun m => literal "/"
       (re_Y (fun y => found y m d))))).

(** [datetime.strptime(s, fmt).date()]: the pattern matches, nothing of the
    text is left unconverted, and the fields make a date.  [None] is the
    ValueError of any of the three. *)
Definition strptime_date (fmt : str -> option (Z * Z * Z * str)) (s : str)
  : option (Z * Z * Z) :=
  match fmt s with
  | Some (y, m, d, []) => if valid_date y m d then Some (y, m, d) else None
  | Some (_, _, _, _ :: _) => None
  | None => None
  end.

Definition normalize_date_to_iso (date_str : str) : result str :=
  let date_str := strip date_str in
  match strptime_date match_ymd date_str with
  | Some (y, m, d) => Ok (isoformat y m d)
  | None =>
      match strptime_date match_dmy date_str with
      | Some (y, m, d) => Ok (isoformat y m d)
      | None => Err InvalidDate
      end
  end.

(** *** Vocabulary *)

Definition category_notice (cat : str) (allowed : list str) : str :=
  lit "[aviso] Categoria '" ++ cat ++ lit "' não está na lista padrão. "
  ++ lit "Considere uma destas: " ++ join (lit ", ") allowed.

Definition method_notice (m : str) : str :=
  lit "[aviso] Método '" ++ m ++ lit "' não está na lista padrão. "
  ++ lit "Use: " ++ join (lit ", ") PAYMENT_METHODS.

(** The value returned and the lines printed. *)
Definition validate_category (k : ExpenseOrIncome) (category : str)
  : str * list str :=
  let allowed := if kind_eqb k income then INCOME_CATEGORIES
                 else EXPENSE_CATEGORIES in
  let cat := or_else (strip category) (lit "Outros") in
  (cat, if negb (str_in cat allowed) then [category_notice cat allowed]
        else []).

Definition validate_payment_method (method : str) : str * list str :=
  let m := lower (strip method) in
  (or_else m (lit "pix"),
   match m with
   | [] => []
   | _ :: _ => if negb (str_in m PAYMENT_METHODS) then [method_notice m]
               else []
   end).

End Validation.

(** ** Floating point

    A binary64 number: a NaN, an infinity, or [(-1)^neg * m * 2^e] with
    [0 <= m].  The operations are those of IEEE 754 in its default rounding:
    the exact result, rounded to the nearest number of the format, a tie
    going to the one with an even significand. *)
Inductive float :=
| Fnan
| Finf (neg : bool)
| Ffin (neg : bool) (m e : Z).

(** The integer nearest to [n / d], a tie going to the even one
    ([0 <= n], [0 < d]). *)
Definition round_half_even (n d : Z) : Z :=
  let q := n / d in
  match 2 * (n mod d) ?= d with
  | Lt => q
  | Gt => q + 1
  | Eq => if Z.even q then q else q + 1
  end.

(** The [k] with [2^k <= n / d < 2^(k+1)] ([0 < n], [0 < d]). *)
Definition floor_log2 (n d : Z) : Z :=
  let k := Z.log2 n - Z.log2 d in
  if n * 2 ^ Z.max 0 (- k) <? d * 2 ^ Z.max 0 k then k - 1 else k.

(** The exponent of the last place of the binary64 numbers around
    [n / d]: 53 significant bits, and no exponent below that of the
    subnormal numbers. *)
Definition ulp_exponent (n d : Z) : Z := Z.max (floor_log2 n d - 52) (- 1074).

(** [n / d] rounded to binary64 ([0 <= n], [0 < d]); what reaches [2^1024]
    is an infinity. *)
Definition binary64 (neg : bool) (n d : Z) : float :=
  if n =? 0 then Ffin neg 0 0
  else
    let e := ulp_exponent n d in
    let m := round_half_even (n * 2 ^ Z.max 0 (- e)) (d * 2 ^ Z.max 0 e) in
    if 1024 <=? Z.log2 m + e then Finf neg else Ffin neg m e.

(** The numerator and the denominator of [m * 2^e]. *)
Definition numerator (m e : Z) : Z := m * 2 ^ Z.max 0 e.
Definition denominator (e : Z) : Z := 2 ^ Z.max 0 (- e).

(** [float(n)] for an int [n] *)
Definition float_of_int (n : Z) : result float :=
  match binary64 (n <? 0) (Z.abs n) 1 with
  | Finf _ => Err IntTooLargeForFloat
  | f => Ok f
  end.

(** The float [100.0], which is also what the int [100] becomes when it
    meets a float. *)
Definition f100 : float := Ffin false 100 0.

(** [x * y] *)
Definition fmul (x y : float) : float :=
  match x, y with
  | Fnan, _ | _, Fnan => Fnan
  | Finf a, Finf b => Finf (xorb a b)
  | Finf a, Ffin b m _ | Ffin a m _, Finf b =>
      if m =? 0 then Fnan else Finf (xorb a b)
  | Ffin a m1 e1, Ffin b m2 e2 =>
      binary64 (xorb a b) (numerator (m1 * m2) (e1 + e2))
               (denominator (e1 + e2))
  end.

(** [x / y] for a [y] other than zero (the program divides by [100.0]
    only). *)
Definition fdiv (x y : float) : float :=
  match x, y with
  | Fnan, _ | _, Fnan => Fnan
  | Finf _, Finf _ => Fnan
  | Finf a, Ffin b _ _ => Finf (xorb a b)
  | Ffin a _ _, Finf b => Ffin (xorb a b) 0 0
  | Ffin a m1 e1, Ffin b m2 e2 =>
      binary64 (xorb a b) (numerator m1 e1 * denominator e2)
               (numerator m2 e2 * denominator e1)
  end.

(** [x <= 0] *)
Definition fle_zero (x : float) : bool :=
  match x with
  | Fnan => false
  | Finf neg => neg
  | Ffin neg m _ => neg || (m =? 0)
  end.

(** [round(x)]: the nearest int, a tie going to the even one. *)
Definition round (x : float) : result Z :=
  match x with
  | Fnan => Err NanToInteger
  | Finf _ => Err InfinityToInteger
  | Ffin neg m e =>
      let n := round_half_even (numerator m e) (denominator e) in
      Ok (if neg then - n else n)
  end.

(** [format(x, ".2f")]: the value rounded to two decimals, a tie going to
    the even one. *)
Definition format_2f (x : float) : str :=
  match x with
  | Fnan => lit "nan"
  | Finf neg => if neg then lit "-inf" else lit "inf"
  | Ffin neg m e =>
      let h := round_half_even (numerator m e * 100) (denominator e) in
      (if neg then lit "-" else []) ++ digits (h / 100) ++ lit "."
      ++ format_0d 2 (h mod 100)
  end.

(** *** [float(s)]

    [PyFloat_FromString]: the text is brought to ASCII (a character past
    ASCII must be a space or a decimal digit), the white space around it is
    dropped, underscores are accepted between digits only, and what is left
    is read by [strtod], or else as an infinity or a NaN. *)

(** The C locale's [isspace]. *)
Definition is_c_space (c : char) : bool :=
  ((9 <=? c) && (c <=? 13) || (c =? 32))%N.

Definition is_ascii_digit (c : char) : bool := ((48 <=? c) && (c <=? 57))%N.

Fixpoint lstrip_c (s : str) : str :=
  match s with
  | [] => []
  | c :: t => if is_c_space c then lstrip_c t else s
  end.

Definition strip_c (s : str) : str := rev (lstrip_c (rev (lstrip_c s))).

(** The loop of [_Py_string_to_number_with_underscores]: [prev] is the
    character before. *)
Fixpoint underscores_ok (prev : char) (s : str) : bool :=
  match s with
  | [] => negb (prev =? ch "_")%N
  | c :: t =>
      (if (c =? ch "_")%N then is_ascii_digit prev
       else negb (prev =? ch "_")%N || is_ascii_digit c)
      && underscores_ok c t
  end.

Definition drop_underscores (s : str) : str :=
  filter (fun c => negb (c =? ch "_")%N) s.

(** The digits at the start of the text, and the rest of it. *)
Fixpoint take_digits (s : str) : list Z * str :=
  match s with
  | [] => ([], [])
  | c :: t =>
      if is_ascii_digit c
      then let (ds, r) := take_digits t in ((Z.of_N c - 48) :: ds, r)
      else ([], s)
  end.

(** The number a sequence of decimal digits writes. *)
Definition number_of (ds : list Z) : Z :=
  fold_left (fun acc d => 10 * acc + d) ds 0.

Definition take_sign (s : str) : bool * str :=
  match s with
  | c :: t => if (c =? ch "-")%N then (true, t)
              else if (c =? ch "+")%N then (false, t)
              else (false, s)
  | [] => (false, [])
  end.

(** The exponent part: nothing, or [e] or [E], a sign if any, and at least
    one digit, up to the end of the text. *)
Definition exponent (s : str) : option Z :=
  match s with
  | [] => Some 0
  | c :: t =>
      if ((c =? ch "e") || (c =? ch "E"))%N
      then let (neg, t') := take_sign t in
           match take_digits t' with
           | ((_ :: _) as ds, []) =>
               Some (if neg then - number_of ds else number_of ds)
           | _ => None
           end
      else None
  end.

(** [m * 10^x] rounded to binary64. *)
Definition decimal_value (neg : bool) (m x : Z) : float :=
  binary64 neg (m * 10 ^ Z.max 0 x) (10 ^ Z.max 0 (- x)).

(** [strtod] on the whole of the text after the sign. *)
Definition strtod (neg : bool) (s : str) : option float :=
  let (ip, r1) := take_digits s in
  let (fp, r2) := match r1 with
                  | c :: t => if (c =? ch ".")%N then take_digits t
                              else ([], r1)
                  | [] => ([], r1)
                  end in
  match ip ++ fp with
  | [] => None
  | (_ :: _) as ds =>
      match exponent r2 with
      | Some x => Some (decimal_value neg (number_of ds)
                                      (x - Z.of_nat (length fp)))
      | None => None
      end
  end.

(** [inf], [infinity] and [nan], in any case of the letters. *)
Definition inf_or_nan (neg : bool) (s : str) : option float :=
  let t := map ascii_lower s in
  if str_eqb t (lit "inf") || str_eqb t (lit "infinity") then Some (Finf neg)
  else if str_eqb t (lit "nan") then Some Fnan
  else None.

Section Money.
Context {U : Unicode}.

(** [_PyUnicode_TransformDecimalAndSpaceToASCII]; [None] when a character
    has no ASCII counterpart. *)
Fixpoint to_ascii (s : str) : option str :=
  match s with
  | [] => Some []
  | c :: t =>
      let c' := if (c <? 128)%N then Some c
                else if is_space c then Some (ch " ")
                else match to_decimal c with
                     | Some v => Some (digit_char v)
                     | None => None
                     end in
      match c', to_ascii t with
      | Some x, Some r => Some (x :: r)
      | _, _ => None
      end
  end.

(** [float(s)]; [None] is its ValueError. *)
Definition float_of_str (s : str) : option float :=
  match to_ascii s with
  | None => None
  | Some a =>
      let a := strip_c a in
      if underscores_ok 0%N a then
        let (neg, body) := take_sign (drop_underscores a) in
        match strtod neg body with
        | Some f => Some f
        | None => inf_or_nan neg body
        end
      else None
  end.

Definition parse_amount_to_cents (value_str : str) : result Z :=
  let s := replace (lit " ") [] (replace (lit "R$") [] (strip value_str)) in
  let s := if contains (ch ".") s && contains (ch ",") s
           then replace (lit ",") (lit ".") (replace (lit ".") [] s)
           else if contains (ch ",") s
           then replace (lit ",") (lit ".") s
           else s in
  match float_of_str s with
  | None => Err InvalidAmount
  | Some valor =>
      if fle_zero valor then Err NonPositiveAmount
      else round (fmul valor f100)
  end.

End Money.

(** ** Persistence *)

(** What [sqlite3] binds as an INTEGER parameter; a larger int is an
    OverflowError before the statement runs. *)
Definition fits_int64 (n : Z) : bool :=
  (- 2 ^ 63 <=? n) && (n <? 2 ^ 63).

Definition bind_int (n : Z) : result Z :=
  if fits_int64 n then Ok n else Err IntTooLargeForSqlite.

(** [IFNULL(x, '')] in SQL and [x or ""] in Python. *)
Definition ifnull (x : option str) : str :=
  match x with
  | Some s => s
  | None => []
  end.

(** The WHERE clause of [is_duplicate]. *)
Definition matches (k : ExpenseOrIncome) (date : str) (cents : Z)
    (cat desc : str) (r : Row) : bool :=
  kind_eqb (row_type r) k && str_eqb (row_date r) date
  && (row_amount_cents r =? cents) && str_eqb (row_category r) cat
  && str_eqb (ifnull (row_description r)) desc.

(** [SELECT COUNT(1) ... WHERE ...] *)
Definition count_matching (k : ExpenseOrIncome) (date : str) (cents : Z)
    (cat desc : str) (t : Store) : Z :=
  Z.of_nat (length (filter (matches k date cents cat desc) (rows t))).

Definition is_duplicate (tx : Transaction) (t : Store) : result bool :=
  cents <- bind_int (amount_cents tx) ;;
  Ok (0 <? count_matching (kind tx) (date_iso tx) cents (category tx)
                          (ifnull (description tx)) t).

(** What [datetime.utcnow()] returns. *)
Record datetime := {
  year : Z; month : Z; day : Z;
  hour : Z; minute : Z; second : Z; microsecond : Z
}.

(** [dt.isoformat(timespec="seconds")] *)
Definition isoformat_seconds (dt : datetime) : str :=
  isoformat (year dt) (month dt) (day dt) ++ lit "T"
  ++ format_0d 2 (hour dt) ++ lit ":" ++ format_0d 2 (minute dt) ++ lit ":"
  ++ format_0d 2 (second dt).

(** The largest id among the rows, when there is a row. *)
Fixpoint max_id (rs : list Row) : option Z :=
  match rs with
  | [] => None
  | r :: rest =>
      match max_id rest with
      | None => Some (row_id r)
      | Some m => Some (Z.max (row_id r) m)
      end
  end.

(** The largest rowid of SQLite. *)
Definition MAX_ROWID : Z := 2 ^ 63 - 1.

(** The id a new row gets while there is one to give: 1 in an empty table
    and one more than the largest id otherwise, or one more than the
    counter if that is larger. *)
Definition fresh_id (t : Store) : Z :=
  Z.max (match max_id (rows t) with
         | None => 1
         | Some m => m + 1
         end)
        (sequence t + 1).

(** AUTOINCREMENT.  Once the table holds the largest rowid, or the counter
    has reached it, no id is left: the statement fails with SQLITE_FULL,
    which [sqlite3] raises as an OperationalError. *)
Definition next_id (t : Store) : result Z :=
  let full := match max_id (rows t) with
              | None => false
              | Some m => MAX_ROWID <=? m
              end in
  if full || (MAX_ROWID <=? sequence t) then Err OperationalError
  else Ok (fresh_id t).

(** The row the INSERT of [save_transaction] writes. *)
Definition new_row (id : Z) (tx : Transaction) (now : str) : Row :=
  {| row_id := id;
     row_type := kind tx;
     row_date := date_iso tx;
     row_amount_cents := amount_cents tx;
     row_category := category tx;
     row_description := description tx;
     row_account := Some (account tx);
     row_payment_method := Some (payment_method tx);
     row_tags := tags tx;
     row_created_at := now;
     row_updated_at := now |}.

(** The INSERT with its commit: the row is added, or the statement fails
    (on the binding of the amount, then on the id to give the row, then on
    [CHECK(amount_cents > 0)]) and the table is as before. *)
Definition insert (tx : Transaction) (now : str) (t : Store)
  : result (Z * Store) :=
  cents <- bind_int (amount_cents tx) ;;
  id <- next_id t ;;
  if 0 <? cents then
    Ok (id, {| rows := rows t ++ [new_row id tx now]; sequence := id |})
  else Err IntegrityError.

(** A statement on the database, run in the world. *)
Definition query {A} (q : Store -> result A) : M A :=
  fun w => (q (db w), w).

Definition execute {A} (q : Store -> result (A * Store)) : M A :=
  fun w =>
    match q (db w) with
    | Ok (a, t) => (Ok a, {| db := t; stdout := stdout w |})
    | Err e => (Err e, w)
    end.

(** [utcnow] is the reading of the clock during the call. *)
Definition save_transaction (utcnow : datetime) (tx : Transaction)
    (allow_duplicate : bool) : M Z :=
  dup <~ (if negb allow_duplicate then query (is_duplicate tx)
          else ret false) ;;
  if dup then raise DuplicateTransaction
  else
    let now := isoformat_seconds utcnow ++ lit "Z" in
    execute (insert tx now).

(** ** The high-level API *)

Section Api.
Context {U : Unicode}.

Definition add (k : ExpenseOrIncome) (utcnow : datetime)
    (date_str amount_str category description account payment_method : str)
    (tags : option str) (allow_duplicate : bool) : M Z :=
  date_iso <~ lift (normalize_date_to_iso date_str) ;;
  cents <~ lift (parse_amount_to_cents amount_str) ;;
  let (cat, notice) := validate_category k category in
  _ <~ print_all notice ;;
  let (method, notice) := validate_payment_method payment_method in
  _ <~ print_all notice ;;
  let tx := {| kind := k;
               date_iso := date_iso;
               amount_cents := cents;
               category := cat;
               description := Some (strip description);
               account := or_else (strip account) (lit "principal");
               payment_method := method;
               tags := tags |} in
  save_transaction utcnow tx allow_duplicate.

Definition add_expense := add expense.

Definition add_income := add income.

End Api.

(** ** Utilities *)

(** [range(n, 0, -3)] *)
Definition range_down3 (n : nat) : list nat :=
  map (fun j => (n - 3 * j)%nat) (seq 0 ((n + 2) / 3)).

(** The digits in groups of three from the right, the groups in the order
    of the text:
    [[inteiro[max(i-3,0):i] for i in range(len(inteiro), 0, -3)][::-1]].
    The line before it in the source computes a value that is not used. *)
Definition groups_of_three (inteiro : str) : list str :=
  rev (map (fun i => slice (i - 3) i inteiro) (range_down3 (length inteiro))).

Definition cents_to_brl (cents : Z) : result str :=
  c <- float_of_int cents ;;
  let valor := fdiv c f100 in
  match split_on (ch ".") (format_2f valor) with
  | [inteiro; frac] =>
      let inteiro_com_pontos :=
        or_else (join (lit ".") (groups_of_three inteiro)) (lit "0") in
      Ok (lit "R$ " ++ inteiro_com_pontos ++ lit "," ++ frac)
  | _ => Err UnpackError
  end.

(** The order of text values in SQLite: that of the code points. *)
Fixpoint str_compare (a b : str) : comparison :=
  match a, b with
  | [], [] => Eq
  | [], _ :: _ => Lt
  | _ :: _, [] => Gt
  | x :: a', y :: b' =>
      match (x ?= y)%N with
      | Eq => str_compare a' b'
      | c => c
      end
  end.

(** [ORDER BY date DESC, id DESC]: [a] is not after [b]. *)
Definition newer_first (a b : Row) : bool :=
  match str_compare (row_date a) (row_date b) with
  | Gt => true
  | Lt => false
  | Eq => row_id b <=? row_id a
  end.

Fixpoint insert_sorted (r : Row) (rs : list Row) : list Row :=
  match rs with
  | [] => [r]
  | x :: rest => if newer_first r x then r :: rs
                 else x :: insert_sorted r rest
  end.

Definition order_by_date_id_desc (rs : list Row) : list Row :=
  fold_right insert_sorted [] rs.

(** [LIMIT n]: a negative [n] is no limit. *)
Definition limit {A} (n : Z) (xs : list A) : list A :=
  if n <? 0 then xs else firstn (Z.to_nat n) xs.

(** The tuple [list_last] selects. *)
Record Listed := {
  l_id : Z;
  l_type : ExpenseOrIncome;
  l_date : str;
  l_amount_cents : Z;
  l_category : str;
  l_description : str;
  l_account : option str;
  l_payment_method : option str
}.

Definition selected (r : Row) : Listed :=
  {| l_id := row_id r;
     l_type := row_type r;
     l_date := row_date r;
     l_amount_cents := row_amount_cents r;
     l_category := row_category r;
     l_description := ifnull (row_description r);
     l_account := row_account r;
     l_payment_method := row_payment_method r |}.

(** The SELECT of [list_last]: what [cur.fetchall()] returns. *)
Definition select_last (n : Z) (t : Store) : result (list Listed) :=
  n <- bind_int n ;;
  Ok (map selected (limit n (order_by_date_id_desc (rows t)))).

(** [str(x)] of an optional text. *)
Definition str_of_optional (x : option str) : str :=
  match x with
  | Some s => s
  | None => lit "None"
  end.

Definition listed_line (r : Listed) : result str :=
  brl <- cents_to_brl (l_amount_cents r) ;;
  let sinal := if kind_eqb (l_type r) expense then lit "-" else lit "+" in
  Ok (lit "#" ++ format_0d 4 (l_id r) ++ lit " [" ++ l_date r ++ lit "] "
      ++ sinal ++ brl ++ lit " | " ++ kind_text (l_type r) ++ lit " | "
      ++ l_category r ++ lit " | " ++ l_description r ++ lit " | "
      ++ str_of_optional (l_account r) ++ lit "/"
      ++ str_of_optional (l_payment_method r)).

Fixpoint print_listed (rs : list Listed) : M unit :=
  match rs with
  | [] => ret tt
  | r :: rest =>
      line <~ lift (listed_line r) ;;
      _ <~ print line ;;
      print_listed rest
  end.

(** The rows are fetched, then printed: a title, a line for each row, and
    a note when there is none. *)
Definition list_last (n : Z) : M unit :=
  rs <~ query (select_last n) ;;
  _ <~ print (10%N :: lit "Últimas transações:") ;;
  _ <~ print_listed rs ;;
  match rs with
  | [] => print (lit "(vazio)")
  | _ :: _ => ret tt
  end.

(** ** The command line *)

(** [str(n)] *)
Definition str_of_int (n : Z) : str :=
  if n <? 0 then ch "-" :: digits (- n) else digits n.

(** What the program writes to the terminal: a line, by [print], or the
    prompt of an [input], which no end of line follows. *)
Inductive output :=
| Printed (line : str)
| Asked (prompt : str).

(** The program at its terminal: the database file, the lines still to be
    typed, what was written so far, and the clock, [clock i] being its
    reading at the [i]-th entry from now. *)
Record Console := {
  table : Store;
  stdin : list str;
  screen : list output;
  clock : nat -> datetime
}.

(** What ends a statement before its end: an exception of the ledger, or
    the EOFError of [input]. *)
Inductive exception :=
| Raised (e : error)
| EOFError.

Inductive outcome (A : Type) :=
| Returned (a : A)
| Threw (x : exception).
Arguments Returned {A} a.
Arguments Threw {A} x.

(** A statement at the terminal. *)
Definition Cli (A : Type) := Console -> outcome A * Console.

Definition cret {A} (a : A) : Cli A := fun c => (Returned a, c).

Definition cbind {A B} (m : Cli A) (f : A -> Cli B) : Cli B :=
  fun c =>
    match m c with
    | (Returned a, c') => f a c'
    | (Threw x, c') => (Threw x, c')
    end.

Notation "x <-- m ;; k" := (cbind m (fun x => k))
  (at level 61, m at next level, right associativity) : py_scope.

(** [try: m except Exception as e: h e] *)
Definition catch {A} (m : Cli A) (h : exception -> Cli A) : Cli A :=
  fun c =>
    match m c with
    | (Returned a, c') => (Returned a, c')
    | (Threw x, c') => h x c'
    end.

Definition write (o : output) (c : Console) : Console :=
  {| table := table c; stdin := stdin c; screen := screen c ++ [o];
     clock := clock c |}.

Definition say (line : str) : Cli unit :=
  fun c => (Returned tt, write (Printed line) c).

Fixpoint say_all (lines : list str) : Cli unit :=
  match lines with
  | [] => cret tt
  | l :: ls => _ <-- say l ;; say_all ls
  end.

(** [input(prompt)]: the prompt is written, and a line is read; at the end
    of the input it raises EOFError. *)
Definition input (prompt : str) : Cli str :=
  fun c =>
    let c := write (Asked prompt) c in
    match stdin c with
    | [] => (Threw EOFError, c)
    | line :: rest =>
        (Returned line,
         {| table := table c; stdin := rest; screen := screen c;
            clock := clock c |})
    end.

(** A call of a function of the ledger: it acts on the database file, and
    what it prints goes to the terminal. *)
Definition call {A} (m : M A) : Cli A :=
  fun c =>
    let (r, w) := m {| db := table c; stdout := [] |} in
    (match r with
     | Ok a => Returned a
     | Err e => Threw (Raised e)
     end,
     {| table := db w; stdin := stdin c;
        screen := screen c ++ map Printed (stdout w); clock := clock c |}).

(** The reading of the clock for an entry. *)
Definition read_clock : Cli datetime :=
  fun c =>
    (Returned (clock c 0%nat),
     {| table := table c; stdin := stdin c; screen := screen c;
        clock := fun i => clock c (S i) |}).

Section CommandLine.
Context {U : Unicode}.

(** [str(e)] for an exception that a library raised. *)
Variable library_message : exception -> str.

(** [str(e)] *)
Definition message (x : exception) : str :=
  match x with
  | Raised InvalidDate => lit "Data inválida. Use YYYY-MM-DD ou DD/MM/YYYY."
  | Raised InvalidAmount =>
      lit "Valor inválido. Exemplos válidos: 123,45 | 123.45 | 1234"
  | Raised NonPositiveAmount => lit "Valor deve ser maior que zero."
  | Raised DuplicateTransaction =>
      lit "Transação já existe (possível duplicata)."
  | _ => library_message x
  end.

Definition category_prompt (k : ExpenseOrIncome) : str :=
  lit "Categoria (ex: "
  ++ join (lit ", ")
       (firstn 5 match k with
                 | expense => EXPENSE_CATEGORIES
                 | income => INCOME_CATEGORIES
                 end)
  ++ lit ", ...): ".

Definition method_prompt : str :=
  lit "Método (ex: " ++ join (lit ", ") PAYMENT_METHODS ++ lit "): ".

Definition registered (k : ExpenseOrIncome) (tx_id : Z) : str :=
  lit "OK! "
  ++ match k with
     | expense => lit "Despesa"
     | income => lit "Receita"
     end
  ++ lit " registrada com id #" ++ str_of_int tx_id ++ lit ".".

(** The branches [op == "1"] and [op == "2"] of the loop. *)
Definition entry (k : ExpenseOrIncome) : Cli unit :=
  catch
    (date <-- input (lit "Data: ") ;;
     amount <-- input (lit "Valor (R$): ") ;;
     category <-- input (category_prompt k) ;;
     desc <-- input (lit "Descrição (opcional): ") ;;
     acc <-- input (lit "Conta (padrão 'principal'): ") ;;
     let acc := or_else acc (lit "principal") in
     pm <-- input method_prompt ;;
     let pm := or_else pm (lit "pix") in
     now <-- read_clock ;;
     tx_id <-- call (match k with
                     | expense => add_expense
                     | income => add_income
                     end now date amount category desc acc pm None false) ;;
     say (registered k tx_id))
    (fun e => say (lit "ERRO: " ++ message e)).

Definition menu : list str :=
  [10%N :: lit "[1] Adicionar DESPESA"; lit "[2] Adicionar RECEITA";
   lit "[3] Listar últimas 10"; lit "[0] Sair"].

(** The body of the loop; [false] is its [break]. *)
Definition turn : Cli bool :=
  _ <-- say_all menu ;;
  op <-- input (lit "Escolha: ") ;;
  let op := strip op in
  if str_eqb op (lit "0") then cret false
  else if str_eqb op (lit "1") then _ <-- entry expense ;; cret true
  else if str_eqb op (lit "2") then _ <-- entry income ;; cret true
  else if str_eqb op (lit "3") then _ <-- call (list_last 10) ;; cret true
  else _ <-- say (lit "Opção inválida.") ;; cret true.

(** [while True: ...], for so many turns at most. *)
Fixpoint turns (fuel : nat) (c : Console) : option (outcome unit * Console) :=
  match fuel with
  | O => None
  | S fuel =>
      match turn c with
      | (Returned true, c') => turns fuel c'
      | (Returned false, c') => Some (Returned tt, c')
      | (Threw x, c') => Some (Threw x, c')
      end
  end.

Definition banner : list str :=
  [lit "=== Controle Financeiro (CLI) ==="; lit "Dicas de formatos:";
   lit "- Data: YYYY-MM-DD ou DD/MM/YYYY";
   lit "- Valor: 1.234,56  ou  1234.56  ou  1234" ++ [10%N]].

(** Every turn but the last one reads a line, so the loop makes no more
    turns than there are lines, and one. *)
Definition cli_loop (c : Console) : option (outcome unit * Console) :=
  turns (S (length (stdin c))) (snd (say_all banner c)).

(** [init_db(); cli_loop()] *)
Definition main (file : option Store) (lines : list str)
    (clock : nat -> datetime) : option (outcome unit * Console) :=
  cli_loop {| table := init_db file; stdin := lines; screen := [];
              clock := clock |}.

End CommandLine.

(** * Properties *)

(** ** Strings *)

Lemma str_eqb_eq (a b : str) : str_eqb a b = true <-> a = b.
Proof.
  revert b; induction a as [|x a IH]; intros [|y b]; simpl;
    try (split; [discriminate | congruence]).
  - tauto.
  - rewrite andb_true_iff, N.eqb_eq, IH. split.
    + intros [-> ->]; reflexivity.
    + intros [= -> ->]; auto.
Qed.

Lemma lstrip_idempotent (s : str) : lstrip (lstrip s) = lstrip s.
Proof.
  induction s as [|c s IH]; simpl; [reflexivity|].
  destruct (is_space c) eqn:E; [exact IH | simpl; rewrite E; reflexivity].
Qed.

Lemma lstrip_app_keep (a b : str) (c : char) :
  is_space c = false -> lstrip (a ++ c :: b) = lstrip a ++ c :: b.
Proof.
  intros Hc; induction a as [|x a IH]; simpl.
  - rewrite Hc; reflexivity.
  - destruct (is_space x); [exact IH | reflexivity].
Qed.

Lemma rstrip_cons_keep (c : char) (s : str) :
  is_space c = false -> rstrip (c :: s) = c :: rstrip s.
Proof.
  intros Hc; unfold rstrip; simpl.
  rewrite (lstrip_app_keep (rev s) [] c Hc), rev_app_distr; reflexivity.
Qed.

Lemma rstrip_idempotent (s : str) : rstrip (rstrip s) = rstrip s.
Proof.
  unfold rstrip; rewrite rev_involutive, lstrip_idempotent; reflexivity.
Qed.

(** What [strip] returns starts with no white space. *)
Lemma lstrip_strip (s : str) : lstrip (strip s) = strip s.
Proof.
  unfold strip. pose proof (lstrip_idempotent s) as H.
  destruct (lstrip s) as [|c t] eqn:E; [reflexivity|].
  simpl in H. destruct (is_space c) eqn:Hc.
  - (* the text left would be shorter than itself *)
    exfalso. clear E.
    assert (L : forall u, (length (lstrip u) <= length u)%nat).
    { induction u as [|x u IH]; simpl; [lia|].
      destruct (is_space x); simpl; lia. }
    specialize (L t). rewrite H in L. simpl in L. lia.
  - rewrite (rstrip_cons_keep c t Hc). simpl. rewrite Hc. reflexivity.
Qed.

Lemma strip_idempotent (s : str) : strip (strip s) = strip s.
Proof.
  unfold strip at 1. rewrite lstrip_strip. unfold strip.
  apply rstrip_idempotent.
Qed.

Lemma lstrip_map (f : char -> char) (s : str) :
  (forall c, is_space (f c) = is_space c) ->
  lstrip (map f s) = map f (lstrip s).
Proof.
  intros Hf; induction s as [|c s IH]; simpl; [reflexivity|].
  rewrite Hf. destruct (is_space c); [exact IH | reflexivity].
Qed.

Lemma strip_map (f : char -> char) (s : str) :
  (forall c, is_space (f c) = is_space c) ->
  strip (map f s) = map f (strip s).
Proof.
  intros Hf. unfold strip, rstrip.
  rewrite (lstrip_map f s Hf), <- map_rev, (lstrip_map f _ Hf), map_rev.
  reflexivity.
Qed.

Lemma ascii_lower_idempotent (c : char) :
  ascii_lower (ascii_lower c) = ascii_lower c.
Proof.
  unfold ascii_lower.
  destruct ((65 <=? c) && (c <=? 90))%N eqn:E; [|rewrite E; reflexivity].
  apply andb_true_iff in E as [A B].
  apply N.leb_le in A. apply N.leb_le in B.
  replace ((65 <=? c + 32) && (c + 32 <=? 90))%N with false; [reflexivity|].
  symmetry. apply andb_false_iff. right. apply N.leb_gt. lia.
Qed.

Lemma ascii_lower_space (c : char) : is_space (ascii_lower c) = is_space c.
Proof.
  unfold ascii_lower.
  destruct ((65 <=? c) && (c <=? 90))%N eqn:E; [|reflexivity].
  apply andb_true_iff in E as [A B].
  apply N.leb_le in A. apply N.leb_le in B.
  assert (Hc : is_space c = false).
  { unfold is_space.
    repeat match goal with
    | |- context [(?a <=? ?b)%N] => destruct (N.leb_spec a b); try lia
    | |- context [(?a =? ?b)%N] => destruct (N.eqb_spec a b); try lia
    end; reflexivity. }
  rewrite Hc. unfold is_space.
  repeat match goal with
  | |- context [(?a <=? ?b)%N] => destruct (N.leb_spec a b); try lia
  | |- context [(?a =? ?b)%N] => destruct (N.eqb_spec a b); try lia
  end; reflexivity.
Qed.

Lemma ascii_digit_bound (c : char) (v : Z) :
  ascii_digit c = Some v -> 0 <= v <= 9.
Proof.
  unfold ascii_digit.
  destruct ((48 <=? c) && (c <=? 57))%N eqn:E; [|discriminate].
  apply andb_true_iff in E as [A B].
  apply N.leb_le in A. apply N.leb_le in B. intros [= <-]. lia.
Qed.

(** The character database restricted to Basic Latin: the ASCII digits and
    the ASCII letters.  It satisfies the interface, and serves to run the
    program on ASCII texts. *)
Definition basic_latin : Unicode := {|
  to_decimal := ascii_digit;
  lower := map ascii_lower;
  to_decimal_ascii := fun c _ => eq_refl;
  to_decimal_bound := ascii_digit_bound;
  lower_ascii := fun s _ => eq_refl;
  lower_nonempty := fun s H => map_eq_nil ascii_lower s H;
  lower_idempotent := fun s =>
    eq_trans (map_map ascii_lower ascii_lower s)
             (map_ext _ _ ascii_lower_idempotent s);
  lower_stripped := fun s H =>
    eq_trans (strip_map ascii_lower s ascii_lower_space)
             (f_equal (map ascii_lower) H)
|}.

(** ** Decimal numerals *)

Lemma digits_aux_app (fuel : nat) (n : Z) (acc : str) :
  digits_aux fuel n acc = digits_aux fuel n [] ++ acc.
Proof.
  revert n acc; induction fuel as [|f IH]; intros n acc; simpl; [reflexivity|].
  destruct (n / 10 =? 0); [reflexivity|].
  rewrite (IH (n / 10) (_ :: acc)), (IH (n / 10) [_]), <- app_assoc.
  reflexivity.
Qed.

Lemma digits_aux_S (fuel : nat) (n : Z) (acc : str) :
  digits_aux (S fuel) n acc =
    if n / 10 =? 0 then digit_char (n mod 10) :: acc
    else digits_aux fuel (n / 10) (digit_char (n mod 10) :: acc).
Proof. reflexivity. Qed.

(** Enough fuel is enough. *)
Lemma digits_aux_fuel (f1 f2 : nat) (n : Z) :
  0 <= n < 2 ^ (Z.of_nat f1 + 1) -> n < 2 ^ (Z.of_nat f2 + 1) ->
  digits_aux (S f1) n [] = digits_aux (S f2) n [].
Proof.
  revert f2 n; induction f1 as [|f1 IH]; intros f2 n H1 H2.
  - change (2 ^ (Z.of_nat 0 + 1)) with 2 in H1.
    rewrite !digits_aux_S.
    replace (n / 10) with 0 by (symmetry; apply Z.div_small; lia).
    reflexivity.
  - destruct f2 as [|f2].
    + change (2 ^ (Z.of_nat 0 + 1)) with 2 in H2.
      rewrite !digits_aux_S.
      replace (n / 10) with 0 by (symmetry; apply Z.div_small; lia).
      reflexivity.
    + rewrite (digits_aux_S (S f1)), (digits_aux_S (S f2)).
      destruct (n / 10 =? 0); [reflexivity|].
      rewrite (digits_aux_app (S f1)), (digits_aux_app (S f2)).
      f_equal. apply IH.
      * rewrite Nat2Z.inj_succ, <- Z.add_1_r, Z.pow_add_r in H1 by lia.
        change (2 ^ 1) with 2 in H1.
        assert (X : 0 < 2 ^ (Z.of_nat f1 + 1)) by (apply Z.pow_pos_nonneg; lia).
        split; [apply Z.div_pos; lia|].
        apply Z.div_lt_upper_bound; lia.
      * rewrite Nat2Z.inj_succ, <- Z.add_1_r, Z.pow_add_r in H2 by lia.
        change (2 ^ 1) with 2 in H2.
        assert (X : 0 < 2 ^ (Z.of_nat f2 + 1)) by (apply Z.pow_pos_nonneg; lia).
        apply Z.div_lt_upper_bound; lia.
Qed.

Lemma digits_small (n : Z) : 0 <= n < 10 -> digits n = [digit_char n].
Proof.
  intros H. unfold digits. rewrite digits_aux_S.
  rewrite Z.div_small, Z.mod_small by lia. reflexivity.
Qed.

Lemma log2_fuel (n : Z) : 0 <= n -> n < 2 ^ (Z.of_nat (Z.to_nat (Z.log2 n)) + 1).
Proof.
  intros H. rewrite Z2Nat.id by apply Z.log2_nonneg.
  destruct (Z.eq_dec n 0) as [->|N]; [reflexivity|].
  rewrite Z.add_1_r. apply Z.log2_spec. lia.
Qed.

Lemma digits_step (n : Z) :
  10 <= n -> digits n = digits (n / 10) ++ [digit_char (n mod 10)].
Proof.
  intros H. unfold digits at 1. rewrite digits_aux_S.
  assert (Q : 1 <= n / 10) by (apply Z.div_le_lower_bound; lia).
  replace (n / 10 =? 0) with false by (symmetry; apply Z.eqb_neq; lia).
  rewrite digits_aux_app. f_equal. unfold digits.
  pose proof (log2_fuel n ltac:(lia)) as L.
  assert (P : 1 <= Z.log2 n) by (apply (Z.log2_le_mono 2 n); lia).
  destruct (Z.to_nat (Z.log2 n)) as [|f] eqn:E; [lia|].
  apply digits_aux_fuel; [|apply log2_fuel; lia].
  split; [lia|].
  rewrite Nat2Z.inj_succ, <- Z.add_1_r, Z.pow_add_r in L by lia.
  change (2 ^ 1) with 2 in L.
  assert (X : 0 < 2 ^ (Z.of_nat f + 1)) by (apply Z.pow_pos_nonneg; lia).
  apply Z.div_lt_upper_bound; lia.
Qed.

(** Induction on the decimal numeral of a number. *)
Lemma numeral_ind (P : Z -> Prop) :
  (forall n, 0 <= n < 10 -> P n) ->
  (forall n, 10 <= n -> P (n / 10) -> P n) ->
  forall n, 0 <= n -> P n.
Proof.
  intros Hs Hl n Hn. pattern n. apply Zlt_0_ind; [|exact Hn].
  intros x IH Hx. destruct (Z.lt_ge_cases x 10) as [L|G].
  - apply Hs. lia.
  - apply Hl; [exact G|]. apply IH.
    split; [apply Z.div_pos; lia | apply Z.div_lt; lia].
Qed.

Definition is_digit (c : char) : Prop := is_ascii_digit c = true.

(** The values of the digits of a text. *)
Definition values (s : str) : list Z := map (fun c => Z.of_N c - 48) s.

Lemma digit_char_digit (v : Z) : 0 <= v <= 9 -> is_digit (digit_char v).
Proof.
  intros H. unfold is_digit, is_ascii_digit, digit_char.
  apply andb_true_iff. split; apply N.leb_le; lia.
Qed.

Lemma digit_char_value (v : Z) : 0 <= v <= 9 -> Z.of_N (digit_char v) - 48 = v.
Proof. intros H. unfold digit_char. lia. Qed.

Lemma is_digit_range (c : char) : is_digit c <-> (48 <= c <= 57)%N.
Proof.
  unfold is_digit, is_ascii_digit.
  rewrite andb_true_iff, !N.leb_le. tauto.
Qed.

Lemma digits_all (n : Z) : 0 <= n -> Forall is_digit (digits n).
Proof.
  revert n. apply numeral_ind.
  - intros n H. rewrite digits_small by lia.
    constructor; [apply digit_char_digit; lia | constructor].
  - intros n H IH. rewrite digits_step by lia.
    apply Forall_app. split; [exact IH|].
    constructor; [|constructor].
    apply digit_char_digit. pose proof (Z.mod_pos_bound n 10). lia.
Qed.

Lemma digits_nonempty (n : Z) : 0 <= n -> digits n <> [].
Proof.
  intros H. destruct (Z.lt_ge_cases n 10).
  - rewrite digits_small by lia. discriminate.
  - rewrite digits_step by lia. intros E. apply app_eq_nil in E as [_ E].
    discriminate.
Qed.

Lemma number_of_snoc (ds : list Z) (d : Z) :
  number_of (ds ++ [d]) = 10 * number_of ds + d.
Proof. unfold number_of. rewrite fold_left_app. reflexivity. Qed.

Lemma values_app (a b : str) : values (a ++ b) = values a ++ values b.
Proof. apply map_app. Qed.

Lemma values_digits (n : Z) : 0 <= n -> number_of (values (digits n)) = n.
Proof.
  revert n. apply numeral_ind.
  - intros n H. rewrite digits_small by lia. simpl.
    rewrite digit_char_value by lia. unfold number_of. simpl. lia.
  - intros n H IH. rewrite digits_step by lia.
    rewrite values_app.
    change (values [digit_char (n mod 10)])
      with [Z.of_N (digit_char (n mod 10)) - 48].
    rewrite number_of_snoc, IH, digit_char_value.
    + pose proof (Z.div_mod n 10). lia.
    + pose proof (Z.mod_pos_bound n 10). lia.
Qed.

Lemma take_digits_app (s rest : str) :
  Forall is_digit s ->
  take_digits (s ++ rest)
  = (values s ++ fst (take_digits rest), snd (take_digits rest)).
Proof.
  induction 1 as [|c s Hc Hs IH]; simpl.
  - destruct (take_digits rest); reflexivity.
  - rewrite Hc, IH. reflexivity.
Qed.

Lemma format_two_digits (f : Z) :
  0 <= f < 100 -> format_0d 2 f = [digit_char (f / 10); digit_char (f mod 10)].
Proof.
  intros H. unfold format_0d.
  replace (f <? 0) with false by (symmetry; apply Z.ltb_ge; lia).
  destruct (Z.lt_ge_cases f 10).
  - rewrite digits_small, Z.div_small, Z.mod_small by lia. reflexivity.
  - rewrite digits_step by lia.
    rewrite digits_small.
    + reflexivity.
    + split; [apply Z.div_pos; lia | apply Z.div_lt_upper_bound; lia].
Qed.

(** ** The vocabulary validators *)

Section VocabularyFacts.
Context {U : Unicode}.

Lemma or_else_nonempty (x y : str) : y <> [] -> or_else x y <> [].
Proof. destruct x; simpl; [auto | discriminate]. Qed.

Lemma lower_lit_pix : lower (lit "pix") = lit "pix".
Proof.
  rewrite lower_ascii; [reflexivity|].
  repeat constructor.
Qed.

Lemma validate_category_value (k : ExpenseOrIncome) (c : str) :
  fst (validate_category k c) = or_else (strip c) (lit "Outros").
Proof. reflexivity. Qed.

Lemma validate_payment_method_value (m : str) :
  fst (validate_payment_method m) = or_else (lower (strip m)) (lit "pix").
Proof. reflexivity. Qed.

(** C8. Both validators return a value for every input, and never raise:
    [validate_category] returns the trimmed text as typed, or "Outros" when
    nothing is left of it; [validate_payment_method] returns the trimmed
    text in lower case, or "pix" when nothing is left of it; whether the
    value is in the recommended list changes only what is printed.  So
    "PIX" gives "pix", and the empty text gives "pix". *)
Theorem validators_never_fail (k : ExpenseOrIncome) (c m : str) :
  (exists notices,
     validate_category k c =
       (match strip c with [] => lit "Outros" | _ :: _ => strip c end,
        notices))
  /\ (exists notices,
        validate_payment_method m =
          (match strip m with [] => lit "pix" | _ :: _ => lower (strip m) end,
           notices))
  /\ fst (validate_payment_method (lit "PIX")) = lit "pix"
  /\ fst (validate_payment_method (lit "")) = lit "pix".
Proof.
  repeat split.
  - unfold validate_category, or_else.
    destruct (strip c); eexists; reflexivity.
  - unfold validate_payment_method, or_else.
    destruct (strip m) as [|x t] eqn:E.
    + rewrite (lower_ascii []); [eexists; reflexivity | constructor].
    + destruct (lower (x :: t)) eqn:L; [|eexists; reflexivity].
      apply lower_nonempty in L. discriminate.
  - rewrite validate_payment_method_value.
    change (strip (lit "PIX")) with (lit "PIX").
    rewrite lower_ascii; [reflexivity | repeat constructor].
  - rewrite validate_payment_method_value.
    change (strip (lit "")) with (@nil char).
    rewrite (lower_ascii []); [reflexivity | constructor].
Qed.

(** C10. Validating a validated value changes nothing, and a validated
    value is never the empty text, for categories of either kind and for
    payment methods. *)
Theorem validators_idempotent (k : ExpenseOrIncome) (c m : str) :
  fst (validate_category k (fst (validate_category k c)))
    = fst (validate_category k c)
  /\ fst (validate_category k c) <> []
  /\ fst (validate_payment_method (fst (validate_payment_method m)))
       = fst (validate_payment_method m)
  /\ fst (validate_payment_method m) <> [].
Proof.
  rewrite !validate_category_value, !validate_payment_method_value.
  repeat split.
  - unfold or_else at 2 3. destruct (strip c) as [|x t] eqn:E.
    + reflexivity.
    + rewrite <- E, strip_idempotent, E. reflexivity.
  - apply or_else_nonempty. discriminate.
  - unfold or_else at 2 3. destruct (lower (strip m)) as [|x t] eqn:E.
    + change (strip (lit "pix")) with (lit "pix").
      rewrite lower_lit_pix. reflexivity.
    + rewrite <- E.
      rewrite (lower_stripped (strip m) (strip_idempotent m)).
      rewrite lower_idempotent, E. reflexivity.
  - apply or_else_nonempty. discriminate.
Qed.

End VocabularyFacts.

(** The two theorems at the Basic Latin database, on a category and a
    payment method typed with spaces and capitals. *)
Lemma validators_never_fail_basic_latin :
  (exists notices,
     @validate_category expense (lit "  Lazer ") = (lit "Lazer", notices))
  /\ (exists notices,
        @validate_payment_method basic_latin (lit " Cartao ")
          = (lit "cartao", notices)).
Proof.
  destruct (@validators_never_fail basic_latin expense (lit "  Lazer ")
              (lit " Cartao ")) as (H1 & H2 & _).
  split; [exact H1 | exact H2].
Defined.

Lemma validators_idempotent_basic_latin :
  fst (@validate_payment_method basic_latin
         (fst (@validate_payment_method basic_latin (lit " Cartao "))))
    = fst (@validate_payment_method basic_latin (lit " Cartao ")).
Proof.
  exact (proj1 (proj2 (proj2
    (@validators_idempotent basic_latin expense (lit "x") (lit " Cartao "))))).
Defined.

(** ** Duplicates *)

Lemma kind_eqb_eq (a b : ExpenseOrIncome) : kind_eqb a b = true <-> a = b.
Proof. destruct a, b; simpl; split; congruence. Qed.

(** A row and a transaction agree on the tuple a duplicate is defined by;
    a description that is NULL or [None] counts as the empty text. *)
Definition same_tuple (tx : Transaction) (r : Row) : Prop :=
  row_type r = kind tx
  /\ row_date r = date_iso tx
  /\ row_amount_cents r = amount_cents tx
  /\ row_category r = category tx
  /\ ifnull (row_description r) = ifnull (description tx).

Lemma matches_same_tuple (tx : Transaction) (r : Row) :
  matches (kind tx) (date_iso tx) (amount_cents tx) (category tx)
          (ifnull (description tx)) r = true
  <-> same_tuple tx r.
Proof.
  unfold matches, same_tuple.
  rewrite !andb_true_iff, kind_eqb_eq, !str_eqb_eq, Z.eqb_eq. tauto.
Qed.

Lemma count_positive_iff (f : Row -> bool) (rs : list Row) :
  (0 <? Z.of_nat (length (filter f rs))) = true
  <-> exists r, In r rs /\ f r = true.
Proof.
  rewrite Z.ltb_lt. split.
  - destruct (filter f rs) as [|r l] eqn:E; simpl; [lia|].
    intros _. exists r. apply filter_In. rewrite E. left; reflexivity.
  - intros (r & Hin & Hf).
    assert (H : In r (filter f rs)) by (apply filter_In; auto).
    destruct (filter f rs); [contradiction | simpl; lia].
Qed.

Lemma is_duplicate_value (tx : Transaction) (t : Store) :
  fits_int64 (amount_cents tx) = true ->
  is_duplicate tx t =
    Ok (0 <? count_matching (kind tx) (date_iso tx) (amount_cents tx)
                            (category tx) (ifnull (description tx)) t).
Proof.
  intros H. unfold is_duplicate, bind_int. rewrite H. reflexivity.
Qed.

(** C6. On a table whose amounts are SQLite integers, [is_duplicate]
    returns true exactly when some row of the table has the kind, the
    date, the amount, the category and the description of the transaction,
    a description that is NULL or absent counting as the empty text.  It
    returns a truth value for every transaction whose amount is a 64-bit
    integer (the binding of another raises OverflowError).  The account,
    the payment method and the tags of the transaction do not enter the
    answer. *)
Theorem is_duplicate_iff (tx : Transaction) (t : Store) :
  (Forall (fun r => fits_int64 (row_amount_cents r) = true) (rows t) ->
   (is_duplicate tx t = Ok true
    <-> exists r, In r (rows t) /\ same_tuple tx r))
  /\ (fits_int64 (amount_cents tx) = true ->
      exists b, is_duplicate tx t = Ok b
                /\ (b = true <-> exists r, In r (rows t) /\ same_tuple tx r))
  /\ (fits_int64 (amount_cents tx) = false ->
      is_duplicate tx t = Err IntTooLargeForSqlite)
  /\ forall acc pm tg,
       is_duplicate {| kind := kind tx; date_iso := date_iso tx;
                       amount_cents := amount_cents tx;
                       category := category tx;
                       description := description tx;
                       account := acc; payment_method := pm; tags := tg |} t
       = is_duplicate tx t.
Proof.
  assert (V : fits_int64 (amount_cents tx) = true ->
              forall b, is_duplicate tx t = Ok b ->
              (b = true <-> exists r, In r (rows t) /\ same_tuple tx r)).
  { intros H b. rewrite (is_duplicate_value _ _ H). intros [= <-].
    unfold count_matching. rewrite count_positive_iff.
    split; intros (r & Hin & Hr); exists r; split; auto;
      apply matches_same_tuple; exact Hr. }
  assert (E : fits_int64 (amount_cents tx) = false ->
              is_duplicate tx t = Err IntTooLargeForSqlite).
  { intros H. unfold is_duplicate, bind_int. rewrite H. reflexivity. }
  split; [|split; [|split]].
  - intros S. destruct (fits_int64 (amount_cents tx)) eqn:H.
    + split.
      * intros D. apply (V eq_refl true D). reflexivity.
      * intros R. rewrite (is_duplicate_value _ _ H) in *. f_equal.
        apply (V eq_refl _ eq_refl). exact R.
    + rewrite (E eq_refl). split; [discriminate|].
      intros (r & Hin & _ & _ & A & _).
      rewrite Forall_forall in S. specialize (S r Hin).
      rewrite A in S. congruence.
  - intros H. eexists. split; [apply is_duplicate_value; exact H|].
    apply (V H). apply is_duplicate_value. exact H.
  - exact E.
  - intros acc pm tg. reflexivity.
Qed.

Definition sample_tx : Transaction :=
  {| kind := expense; date_iso := lit "2024-03-05"; amount_cents := 1250;
     category := lit "Lazer"; description := None;
     account := lit "principal"; payment_method := lit "pix";
     tags := None |}.

Definition sample_table : Store :=
  {| rows := [new_row 1 {| kind := expense; date_iso := lit "2024-03-05";
                           amount_cents := 1250; category := lit "Lazer";
                           description := Some []; account := lit "casa";
                           payment_method := lit "boleto";
                           tags := Some (lit "a,b") |}
                        (lit "2024-03-05T07:08:09Z")];
     sequence := 1 |}.

(** A table of four rows on three days, two of them on the latest day. *)
Definition sample_entry (k : ExpenseOrIncome) (date : string) (cents : Z)
    (cat : string) : Transaction :=
  {| kind := k; date_iso := lit date; amount_cents := cents;
     category := lit cat; description := Some [];
     account := lit "principal"; payment_method := lit "pix";
     tags := None |}.

Definition sample_ledger : Store :=
  {| rows := [new_row 1 (sample_entry expense "2024-03-01" 1250 "Lazer")
                (lit "2024-03-01T10:00:00Z");
              new_row 2 (sample_entry income "2024-03-05" 300000 "Salário")
                (lit "2024-03-05T09:30:00Z");
              new_row 3 (sample_entry expense "2024-02-10" 990 "Transporte")
                (lit "2024-03-06T18:45:10Z");
              new_row 4 (sample_entry expense "2024-03-05" 4500 "Alimentação")
                (lit "2024-03-07T08:00:00Z")];
     sequence := 4 |}.

(** A transaction without a description against a row that holds the empty
    text, another account, another method and tags: a duplicate. *)
Lemma is_duplicate_iff_sample :
  is_duplicate sample_tx sample_table = Ok true.
Proof.
  apply (proj1 (is_duplicate_iff sample_tx sample_table)).
  - repeat constructor.
  - eexists. split; [left; reflexivity|].
    repeat split.
Defined.

(** ** The writer *)

Lemma max_id_bound (rs : list Row) (r : Row) :
  In r rs -> exists m, max_id rs = Some m /\ row_id r <= m.
Proof.
  induction rs as [|x rs IH]; simpl; [contradiction|].
  intros [-> | H].
  - destruct (max_id rs) as [m|]; eexists; (split; [reflexivity | lia]).
  - destruct (IH H) as (m & -> & L). eexists. split; [reflexivity | lia].
Qed.


(** The id AUTOINCREMENT gives is above every id of the table, and above
    the counter. *)
Lemma next_id_fresh (t : Store) (r : Row) : In r (rows t) -> row_id r < fresh_id t.
Proof.
  intros H. apply max_id_bound in H. destruct H as (m & E & L).
  unfold fresh_id. rewrite E. lia.
Qed.

Lemma fresh_id_counter (t : Store) : sequence t < fresh_id t.
Proof. unfold fresh_id. lia. Qed.

Lemma next_id_cases (t : Store) :
  next_id t = Err OperationalError
  \/ (next_id t = Ok (fresh_id t) /\ fresh_id t <= MAX_ROWID).
Proof.
  unfold next_id, fresh_id.
  destruct (max_id (rows t)) as [m|]; cbn [orb].
  - destruct (Z.leb_spec MAX_ROWID m); cbn [orb]; [left; reflexivity|].
    destruct (Z.leb_spec MAX_ROWID (sequence t)); [left; reflexivity|].
    right. split; [reflexivity | lia].
  - destruct (Z.leb_spec MAX_ROWID (sequence t)); [left; reflexivity|].
    right. split; [reflexivity | unfold MAX_ROWID in *; lia].
Qed.


Lemma fits_int64_range (n : Z) : fits_int64 n = true <-> - 2 ^ 63 <= n < 2 ^ 63.
Proof.
  unfold fits_int64. rewrite andb_true_iff, Z.leb_le, Z.ltb_lt. tauto.
Qed.

(** The table after the INSERT of [tx], stamped [now]. *)
Definition inserted (tx : Transaction) (now : str) (t : Store) : Store :=
  {| rows := rows t ++ [new_row (fresh_id t) tx now];
     sequence := fresh_id t |}.

Lemma insert_cases (tx : Transaction) (now : str) (t : Store) :
  insert tx now t =
    if fits_int64 (amount_cents tx)
    then match next_id t with
         | Err e => Err OperationalError
         | Ok id => if 0 <? amount_cents tx
                    then Ok (fresh_id t, inserted tx now t)
                    else Err IntegrityError
         end
    else Err IntTooLargeForSqlite.
Proof.
  unfold insert, bind_int.
  destruct (fits_int64 (amount_cents tx)); [|reflexivity]. cbn [rbind].
  destruct (next_id_cases t) as [E|[E _]]; rewrite E; reflexivity.
Qed.


(** The world after [tx] is written: only the table has changed. *)
Definition written (utcnow : datetime) (tx : Transaction) (w : World) : World :=
  {| db := inserted tx (isoformat_seconds utcnow ++ lit "Z") (db w);
     stdout := stdout w |}.

Lemma save_transaction_cases (utcnow : datetime) (tx : Transaction)
    (allow : bool) (w : World) :
  (exists e, save_transaction utcnow tx allow w = (Err e, w))
  \/ (save_transaction utcnow tx allow w
        = (Ok (fresh_id (db w)), written utcnow tx w)
      /\ 0 < amount_cents tx < 2 ^ 63).
Proof.
  unfold save_transaction, bind, query, execute, ret, raise.
  assert (I : (exists e, (match insert tx (isoformat_seconds utcnow ++ lit "Z")
                                  (db w) with
                          | Ok (a, t) => (Ok a, {| db := t; stdout := stdout w |})
                          | Err e => (Err e, w)
                          end) = (Err e, w))
              \/ ((match insert tx (isoformat_seconds utcnow ++ lit "Z")
                                  (db w) with
                   | Ok (a, t) => (Ok a, {| db := t; stdout := stdout w |})
                   | Err e => (Err e, w)
                   end) = (Ok (fresh_id (db w)), written utcnow tx w)
                  /\ 0 < amount_cents tx < 2 ^ 63)).
  { rewrite insert_cases.
    destruct (fits_int64 (amount_cents tx)) eqn:F; [|left; eexists; reflexivity].
    destruct (next_id (db w)) as [id|e]; [|left; eexists; reflexivity].
    destruct (0 <? amount_cents tx) eqn:P; [|left; eexists; reflexivity].
    right. split; [reflexivity|].
    apply fits_int64_range in F. apply Z.ltb_lt in P. lia. }
  destruct allow; simpl; [exact I|].
  destruct (is_duplicate tx (db w)) as [[|]|e]; simpl.
  - left; eexists; reflexivity.
  - exact I.
  - left; eexists; reflexivity.
Qed.

(** The id [save_transaction] returns is the one AUTOINCREMENT gave. *)
Lemma save_transaction_id (utcnow : datetime) (tx : Transaction)
    (allow : bool) (w w' : World) (id : Z) :
  save_transaction utcnow tx allow w = (Ok id, w') -> next_id (db w) = Ok id.
Proof.
  assert (I : forall now,
            execute (insert tx now) w = (Ok id, w') -> next_id (db w) = Ok id).
  { intros now. unfold execute. rewrite insert_cases.
    destruct (fits_int64 (amount_cents tx)); [|discriminate].
    destruct (next_id_cases (db w)) as [E|[E _]]; rewrite E; [discriminate|].
    destruct (0 <? amount_cents tx); [|discriminate].
    intros [= <- _]. reflexivity. }
  unfold save_transaction, bind, query, ret, raise.
  destruct allow; simpl; [apply I|].
  destruct (is_duplicate tx (db w)) as [[|]|e]; simpl;
    [discriminate | apply I | discriminate].
Qed.






(** ** The facade *)

(** The world after some lines are printed. *)
Definition printed (w : World) (lines : list str) : World :=
  {| db := db w; stdout := stdout w ++ lines |}.

Lemma printed_nil (w : World) : printed w [] = w.
Proof. destruct w; unfold printed; simpl. rewrite app_nil_r. reflexivity. Qed.

Lemma printed_app (w : World) (a b : list str) :
  printed (printed w a) b = printed w (a ++ b).
Proof. unfold printed; simpl. rewrite app_assoc. reflexivity. Qed.

Lemma print_all_run (lines : list str) (w : World) :
  print_all lines w = (Ok tt, printed w lines).
Proof.
  revert w; induction lines as [|l ls IH]; intros w; simpl.
  - rewrite printed_nil. reflexivity.
  - unfold bind, print. rewrite IH. unfold printed; simpl.
    rewrite <- app_assoc. reflexivity.
Qed.

Section ApiFacts.
Context {U : Unicode}.

(** The transaction the facade assembles from what it was given. *)
Definition assembled (k : ExpenseOrIncome) (date_iso : str) (cents : Z)
    (category description account payment_method : str) (tags : option str)
  : Transaction :=
  {| kind := k;
     date_iso := date_iso;
     amount_cents := cents;
     category := fst (validate_category k category);
     description := Some (strip description);
     account := or_else (strip account) (lit "principal");
     payment_method := fst (validate_payment_method payment_method);
     tags := tags |}.

(** The notices the two validators print. *)
Definition notices (k : ExpenseOrIncome) (category payment_method : str)
  : list str :=
  snd (validate_category k category)
  ++ snd (validate_payment_method payment_method).

(** The facade, step by step. *)
Lemma add_run (k : ExpenseOrIncome) (utcnow : datetime)
    (d a c desc acc pm : str) (tg : option str) (allow : bool) (w : World) :
  add k utcnow d a c desc acc pm tg allow w =
    match normalize_date_to_iso d with
    | Err e => (Err e, w)
    | Ok date_iso =>
        match parse_amount_to_cents a with
        | Err e => (Err e, w)
        | Ok cents =>
            save_transaction utcnow
              (assembled k date_iso cents c desc acc pm tg) allow
              (printed w (notices k c pm))
        end
    end.
Proof.
  unfold add, bind, lift.
  destruct (normalize_date_to_iso d) as [date_iso|e]; [|reflexivity].
  destruct (parse_amount_to_cents a) as [cents|e]; [|reflexivity].
  unfold assembled, notices.
  destruct (validate_category k c) as [cat n1].
  destruct (validate_payment_method pm) as [method n2]. simpl.
  rewrite !print_all_run, printed_app. reflexivity.
Qed.







(** C7. [add_expense] and [add_income] return what the first failing step
    raised, the steps being the date, then the amount, then the write, the
    two validators in between raising nothing; when all succeed they return
    the new id.  Whatever is raised, the table is left as it was. *)
Theorem add_pipeline_order (k : ExpenseOrIncome) (utcnow : datetime)
    (d a c desc acc pm : str) (tg : option str) (allow : bool) (w : World) :
  let run := match k with
             | expense => add_expense utcnow d a c desc acc pm tg allow w
             | income => add_income utcnow d a c desc acc pm tg allow w
             end in
  (forall e, normalize_date_to_iso d = Err e -> run = (Err e, w))
  /\ (forall date_iso e,
        normalize_date_to_iso d = Ok date_iso ->
        parse_amount_to_cents a = Err e -> run = (Err e, w))
  /\ (forall date_iso cents,
        normalize_date_to_iso d = Ok date_iso ->
        parse_amount_to_cents a = Ok cents ->
        run = save_transaction utcnow
                (assembled k date_iso cents c desc acc pm tg) allow
                (printed w (notices k c pm)))
  /\ (forall e, fst run = Err e -> db (snd run) = db w)
  /\ (forall id, fst run = Ok id ->
        next_id (db w) = Ok id
        /\ exists date_iso cents,
             normalize_date_to_iso d = Ok date_iso
             /\ parse_amount_to_cents a = Ok cents
             /\ snd run = written utcnow
                            (assembled k date_iso cents c desc acc pm tg)
                            (printed w (notices k c pm))).
Proof.
  assert (E : match k with
              | expense => add_expense utcnow d a c desc acc pm tg allow w
              | income => add_income utcnow d a c desc acc pm tg allow w
              end = add k utcnow d a c desc acc pm tg allow w)
    by (destruct k; reflexivity).
  intros run. subst run. rewrite E, add_run. clear E.
  split; [|split; [|split; [|split]]].
  - intros e ->. reflexivity.
  - intros date_iso e -> ->. reflexivity.
  - intros date_iso cents -> ->. reflexivity.
  - intros e.
    destruct (normalize_date_to_iso d) as [date_iso|e1]; [|reflexivity].
    destruct (parse_amount_to_cents a) as [cents|e1]; [|reflexivity].
    destruct (save_transaction_cases utcnow
                (assembled k date_iso cents c desc acc pm tg) allow
                (printed w (notices k c pm))) as [[e1 He]|[He _]];
      rewrite He; simpl; [reflexivity | discriminate].
  - intros id.
    destruct (normalize_date_to_iso d) as [date_iso|e1]; [|discriminate].
    destruct (parse_amount_to_cents a) as [cents|e1]; [|discriminate].
    destruct (save_transaction_cases utcnow
                (assembled k date_iso cents c desc acc pm tg) allow
                (printed w (notices k c pm))) as [[e1 He]|[He _]];
      rewrite He; simpl; [discriminate|].
    intros [= <-]. split.
    + apply (save_transaction_id _ _ _ _ _ _ He).
    + exists date_iso, cents. repeat split.
Qed.

End ApiFacts.

Definition sample_clock : datetime :=
  {| year := 2024; month := 3; day := 5;
     hour := 7; minute := 8; second := 9; microsecond := 123456 |}.

Definition blank_world : World := {| db := init_db None; stdout := [] |}.



(** The theorem on the facade, at a date that is none: the amount, which
    is none either, is not looked at. *)
Lemma add_pipeline_order_bad_date :
  @add_expense basic_latin sample_clock (lit "31/02/2024") (lit "abc")
    (lit "Lazer") (lit "") (lit "") (lit "pix") None false blank_world
  = (Err InvalidDate, blank_world).
Proof.
  apply (proj1 (@add_pipeline_order basic_latin expense sample_clock
                  (lit "31/02/2024") (lit "abc") (lit "Lazer") (lit "")
                  (lit "") (lit "pix") None false blank_world)).
  reflexivity.
Defined.

(** ** The listing *)

Lemma str_compare_eq (a b : str) : str_compare a b = Eq <-> a = b.
Proof.
  revert b; induction a as [|x a IH]; intros [|y b]; simpl;
    try (split; [discriminate | congruence]); [tauto|].
  destruct (N.compare_spec x y) as [->|H|H].
  - rewrite IH. split; congruence.
  - split; [discriminate | intros [= -> _]; lia].
  - split; [discriminate | intros [= -> _]; lia].
Qed.

Lemma str_compare_antisym (a b : str) :
  str_compare b a = CompOpp (str_compare a b).
Proof.
  revert b; induction a as [|x a IH]; intros [|y b]; simpl; try reflexivity.
  rewrite (N.compare_antisym x y).
  destruct (x ?= y)%N; simpl; auto.
Qed.

Lemma str_compare_gt_trans (a b c : str) :
  str_compare a b = Gt -> str_compare b c = Gt -> str_compare a c = Gt.
Proof.
  revert b c; induction a as [|x a IH]; intros [|y b] [|z c]; simpl;
    try discriminate; try reflexivity.
  destruct (N.compare_spec x y) as [->|H|H]; try discriminate.
  - destruct (N.compare_spec y z) as [->|H'|H']; try discriminate.
    + apply IH.
    + reflexivity.
  - intros _. destruct (N.compare_spec y z) as [->|H'|H']; try discriminate.
    + intros _. destruct (N.compare_spec x z); try lia; reflexivity.
    + intros _. destruct (N.compare_spec x z); try lia; reflexivity.
Qed.

(** [a] comes before [b] in the listing: a later date, or the same date
    and an id that is not smaller. *)
Definition row_before (a b : Row) : Prop :=
  str_compare (row_date a) (row_date b) = Gt
  \/ (row_date a = row_date b /\ row_id b <= row_id a).

Definition listed_before (a b : Listed) : Prop :=
  str_compare (l_date a) (l_date b) = Gt
  \/ (l_date a = l_date b /\ l_id b <= l_id a).

Lemma newer_first_before (a b : Row) :
  newer_first a b = true <-> row_before a b.
Proof.
  unfold newer_first, row_before.
  destruct (str_compare (row_date a) (row_date b)) eqn:E.
  - apply str_compare_eq in E. rewrite Z.leb_le. split.
    + intros H. right. auto.
    + intros [H|[_ H]]; [discriminate | exact H].
  - split; [discriminate|]. intros [H|[H _]]; [discriminate|].
    apply str_compare_eq in H. congruence.
  - split; auto.
Qed.

Lemma row_before_total (a b : Row) :
  newer_first a b = false -> row_before b a.
Proof.
  unfold newer_first, row_before.
  rewrite (str_compare_antisym (row_date a) (row_date b)).
  destruct (str_compare (row_date a) (row_date b)) eqn:E; simpl.
  - apply str_compare_eq in E. rewrite Z.leb_gt. intros H.
    right. split; [congruence | lia].
  - intros _. left. reflexivity.
  - discriminate.
Qed.

Lemma row_before_trans (a b c : Row) :
  row_before a b -> row_before b c -> row_before a c.
Proof.
  unfold row_before. intros [H1|[E1 L1]] [H2|[E2 L2]].
  - left. eapply str_compare_gt_trans; eauto.
  - left. rewrite <- E2. exact H1.
  - left. rewrite E1. exact H2.
  - right. split; [congruence | lia].
Qed.

Lemma insert_sorted_perm (r : Row) (rs : list Row) :
  Permutation (r :: rs) (insert_sorted r rs).
Proof.
  induction rs as [|x rs IH]; simpl; [reflexivity|].
  destruct (newer_first r x); [reflexivity|].
  rewrite perm_swap. apply perm_skip. exact IH.
Qed.

Lemma order_by_perm (rs : list Row) :
  Permutation rs (order_by_date_id_desc rs).
Proof.
  induction rs as [|r rs IH]; simpl; [reflexivity|].
  rewrite <- insert_sorted_perm. apply perm_skip. exact IH.
Qed.

Lemma insert_sorted_sorted (r : Row) (rs : list Row) :
  StronglySorted row_before rs ->
  StronglySorted row_before (insert_sorted r rs).
Proof.
  induction 1 as [|x rs S IH F]; simpl.
  - repeat constructor.
  - destruct (newer_first r x) eqn:E.
    + apply newer_first_before in E.
      constructor; [constructor; assumption|].
      constructor; [exact E|].
      eapply Forall_impl; [|exact F].
      intros y Hy. eapply row_before_trans; eauto.
    + apply row_before_total in E.
      constructor; [exact IH|].
      apply (Permutation_Forall (insert_sorted_perm r rs)).
      constructor; assumption.
Qed.

Lemma order_by_sorted (rs : list Row) :
  StronglySorted row_before (order_by_date_id_desc rs).
Proof.
  induction rs as [|r rs IH]; simpl; [constructor|].
  apply insert_sorted_sorted. exact IH.
Qed.

Lemma in_firstn {A} (n : nat) (xs : list A) (x : A) :
  In x (firstn n xs) -> In x xs.
Proof.
  revert n; induction xs as [|y xs IH]; intros [|n]; simpl; try tauto.
  intros [H|H]; [left; exact H | right; eapply IH; exact H].
Qed.

Lemma strongly_sorted_firstn {A} (R : A -> A -> Prop) (n : nat) (xs : list A) :
  StronglySorted R xs -> StronglySorted R (firstn n xs).
Proof.
  intros S; revert n; induction S as [|x xs S IH F]; intros [|n]; simpl;
    try constructor.
  - apply IH.
  - rewrite Forall_forall in *. intros y Hy. apply F.
    eapply in_firstn. exact Hy.
Qed.

Lemma strongly_sorted_map {A B} (R : A -> A -> Prop) (Q : B -> B -> Prop)
    (f : A -> B) (xs : list A) :
  (forall a b, R a b -> Q (f a) (f b)) ->
  StronglySorted R xs -> StronglySorted Q (map f xs).
Proof.
  intros H; induction 1 as [|x xs S IH F]; simpl; constructor; auto.
  rewrite Forall_forall in *. intros y Hy.
  apply in_map_iff in Hy as (a & <- & Ha). auto.
Qed.

Lemma print_listed_db (rs : list Listed) (w : World) :
  db (snd (print_listed rs w)) = db w.
Proof.
  revert w; induction rs as [|r rs IH]; intros w; simpl; [reflexivity|].
  unfold bind, lift. destruct (listed_line r); [|reflexivity].
  simpl. rewrite IH. reflexivity.
Qed.

(** Listing writes nothing. *)
Lemma list_last_db (n : Z) (w : World) : db (snd (list_last n w)) = db w.
Proof.
  unfold list_last, bind, query.
  destruct (select_last n (db w)) as [rs|e]; [|reflexivity]. simpl.
  pose proof (print_listed_db rs
    {| db := db w; stdout := stdout w ++ [10%N :: lit "Últimas transações:"] |})
    as P.
  destruct (print_listed rs _) as [[u|e] w']; simpl in *.
  - destruct rs; simpl; exact P.
  - exact P.
Qed.

(** C9, as the program has it.  The rows of the table, put in the order
    of the later date first and, on the same date, the larger id first,
    are what [list_last] fetches from: for a limit [n] that is a count it
    fetches the first [n] of them, or all of them when they are fewer; for
    a negative [n] it fetches them all; for an [n] beyond 64 bits it raises
    the OverflowError of the binding and prints nothing.  It writes
    nothing, so a second call on the world the first one left fetches the
    same sequence. *)
Theorem list_last_recent (n : Z) (t : Store) :
  exists sorted,
    Permutation (rows t) sorted
    /\ StronglySorted row_before sorted
    /\ (0 <= n < 2 ^ 63 ->
        select_last n t = Ok (map selected (firstn (Z.to_nat n) sorted))
        /\ length (firstn (Z.to_nat n) sorted)
           = Nat.min (Z.to_nat n) (length (rows t)))
    /\ (- 2 ^ 63 <= n < 0 -> select_last n t = Ok (map selected sorted))
    /\ (~ - 2 ^ 63 <= n < 2 ^ 63 ->
        select_last n t = Err IntTooLargeForSqlite
        /\ forall w, list_last n w = (Err IntTooLargeForSqlite, w))
    /\ (forall rs, select_last n t = Ok rs ->
          StronglySorted listed_before rs
          /\ forall l, In l rs -> exists r, In r (rows t) /\ l = selected r)
    /\ (forall w, db w = t ->
          db (snd (list_last n w)) = t
          /\ select_last n (db (snd (list_last n w))) = select_last n t).
Proof.
  exists (order_by_date_id_desc (rows t)).
  pose proof (order_by_perm (rows t)) as P.
  pose proof (order_by_sorted (rows t)) as S.
  split; [exact P|]. split; [exact S|].
  unfold select_last, bind_int.
  split; [|split; [|split; [|split]]].
  - intros H.
    replace (fits_int64 n) with true
      by (symmetry; apply fits_int64_range; lia).
    unfold limit, rbind.
    replace (n <? 0) with false by (symmetry; apply Z.ltb_ge; lia).
    split; [reflexivity|].
    rewrite length_firstn, (Permutation_length P). reflexivity.
  - intros H.
    replace (fits_int64 n) with true
      by (symmetry; apply fits_int64_range; lia).
    unfold limit, rbind.
    replace (n <? 0) with true by (symmetry; apply Z.ltb_lt; lia).
    reflexivity.
  - intros H.
    assert (F : fits_int64 n = false).
    { destruct (fits_int64 n) eqn:F; [|reflexivity].
      apply fits_int64_range in F. contradiction. }
    rewrite F. split; [reflexivity|].
    intros w. unfold list_last, bind, query, select_last, bind_int.
    rewrite F. reflexivity.
  - intros rs. destruct (fits_int64 n); [|discriminate].
    intros [= <-]. split.
    + apply strongly_sorted_map with (R := row_before); [auto|].
      unfold limit. destruct (n <? 0); [exact S|].
      apply strongly_sorted_firstn. exact S.
    + intros l Hl. apply in_map_iff in Hl as (r & <- & Hr).
      exists r. split; [|reflexivity].
      assert (I : In r (order_by_date_id_desc (rows t))).
      { unfold limit in Hr. destruct (n <? 0); [exact Hr|].
        eapply in_firstn. exact Hr. }
      eapply Permutation_in; [symmetry; exact P | exact I].
  - intros w <-. rewrite list_last_db. split; reflexivity.
Qed.

(** The theorem at a limit of 2 and a table of four rows. *)
Lemma list_last_recent_sample :
  exists sorted,
    Permutation (rows sample_ledger) sorted
    /\ StronglySorted row_before sorted
    /\ select_last 2 sample_ledger = Ok (map selected (firstn 2 sorted))
    /\ length (firstn 2 sorted) = 2%nat.
Proof.
  destruct (list_last_recent 2 sample_ledger) as (sorted & P & S & H & _).
  exists sorted. split; [exact P|]. split; [exact S|].
  apply H. split; [discriminate | reflexivity].
Defined.

(** C9, as the specification words it: for every [n].  With the limit -1
    the four rows of the table are fetched, which is more than -1 of them;
    with the limit 2^63 none is, and the call raises. *)
Lemma list_last_negative_limit :
  (exists rs,
     select_last (- 1) sample_ledger = Ok rs
     /\ map l_id rs = [4; 2; 1; 3]
     /\ - 1 < Z.of_nat (length rs))
  /\ list_last (2 ^ 63) {| db := sample_ledger; stdout := [] |}
     = (Err IntTooLargeForSqlite, {| db := sample_ledger; stdout := [] |}).
Proof.
  split; [|reflexivity].
  eexists. split; [reflexivity|]. split; reflexivity.
Qed.

(** ** Dates *)




Lemma format_four_digits (y : Z) :
  0 <= y < 10000 ->
  format_0d 4 y = [digit_char (y / 1000); digit_char (y / 100 mod 10);
                   digit_char (y / 10 mod 10); digit_char (y mod 10)].
Proof.
  intros H. unfold format_0d.
  replace (y <? 0) with false by (symmetry; apply Z.ltb_ge; lia).
  destruct (Z.lt_ge_cases y 10) as [A|A].
  { rewrite digits_small by lia. 
    replace (y / 1000) with 0 by (symmetry; apply Z.div_small; lia).
    replace (y / 100) with 0 by (symmetry; apply Z.div_small; lia).
    replace (y / 10) with 0 by (symmetry; apply Z.div_small; lia).
    rewrite (Z.mod_small y 10) by lia. reflexivity. }
  rewrite (digits_step y) by lia.
  assert (Q1 : 1 <= y / 10 < 1000)
    by (split; [apply Z.div_le_lower_bound | apply Z.div_lt_upper_bound]; lia).
  destruct (Z.lt_ge_cases (y / 10) 10) as [B|B].
  { rewrite digits_small by lia.
    replace (y / 1000) with 0
      by (symmetry; apply Z.div_small; split; [lia|];
          apply (Z.lt_le_trans _ 100); [|lia];
          apply Z.nle_gt; intros C;
          assert (10 <= y / 10) by (apply Z.div_le_lower_bound; lia); lia).
    replace (y / 100) with 0
      by (symmetry; apply Z.div_small; split; [lia|];
          apply Z.nle_gt; intros C;
          assert (10 <= y / 10) by (apply Z.div_le_lower_bound; lia); lia).
    rewrite (Z.mod_small (y / 10) 10) by lia. reflexivity. }
  rewrite (digits_step (y / 10)) by lia.
  rewrite Z.div_div by lia. change (10 * 10) with 100.
  assert (Q2 : 1 <= y / 100 < 100).
  { split; [apply Z.div_le_lower_bound | apply Z.div_lt_upper_bound]; try lia.
    apply Z.nlt_ge. intros C.
    assert (y / 10 < 10) by (apply Z.div_lt_upper_bound; lia). lia. }
  destruct (Z.lt_ge_cases (y / 100) 10) as [C|C].
  { rewrite digits_small by lia.
    replace (y / 1000) with 0.
    - rewrite (Z.mod_small (y / 100) 10) by lia. reflexivity.
    - symmetry. apply Z.div_small. split; [lia|].
      apply Z.nle_gt. intros D.
      assert (10 <= y / 100) by (apply Z.div_le_lower_bound; lia). lia. }
  rewrite (digits_step (y / 100)) by lia.
  rewrite Z.div_div by lia. change (100 * 10) with 1000.
  rewrite digits_small.
  - reflexivity.
  - split; [apply Z.div_pos; lia | apply Z.div_lt_upper_bound; lia].
Qed.


Section DateFacts.
Context {U : Unicode}.

(** A year is written with four decimal digits. *)
Definition year_text (Y : str) (y : Z) : Prop :=
  exists a b c d va vb vc vd,
    Y = [a; b; c; d]
    /\ to_decimal a = Some va /\ to_decimal b = Some vb
    /\ to_decimal c = Some vc /\ to_decimal d = Some vd
    /\ y = ((va * 10 + vb) * 10 + vc) * 10 + vd.

(** A month is written with one or two digits: 3 or 03, and 12. *)
Definition month_text (M : str) (m : Z) : Prop :=
  1 <= m <= 12 /\ (M = digits m \/ M = format_0d 2 m).

(** A day is written with one or two digits, a one-digit day may follow a
    space, and the second digit of a day from 10 to 29 may be any decimal
    digit of Unicode. *)
Definition day_text (D : str) (d : Z) : Prop :=
  1 <= d <= 31
  /\ (D = digits d \/ D = format_0d 2 d
      \/ (d <= 9 /\ D = ch " " :: digits d)
      \/ (10 <= d <= 29
          /\ exists b, D = [digit_char (d / 10); b]
                       /\ to_decimal b = Some (d mod 10))).




Lemma to_decimal_of_ascii (c : char) :
  (c < 128)%N -> to_decimal c = ascii_digit c.
Proof. apply to_decimal_ascii. Qed.










(** No decimal digit follows. *)
Definition no_digit_ahead (rest : str) : Prop :=
  match rest with
  | [] => True
  | x :: _ => to_decimal x = None
  end.

Lemma range_none (lo hi : ascii) (x : char) :
  to_decimal x = None -> (48 <= ch lo)%N -> (ch hi <= 57)%N ->
  range lo hi x = None.
Proof.
  intros H L R. unfold range.
  destruct ((ch lo <=? x) && (x <=? ch hi))%N eqn:E; [|reflexivity].
  apply andb_true_iff in E as [A B].
  apply N.leb_le in A. apply N.leb_le in B.
  rewrite to_decimal_ascii in H by lia. unfold ascii_digit in H.
  replace ((48 <=? x) && (x <=? 57))%N with true in H; [discriminate|].
  symmetry. apply andb_true_iff. split; apply N.leb_le; lia.
Qed.

Lemma re_Y_complete {A} (k : Z -> str -> option A) Y y rest :
  year_text Y y -> re_Y k (Y ++ rest) = k y rest.
Proof.
  intros (a & b & c & d & va & vb & vc & vd & -> & Ha & Hb & Hc & Hd & ->).
  unfold re_Y, four, any_digit. simpl. rewrite Ha, Hb, Hc, Hd. reflexivity.
Qed.

Ltac ahead rest H :=
  destruct rest as [|? ?]; simpl in H;
  [| pose proof (range_none "0" "2" _ H ltac:(vm_compute; discriminate) ltac:(vm_compute; discriminate));
     pose proof (range_none "0" "1" _ H ltac:(vm_compute; discriminate) ltac:(vm_compute; discriminate));
     pose proof (range_none "1" "9" _ H ltac:(vm_compute; discriminate) ltac:(vm_compute; discriminate)) ].

Ltac run_pattern :=
  cbn -[range to_decimal];
  repeat match goal with
  | H : range _ _ ?x = None |- context [range _ _ ?x] => rewrite H
  | H : to_decimal ?x = _ |- context [to_decimal ?x] => rewrite H
  | |- context [to_decimal ?c] => rewrite (to_decimal_of_ascii c) by reflexivity
  end;
  cbn.

Lemma re_m_complete {A} (k : Z -> str -> option A) M m rest r :
  month_text M m -> no_digit_ahead rest -> k m rest = Some r ->
  re_m k (M ++ rest) = Some r.
Proof.
  intros [R E] N K.
  assert (C : In m (map Z.of_nat (seq 1 12))).
  { apply in_map_iff. exists (Z.to_nat m). split; [lia|]. apply in_seq. lia. }
  simpl in C.
  unfold re_m, alt, two, one.
  repeat (destruct C as [C|C]; [subst m; destruct E as [E|E];
    vm_compute in E; subst M;
    (ahead rest N; run_pattern; rewrite K; reflexivity)|]).
  contradiction.
Qed.

Lemma re_d_complete {A} (k : Z -> str -> option A) D d rest r :
  day_text D d -> no_digit_ahead rest -> k d rest = Some r ->
  re_d k (D ++ rest) = Some r.
Proof.
  intros [R E] N K.
  unfold re_d, alt, two, one, any_digit.
  destruct E as [E|[E|[[L E]|[L (b & E & Hb)]]]].
  - assert (C : In d (map Z.of_nat (seq 1 31))).
    { apply in_map_iff. exists (Z.to_nat d). split; [lia|]. apply in_seq. lia. }
    simpl in C.
    repeat (destruct C as [C|C]; [subst d; vm_compute in E; subst D;
      (ahead rest N; run_pattern; rewrite K; reflexivity)|]).
    contradiction.
  - assert (C : In d (map Z.of_nat (seq 1 31))).
    { apply in_map_iff. exists (Z.to_nat d). split; [lia|]. apply in_seq. lia. }
    simpl in C.
    repeat (destruct C as [C|C]; [subst d; vm_compute in E; subst D;
      (ahead rest N; run_pattern; rewrite K; reflexivity)|]).
    contradiction.
  - assert (C : In d (map Z.of_nat (seq 1 9))).
    { apply in_map_iff. exists (Z.to_nat d). split; [lia|]. apply in_seq. lia. }
    simpl in C.
    repeat (destruct C as [C|C]; [subst d; vm_compute in E; subst D;
      (ahead rest N; run_pattern; rewrite K; reflexivity)|]).
    contradiction.
  - assert (C : In d (map Z.of_nat (seq 10 20))).
    { apply in_map_iff. exists (Z.to_nat d). split; [lia|]. apply in_seq. lia. }
    simpl in C.
    repeat (destruct C as [C|C]; [subst d; vm_compute in E; subst D;
      (ahead rest N; run_pattern; rewrite K; reflexivity)|]).
    contradiction.
Qed.


Lemma to_decimal_hyphen : to_decimal 45%N = None.
Proof. rewrite to_decimal_ascii; reflexivity. Qed.


Lemma match_ymd_complete (Y M D : str) (y m d : Z) :
  year_text Y y -> month_text M m -> day_text D d ->
  match_ymd (Y ++ lit "-" ++ M ++ lit "-" ++ D) = Some (y, m, d, []).
Proof.
  intros HY HM HD. unfold match_ymd.
  rewrite (re_Y_complete _ Y y _ HY).
  change (lit "-") with [ch "-"]. simpl.
  apply re_m_complete with (m := m);
    [exact HM | exact to_decimal_hyphen |]. simpl.
  rewrite <- (app_nil_r D).
  apply re_d_complete with (d := d); [exact HD | exact I | reflexivity].
Qed.





Lemma strptime_date_some (fmt : str -> option (Z * Z * Z * str)) (t : str)
    (y m d : Z) :
  strptime_date fmt t = Some (y, m, d)
  <-> fmt t = Some (y, m, d, []) /\ valid_date y m d = true.
Proof.
  unfold strptime_date.
  destruct (fmt t) as [[[[y' m'] d'] [|x rest]]|].
  - destruct (valid_date y' m' d') eqn:V.
    + split; [intros [= <- <- <-]; auto | intros [[= <- <- <-] _]; auto].
    + split; [discriminate | intros [[= <- <- <-] V']; congruence].
  - split; [discriminate | intros [[=] _]].
  - split; [discriminate | intros [[=] _]].
Qed.



End DateFacts.



(** ** Amounts *)

Lemma replace_char_remove (c : char) (s : str) :
  replace [c] [] s = filter (fun x => negb (x =? c)%N) s.
Proof.
  unfold replace. induction s as [|x t IH]; simpl; [reflexivity|].
  rewrite (N.eqb_sym x c).
  destruct (c =? x)%N; simpl; [exact IH | f_equal; exact IH].
Qed.

Lemma replace_char_map (c d : char) (s : str) :
  replace [c] [d] s = map (fun x => if (x =? c)%N then d else x) s.
Proof.
  unfold replace. induction s as [|x t IH]; simpl; [reflexivity|].
  rewrite (N.eqb_sym x c).
  destruct (c =? x)%N; simpl; f_equal; exact IH.
Qed.

Lemma contains_filter_out (c : char) (s : str) :
  contains c (filter (fun x => negb (x =? c)%N) s) = false.
Proof.
  unfold contains. induction s as [|x t IH]; simpl; [reflexivity|].
  destruct (N.eqb_spec x c) as [->|H]; simpl; [exact IH|].
  rewrite IH. destruct (N.eqb_spec c x); [congruence | reflexivity].
Qed.

(** The text after the cleaning step of [parse_amount_to_cents]. *)
Definition cleaned (value_str : str) : str :=
  replace (lit " ") [] (replace (lit "R$") [] (strip value_str)).

(** The text after its separators are settled. *)
Definition settled (s : str) : str :=
  if contains (ch ".") s && contains (ch ",") s
  then replace (lit ",") (lit ".") (replace (lit ".") [] s)
  else if contains (ch ",") s then replace (lit ",") (lit ".") s
  else s.

Definition comma_to_point (x : char) : char :=
  if (x =? ch ",")%N then ch "." else x.

(** What the specification words: a leading marker is dropped, and all
    white space. *)
Definition spec_cleaned (value_str : str) : str :=
  let s := filter (fun x => negb (is_space x)) value_str in
  match strip_prefix (lit "R$") s with
  | Some rest => rest
  | None => s
  end.

(** ** The sign of an amount *)

Lemma round_half_even_nonneg (n d : Z) :
  0 <= n -> 0 < d -> 0 <= round_half_even n d.
Proof.
  intros Hn Hd. unfold round_half_even.
  pose proof (Z.div_pos n d Hn Hd).
  destruct (2 * (n mod d) ?= d); [destruct (Z.even (n / d))| |]; lia.
Qed.

Lemma take_digits_nonneg (s : str) :
  Forall (fun v => 0 <= v) (fst (take_digits s)).
Proof.
  induction s as [|c s IH]; simpl; [constructor|].
  destruct (is_ascii_digit c) eqn:E; [|constructor].
  destruct (take_digits s) as [ds r]. simpl in *.
  constructor; [|exact IH].
  apply (is_digit_range c) in E. lia.
Qed.

Lemma fold_digits_nonneg (ds : list Z) (acc : Z) :
  0 <= acc -> Forall (fun v => 0 <= v) ds ->
  0 <= fold_left (fun a d => 10 * a + d) ds acc.
Proof.
  revert acc; induction ds as [|d ds IH]; intros acc Ha H;
    cbn [fold_left]; [exact Ha|].
  apply Forall_cons_iff in H as [Hd H].
  apply IH; [lia | exact H].
Qed.

Lemma number_of_nonneg (ds : list Z) :
  Forall (fun v => 0 <= v) ds -> 0 <= number_of ds.
Proof. apply fold_digits_nonneg. lia. Qed.

(** A float made by rounding has the sign it was given, and a significand
    that is not negative. *)
Definition signed (neg : bool) (x : float) : Prop :=
  match x with
  | Fnan => False
  | Finf s => s = neg
  | Ffin s m _ => s = neg /\ 0 <= m
  end.

Lemma binary64_signed (neg : bool) (n d : Z) :
  0 <= n -> 0 < d -> signed neg (binary64 neg n d).
Proof.
  intros Hn Hd. unfold binary64.
  destruct (n =? 0); [simpl; split; [reflexivity | lia]|].
  destruct (1024 <=? _); simpl; [reflexivity|].
  split; [reflexivity|].
  apply round_half_even_nonneg.
  - apply Z.mul_nonneg_nonneg; [exact Hn | apply Z.pow_nonneg; lia].
  - apply Z.mul_pos_pos; [exact Hd | apply Z.pow_pos_nonneg; lia].
Qed.

Lemma strtod_signed (neg : bool) (s : str) (x : float) :
  strtod neg s = Some x -> signed neg x.
Proof.
  unfold strtod.
  pose proof (take_digits_nonneg s) as H1.
  destruct (take_digits s) as [ip r1]. simpl in H1.
  assert (H2 : forall fp r2,
             (match r1 with
              | c :: t => if (c =? ch ".")%N then take_digits t else ([], r1)
              | [] => ([], r1)
              end) = (fp, r2) -> Forall (fun v => 0 <= v) fp).
  { intros fp r2. destruct r1 as [|c t].
    - intros [= <- _]. constructor.
    - destruct (c =? ch ".")%N.
      + intros E. pose proof (take_digits_nonneg t) as H. rewrite E in H.
        exact H.
      + intros [= <- _]. constructor. }
  destruct (match r1 with [] => _ | _ => _ end) as [fp r2].
  specialize (H2 fp r2 eq_refl).
  destruct (ip ++ fp) as [|v ds] eqn:E; [discriminate|].
  destruct (exponent r2) as [e|]; [|discriminate].
  intros [= <-]. unfold decimal_value. apply binary64_signed.
  - apply Z.mul_nonneg_nonneg; [|apply Z.pow_nonneg; lia].
    apply number_of_nonneg. rewrite <- E. apply Forall_app. auto.
  - apply Z.pow_pos_nonneg; lia.
Qed.

Lemma round_signed (x : float) (c : Z) :
  signed false x -> round x = Ok c -> 0 <= c.
Proof.
  destruct x as [|s|s m e]; simpl; try discriminate.
  intros [-> Hm] [= <-].
  apply round_half_even_nonneg.
  - apply Z.mul_nonneg_nonneg; [exact Hm | apply Z.pow_nonneg; lia].
  - apply Z.pow_pos_nonneg; lia.
Qed.

Section MoneyFacts.
Context {U : Unicode}.

(** The steps of [parse_amount_to_cents] after the text is settled. *)
Definition cents_of_text (s : str) : result Z :=
  match float_of_str s with
  | None => Err InvalidAmount
  | Some valor =>
      if fle_zero valor then Err NonPositiveAmount
      else round (fmul valor f100)
  end.

(** The parser as the specification words its first step. *)
Definition spec_parse_amount (value_str : str) : result Z :=
  cents_of_text (settled (spec_cleaned value_str)).

Lemma float_of_str_signed (s : str) (x : float) :
  float_of_str s = Some x -> x = Fnan \/ exists neg, signed neg x.
Proof.
  unfold float_of_str.
  destruct (to_ascii s) as [a|]; [|discriminate].
  destruct (underscores_ok 0 (strip_c a)); [|discriminate].
  destruct (take_sign (drop_underscores (strip_c a))) as [neg body].
  destruct (strtod neg body) as [f|] eqn:E.
  - intros [= <-]. right. exists neg. eapply strtod_signed. exact E.
  - unfold inf_or_nan. destruct (_ || _).
    + intros [= <-]. right. exists neg. reflexivity.
    + destruct (str_eqb _ _); [|discriminate]. intros [= <-]. auto.
Qed.

(** What the parser returns is not negative. *)
Lemma parse_amount_nonneg (s : str) (c : Z) :
  parse_amount_to_cents s = Ok c -> 0 <= c.
Proof.
  change (parse_amount_to_cents s) with (cents_of_text (settled (cleaned s))).
  unfold cents_of_text.
  destruct (float_of_str _) as [x|] eqn:E; [|discriminate].
  apply float_of_str_signed in E as [->|[neg S]]; [discriminate|].
  destruct x as [|sx|sx m e]; simpl in S.
  - contradiction.
  - simpl. destruct sx; discriminate.
  - destruct S as [-> Hm]. cbn [fle_zero].
    destruct neg; [discriminate|]. cbn [orb].
    destruct (Z.eqb_spec m 0); [discriminate|].
    apply round_signed. unfold fmul, f100. cbn [xorb].
    apply binary64_signed.
    + unfold numerator. apply Z.mul_nonneg_nonneg; [lia | apply Z.pow_nonneg; lia].
    + unfold denominator. apply Z.pow_pos_nonneg; lia.
Qed.

(** C1. The amount [parse_amount_to_cents] returns is never negative, but
    it can be zero: the text 0.001 is read as a float above zero, so the
    check of the sign lets it pass, and its hundredfold rounds to 0 cents.
    The parser returns an amount that is not positive. *)
Theorem parse_amount_rounds_to_zero :
  (forall s c, parse_amount_to_cents s = Ok c -> 0 <= c)
  /\ parse_amount_to_cents (lit "0.001") = Ok 0
  /\ parse_amount_to_cents (lit "R$ 0,004") = Ok 0.
Proof. split; [exact parse_amount_nonneg | split; reflexivity]. Qed.

(** C2, as the program has it. [parse_amount_to_cents] drops the white
    space around the text, then every occurrence of "R$", then every space
    character and no other character: white space of another kind inside
    the text stays.  If both "." and "," occur in what is left, every "."
    goes and every "," becomes "."; if only "," occurs, every "," becomes
    "."; otherwise the text is left as it is.  The result is read as
    [float] reads it, and the parser raises InvalidAmount exactly when
    [float] refuses it.  So "1.234,56" and "1234.56" give 123456, and
    "1234" gives 123400. *)
Theorem parse_amount_separators (s : str) :
  parse_amount_to_cents s = cents_of_text (settled (cleaned s))
  /\ cleaned s = filter (fun x => negb (x =? ch " ")%N)
                        (replace (lit "R$") [] (strip s))
  /\ contains (ch " ") (cleaned s) = false
  /\ (forall c, c <> ch " " ->
        In c (replace (lit "R$") [] (strip s)) -> In c (cleaned s))
  /\ (forall t, contains (ch ".") t = true -> contains (ch ",") t = true ->
        settled t = map comma_to_point
                        (filter (fun x => negb (x =? ch ".")%N) t))
  /\ (forall t, contains (ch ".") t = false -> contains (ch ",") t = true ->
        settled t = map comma_to_point t)
  /\ (forall t, contains (ch ",") t = false -> settled t = t)
  /\ (parse_amount_to_cents s = Err InvalidAmount
      <-> float_of_str (settled (cleaned s)) = None)
  /\ parse_amount_to_cents (lit "1.234,56") = Ok 123456
  /\ parse_amount_to_cents (lit "1234.56") = Ok 123456
  /\ parse_amount_to_cents (lit "1234") = Ok 123400.
Proof.
  assert (C : cleaned s = filter (fun x => negb (x =? ch " ")%N)
                                 (replace (lit "R$") [] (strip s)))
    by (unfold cleaned; apply (replace_char_remove (ch " "))).
  split; [reflexivity|]. split; [exact C|]. split.
  { rewrite C. apply contains_filter_out. }
  split.
  { intros c N I. rewrite C. apply filter_In. split; [exact I|].
    apply negb_true_iff, N.eqb_neq. exact N. }
  split.
  { intros t P K. unfold settled. rewrite P, K. simpl.
    rewrite (replace_char_remove (ch ".")).
    apply (replace_char_map (ch ",") (ch ".")). }
  split.
  { intros t P K. unfold settled. rewrite P, K. simpl.
    apply (replace_char_map (ch ",") (ch ".")). }
  split.
  { intros t K. unfold settled. rewrite K, andb_false_r. reflexivity. }
  split.
  { change (parse_amount_to_cents s)
      with (cents_of_text (settled (cleaned s))).
    unfold cents_of_text.
    destruct (float_of_str (settled (cleaned s))) as [x|];
      [|split; reflexivity].
    split; [|discriminate].
    destruct (fle_zero x); [discriminate|].
    destruct (fmul x f100); discriminate. }
  repeat split.
Qed.

End MoneyFacts.

(** C2, as the specification words it: that a leading marker and all white
    space are dropped.  A tab between two digits is white space, and the
    program keeps it: the text is refused, where the wording reads 12.  A
    marker after the digits is not a leading one, and the program drops
    it: the text is read as 5, where the wording refuses it. *)
Lemma parse_amount_keeps_inner_tab :
  @parse_amount_to_cents basic_latin (ch "1" :: 9%N :: lit "2")
    = Err InvalidAmount
  /\ @spec_parse_amount basic_latin (ch "1" :: 9%N :: lit "2") = Ok 1200
  /\ @parse_amount_to_cents basic_latin (lit "5R$") = Ok 500
  /\ @spec_parse_amount basic_latin (lit "5R$") = Err InvalidAmount.
Proof. repeat split. Qed.

(** The theorem at the Basic Latin database and an amount typed the
    Brazilian way. *)
Lemma parse_amount_separators_brl :
  @parse_amount_to_cents basic_latin (lit " R$ 1.234,56 ")
  = @cents_of_text basic_latin (lit "1234.56").
Proof.
  exact (proj1 (@parse_amount_separators basic_latin (lit " R$ 1.234,56 "))).
Defined.

(** ** The floats against the Standard Library's *)

(** A float as the Standard Library's specification of IEEE 754 has it. *)
Definition to_spec (x : float) : SpecFloat.spec_float :=
  match x with
  | Fnan => SpecFloat.S754_nan
  | Finf neg => SpecFloat.S754_infinity neg
  | Ffin neg (Zpos m) e => SpecFloat.S754_finite neg m e
  | Ffin neg _ _ => SpecFloat.S754_zero neg
  end.

(** The float of an integer that has one. *)
Definition float_of (n : Z) : float :=
  match float_of_int n with Ok x => x | Err _ => Fnan end.

Definition operands : list (Z * Z) :=
  [(1, 100); (5, 100); (123456, 100); (3518437208883205, 100);
   (2 ^ 53 + 1, 100); (2 ^ 63 - 1, 100); (7, 3); (1, 3); (10 ^ 30, 7);
   (1, 10 ^ 30); (10 ^ 300, 1); (3, 10 ^ 300); (0, 5); (-7, 3);
   (10 ^ 200, 10 ^ 200)].

(** On these operands, division and multiplication are the Standard
    Library's at precision 53 and largest exponent 1024. *)
Lemma float_operations_agree :
  map (fun '(a, b) => to_spec (fdiv (float_of a) (float_of b))) operands
  = map (fun '(a, b) =>
           SpecFloat.SFdiv 53 1024 (to_spec (float_of a))
             (to_spec (float_of b))) operands
  /\ map (fun '(a, b) => to_spec (fmul (float_of a) (float_of b))) operands
     = map (fun '(a, b) =>
              SpecFloat.SFmul 53 1024 (to_spec (float_of a))
                (to_spec (float_of b))) operands
  /\ map (fun '(a, b) =>
            to_spec (fmul (fdiv (float_of a) (float_of b)) f100)) operands
     = map (fun '(a, b) =>
              SpecFloat.SFmul 53 1024
                (to_spec (fdiv (float_of a) (float_of b))) (to_spec f100))
           operands.
Proof. split; [|split]; vm_compute; reflexivity. Qed.

(** A decimal text is read as the quotient of its digits by the power of
    ten, rounded once. *)
Lemma float_of_str_agrees :
  map (fun s => option_map to_spec (@float_of_str basic_latin (lit s)))
      ["1234.56"; "0.001"; "35184372088832.05"; "1e-320"; "12e3"]%string
  = map (fun '(n, d) =>
           Some (SpecFloat.SFdiv 53 1024 (SpecFloat.S754_finite false n 0)
                   (SpecFloat.S754_finite false d 0)))
        [(123456, 100); (1, 1000); (3518437208883205, 100);
         (1, Z.to_pos (10 ^ 320)); (12000, 1)]%positive.
Proof. vm_compute. reflexivity. Qed.

(** ** Rounding *)

(** What is rounded is within half a unit of the result. *)
Lemma round_half_even_near (n d : Z) :
  0 < d -> 2 * Z.abs (round_half_even n d * d - n) <= d.
Proof.
  intros Hd. unfold round_half_even.
  pose proof (Z.div_mod n d ltac:(lia)) as E.
  pose proof (Z.mod_pos_bound n d Hd) as B.
  destruct (Z.compare_spec (2 * (n mod d)) d) as [H|H|H];
    [destruct (Z.even (n / d))| |]; nia.
Qed.

(** An integer strictly within half a unit of what is rounded is the
    result. *)
Lemma round_half_even_unique (n d r : Z) :
  0 < d -> 2 * Z.abs (r * d - n) < d -> round_half_even n d = r.
Proof.
  intros Hd H. pose proof (round_half_even_near n d Hd) as N.
  nia.
Qed.

Lemma round_half_even_exact (n : Z) : round_half_even n 1 = n.
Proof. apply round_half_even_unique; lia. Qed.

Lemma floor_log2_upper (n d K : Z) :
  0 < n -> 0 < d -> 0 <= K -> n < d * 2 ^ (K + 1) -> floor_log2 n d <= K.
Proof.
  intros Hn Hd HK H. unfold floor_log2.
  remember (Z.log2 n - Z.log2 d) as k eqn:Ek.
  pose proof (Z.log2_spec n Hn) as [Ln _].
  pose proof (Z.log2_spec d Hd) as [_ Ld]. rewrite <- Z.add_1_r in Ld.
  pose proof (Z.log2_nonneg n). pose proof (Z.log2_nonneg d).
  destruct (Z.ltb_spec (n * 2 ^ Z.max 0 (- k)) (d * 2 ^ Z.max 0 k)) as [C|C].
  - (* k - 1 *)
    destruct (Z.le_gt_cases (k - 1) K) as [|G]; [assumption|exfalso].
    assert (E : Z.log2 n = (K + 1) + (Z.log2 d + 1) + (k - K - 2)) by lia.
    rewrite E in Ln.
    rewrite (Z.pow_add_r 2 (K + 1 + (Z.log2 d + 1)) (k - K - 2)),
      (Z.pow_add_r 2 (K + 1) (Z.log2 d + 1)) in Ln by lia.
    assert (R : 1 <= 2 ^ (k - K - 2)) by (apply (Z.pow_le_mono_r 2 0); lia).
    assert (P : 0 < 2 ^ (K + 1)) by (apply Z.pow_pos_nonneg; lia).
    assert (A : d * 2 ^ (K + 1) < 2 ^ (Z.log2 d + 1) * 2 ^ (K + 1))
      by (apply Z.mul_lt_mono_pos_r; lia).
    assert (B : 2 ^ (K + 1) * 2 ^ (Z.log2 d + 1) * 1
                <= 2 ^ (K + 1) * 2 ^ (Z.log2 d + 1) * 2 ^ (k - K - 2))
      by (apply Z.mul_le_mono_nonneg_l; [apply Z.mul_nonneg_nonneg|]; lia).
    lia.
  - destruct (Z.le_gt_cases k K) as [|G]; [assumption|exfalso].
    replace (Z.max 0 (- k)) with 0 in C by lia.
    replace (Z.max 0 k) with ((K + 1) + (k - K - 1)) in C by lia.
    rewrite Z.pow_add_r in C by lia.
    assert (R : 1 <= 2 ^ (k - K - 1)) by (apply (Z.pow_le_mono_r 2 0); lia).
    assert (P : 0 < 2 ^ (K + 1)) by (apply Z.pow_pos_nonneg; lia).
    rewrite Z.mul_1_r in C.
    assert (B : d * (2 ^ (K + 1) * 1) <= d * (2 ^ (K + 1) * 2 ^ (k - K - 1))).
    { apply Z.mul_le_mono_nonneg_l; [lia|].
      apply Z.mul_le_mono_nonneg_l; lia. }
    lia.
Qed.

(** A ratio below [2^(K+1)], with [K] below 52, is rounded at an exponent
    that is negative, and gives a finite float. *)
Lemma binary64_fine (n d K : Z) :
  0 < n -> 0 < d -> 0 <= K <= 51 -> n < d * 2 ^ (K + 1) ->
  exists m a,
    binary64 false n d = Ffin false m (- a)
    /\ 52 - K <= a <= 1074
    /\ m = round_half_even (n * 2 ^ a) d
    /\ 0 <= m.
Proof.
  intros Hn Hd HK H. unfold binary64.
  replace (n =? 0) with false by (symmetry; apply Z.eqb_neq; lia).
  pose proof (floor_log2_upper n d K Hn Hd ltac:(lia) H) as F.
  unfold ulp_exponent.
  set (e := Z.max (floor_log2 n d - 52) (- 1074)).
  assert (He : - 1074 <= e <= K - 52) by (subst e; lia).
  replace (Z.max 0 (- e)) with (- e) by lia.
  replace (Z.max 0 e) with 0 by lia.
  rewrite Z.pow_0_r, Z.mul_1_r.
  set (m := round_half_even (n * 2 ^ (- e)) d).
  assert (P : 0 < 2 ^ (- e)) by (apply Z.pow_pos_nonneg; lia).
  assert (M0 : 0 <= m) by (apply round_half_even_nonneg; nia).
  assert (M1 : m <= 2 ^ (K + 1 + - e)).
  { pose proof (round_half_even_near (n * 2 ^ (- e)) d Hd) as N.
    fold m in N. rewrite Z.pow_add_r by lia.
    assert (n * 2 ^ (- e) < d * 2 ^ (K + 1) * 2 ^ (- e))
      by (apply Z.mul_lt_mono_pos_r; lia).
    assert (m * d < (2 ^ (K + 1) * 2 ^ (- e) + 1) * d) by lia.
    assert (m < 2 ^ (K + 1) * 2 ^ (- e) + 1)
      by (apply (Z.mul_lt_mono_pos_r d); lia).
    lia. }
  assert (L : Z.log2 m <= K + 1 + - e).
  { rewrite <- (Z.log2_pow2 (K + 1 + - e)) by lia.
    apply Z.log2_le_mono. exact M1. }
  replace (1024 <=? Z.log2 m + e) with false
    by (symmetry; apply Z.leb_gt; lia).
  exists m, (- e). rewrite Z.opp_involutive.
  repeat split; lia.
Qed.

(** The float nearest to [c / 100], for an amount [c] of cents below
    [100 * 2^45]: its hundredfold is within 50 units of the last place of
    [c]. *)
Lemma amount_float (n d c : Z) :
  0 < c < 100 * 2 ^ 45 -> 0 < d -> n * 100 = c * d ->
  exists m a,
    binary64 false n d = Ffin false m (- a)
    /\ 8 <= a /\ 0 < m
    /\ 2 * Z.abs (100 * m - c * 2 ^ a) <= 100.
Proof.
  intros Hc Hd E.
  assert (Hn : 0 < n) by nia.
  assert (H : n < d * 2 ^ (44 + 1)) by (change (2 ^ (44 + 1)) with (2 ^ 45); nia).
  destruct (binary64_fine n d 44 Hn Hd ltac:(lia) H) as (m & a & B & Ha & Hm & M0).
  exists m, a. split; [exact B|]. split; [lia|].
  pose proof (round_half_even_near (n * 2 ^ a) d Hd) as N.
  rewrite <- Hm in N.
  assert (P : 2 ^ 8 <= 2 ^ a) by (apply Z.pow_le_mono_r; lia).
  change (2 ^ 8) with 256 in P.
  assert (Q : 2 * Z.abs (100 * m - c * 2 ^ a) * d <= 100 * d).
  { replace (2 * Z.abs (100 * m - c * 2 ^ a) * d)
      with (100 * (2 * Z.abs (m * d - n * 2 ^ a))).
    - lia.
    - rewrite <- (Z.abs_eq d) at 2 by lia.
      rewrite <- !Z.mul_assoc, <- Z.abs_mul.
      replace ((100 * m - c * 2 ^ a) * d) with (100 * (m * d - n * 2 ^ a))
        by (rewrite !Z.mul_sub_distr_l, !Z.mul_sub_distr_r;
            replace (c * 2 ^ a * d) with (c * d * 2 ^ a) by ring;
            rewrite <- E; ring).
      rewrite Z.abs_mul. change (Z.abs 100) with 100. ring. }
  assert (R : 2 * Z.abs (100 * m - c * 2 ^ a) <= 100)
    by (apply (Z.mul_le_mono_pos_r _ _ d); lia).
  split; [|exact R]. nia.
Qed.

Lemma numerator_neg (m a : Z) : 0 <= a -> numerator m (- a) = m.
Proof.
  intros H. unfold numerator. replace (Z.max 0 (- a)) with 0 by lia.
  rewrite Z.pow_0_r. ring.
Qed.

Lemma denominator_neg (a : Z) : 0 <= a -> denominator (- a) = 2 ^ a.
Proof.
  intros H. unfold denominator. rewrite Z.opp_involutive.
  replace (Z.max 0 a) with a by lia. reflexivity.
Qed.

(** [format(valor, ".2f")] shows the cents. *)
Lemma hundredths_of_amount (m a c : Z) :
  8 <= a -> 2 * Z.abs (100 * m - c * 2 ^ a) <= 100 ->
  round_half_even (numerator m (- a) * 100) (denominator (- a)) = c.
Proof.
  intros Ha H. rewrite numerator_neg, denominator_neg by lia.
  assert (P : 2 ^ 8 <= 2 ^ a) by (apply Z.pow_le_mono_r; lia).
  change (2 ^ 8) with 256 in P.
  apply round_half_even_unique; lia.
Qed.

(** [round(valor * 100)] is the cents. *)
Lemma round_times_100 (m a c : Z) :
  0 < c < 100 * 2 ^ 45 -> 8 <= a -> 0 < m ->
  2 * Z.abs (100 * m - c * 2 ^ a) <= 100 ->
  round (fmul (Ffin false m (- a)) f100) = Ok c.
Proof.
  intros Hc Ha Hm H. unfold fmul, f100. simpl xorb.
  rewrite Z.add_0_r, numerator_neg, denominator_neg by lia.
  assert (P : 2 ^ 8 <= 2 ^ a) by (apply Z.pow_le_mono_r; lia).
  change (2 ^ 8) with 256 in P.
  assert (B : m * 100 < 2 ^ a * 2 ^ (51 + 1)).
  { change (2 ^ (51 + 1)) with 4503599627370496.
    change (2 ^ 45) with 35184372088832 in Hc. nia. }
  destruct (binary64_fine (m * 100) (2 ^ a) 51 ltac:(lia) ltac:(lia)
              ltac:(lia) B) as (w & b & E & Hb & Hw & W0).
  rewrite E. unfold round.
  rewrite numerator_neg, denominator_neg by lia.
  f_equal.
  assert (Q : 2 ^ 1 <= 2 ^ b) by (apply Z.pow_le_mono_r; lia).
  change (2 ^ 1) with 2 in Q.
  pose proof (round_half_even_near (m * 100 * 2 ^ b) (2 ^ a) ltac:(lia)) as N.
  rewrite <- Hw in N.
  apply round_half_even_unique; [lia|].
  apply (Z.mul_lt_mono_pos_r (2 ^ a)); [lia|].
  remember (2 ^ a) as pa eqn:EA. remember (2 ^ b) as pb eqn:EB.
  clear EA EB E Hw B.
  assert (H1 : - (50 * pb) <= 100 * m * pb - c * pa * pb <= 50 * pb) by nia.
  assert (H2 : pa + 100 * pb < pa * pb) by nia.
  destruct (Z.abs_spec (c * pb - w)) as [[_ ->]|[_ ->]]; nia.
Qed.

(** ** Thousands groups *)

Lemma slice_skipn (a b : nat) (s : str) :
  (a <= b)%nat -> slice a b s ++ skipn b s = skipn a s.
Proof.
  intros H. unfold slice.
  replace (skipn b s) with (skipn (b - a) (skipn a s))
    by (rewrite skipn_skipn; f_equal; lia).
  apply firstn_skipn.
Qed.

Lemma groups_from (s : str) (k : nat) :
  concat (rev (map (fun j => slice (length s - 3 * j - 3) (length s - 3 * j) s)
                   (seq 0 k)))
  = skipn (length s - 3 * k) s.
Proof.
  set (g := fun j => slice (length s - 3 * j - 3) (length s - 3 * j) s).
  induction k as [|k IH].
  - simpl. rewrite Nat.sub_0_r, skipn_all. reflexivity.
  - rewrite seq_S, map_app.
    change (map g [(0 + k)%nat]) with [g k].
    rewrite rev_unit, concat_cons, IH. unfold g.
    rewrite slice_skipn by lia. f_equal. lia.
Qed.

(** The groups, put together, are the digits. *)
Lemma groups_concat (s : str) : concat (groups_of_three s) = s.
Proof.
  unfold groups_of_three, range_down3. rewrite map_map.
  rewrite (groups_from s ((length s + 2) / 3)).
  pose proof (Nat.div_mod_eq (length s + 2) 3) as E.
  pose proof (Nat.mod_upper_bound (length s + 2) 3 ltac:(lia)) as B.
  replace (length s - 3 * ((length s + 2) / 3))%nat with 0%nat by lia.
  reflexivity.
Qed.

Lemma filter_join (p : char -> bool) (sep : str) (xs : list str) :
  filter p sep = [] -> filter p (join sep xs) = concat (map (filter p) xs).
Proof.
  intros H. induction xs as [|x [|y rest] IH].
  - reflexivity.
  - simpl. rewrite app_nil_r. reflexivity.
  - change (join sep (x :: y :: rest)) with (x ++ sep ++ join sep (y :: rest)).
    rewrite !filter_app, H, IH. reflexivity.
Qed.

Lemma filter_keep {A} (p : A -> bool) (xs : list A) :
  Forall (fun x => p x = true) xs -> filter p xs = xs.
Proof.
  induction 1 as [|x xs Hx H IH]; simpl; [reflexivity|].
  rewrite Hx, IH. reflexivity.
Qed.

Lemma forall_join (P : char -> Prop) (sep : str) (xs : list str) :
  Forall P sep -> Forall P (concat xs) -> Forall P (join sep xs).
Proof.
  intros Hs. induction xs as [|x [|y rest] IH]; intros H.
  - constructor.
  - simpl in *. rewrite app_nil_r in H. exact H.
  - change (join sep (x :: y :: rest)) with (x ++ sep ++ join sep (y :: rest)).
    simpl concat in H. apply Forall_app in H as [Hx H].
    apply Forall_app. split; [exact Hx|].
    apply Forall_app. split; [exact Hs|]. apply IH. exact H.
Qed.

Lemma split_on_absent (c : char) (s : str) :
  Forall (fun x => x <> c) s -> split_on c s = [s].
Proof.
  induction 1 as [|x s Hx H IH]; simpl; [reflexivity|].
  destruct (N.eqb_spec x c); [contradiction|]. rewrite IH. reflexivity.
Qed.

Lemma split_on_once (c : char) (a b : str) :
  Forall (fun x => x <> c) a -> Forall (fun x => x <> c) b ->
  split_on c (a ++ c :: b) = [a; b].
Proof.
  intros Ha Hb. induction Ha as [|x a Hx H IH]; simpl.
  - rewrite N.eqb_refl, (split_on_absent c b Hb). reflexivity.
  - destruct (N.eqb_spec x c); [contradiction|]. rewrite IH. reflexivity.
Qed.

(** ** The text of an amount *)

Ltac char_facts :=
  repeat match goal with
  | H : is_digit _ |- _ => apply is_digit_range in H
  end;
  repeat match goal with
  | |- context [ch ?a] =>
      let v := eval vm_compute in (ch a) in change (ch a) with v
  end;
  repeat match goal with
  | |- context [(?a <=? ?b)%N] => destruct (N.leb_spec a b); try lia
  | |- context [(?a <? ?b)%N] => destruct (N.ltb_spec a b); try lia
  | |- context [(?a =? ?b)%N] => destruct (N.eqb_spec a b); try lia
  end;
  try reflexivity; try lia.

Lemma digit_not_space (c : char) : is_digit c -> is_space c = false.
Proof. intros H. unfold is_space. char_facts. Qed.

Lemma digit_not_c_space (c : char) : is_digit c -> is_c_space c = false.
Proof. intros H. unfold is_c_space. char_facts. Qed.

Lemma digit_keeps_comma_to_point (c : char) : is_digit c -> comma_to_point c = c.
Proof. intros H. unfold comma_to_point. char_facts. Qed.

Lemma strip_keep (x y : char) (mid : str) :
  is_space x = false -> is_space y = false ->
  strip (x :: mid ++ [y]) = x :: mid ++ [y].
Proof.
  intros Hx Hy. unfold strip. simpl lstrip. rewrite Hx.
  rewrite (rstrip_cons_keep x _ Hx). f_equal.
  unfold rstrip. rewrite rev_unit. simpl lstrip. rewrite Hy.
  change (rev (y :: rev mid)) with (rev (rev mid) ++ [y]).
  rewrite rev_involutive. reflexivity.
Qed.

Lemma replace_absent (c0 : char) (old new s : str) :
  Forall (fun x => x <> c0) s -> replace (c0 :: old) new s = s.
Proof.
  unfold replace. induction 1 as [|x s Hx H IH]; simpl; [reflexivity|].
  destruct (N.eqb_spec c0 x); [congruence|]. rewrite IH. reflexivity.
Qed.

Lemma replace_marker_first (new rest : str) :
  replace (lit "R$") new (lit "R$" ++ rest) = new ++ replace (lit "R$") new rest.
Proof. reflexivity. Qed.

Lemma filter_concat {A} (p : A -> bool) (xs : list (list A)) :
  concat (map (filter p) xs) = filter p (concat xs).
Proof.
  induction xs as [|x xs IH]; simpl; [reflexivity|].
  rewrite filter_app, IH. reflexivity.
Qed.

Lemma contains_false (c : char) (s : str) :
  contains c s = false -> Forall (fun x => negb (x =? c)%N = true) s.
Proof.
  unfold contains. induction s as [|x s IH]; simpl; [constructor|].
  intros H. apply orb_false_iff in H as [H1 H2].
  constructor; [|apply IH; exact H2].
  rewrite N.eqb_sym, H1. reflexivity.
Qed.

(** The digits with their thousands separators. *)
Definition grouped (I : str) : str := join (lit ".") (groups_of_three I).

(** The text [cents_to_brl] returns. *)
Definition brl_text (I : str) (d1 d2 : char) : str :=
  lit "R$ " ++ grouped I ++ lit "," ++ [d1; d2].

(** The digits with the decimal point. *)
Definition plain_text (I : str) (d1 d2 : char) : str :=
  I ++ lit "." ++ [d1; d2].

Section Grouped.
Variable I : str.
Hypothesis I_digits : Forall is_digit I.
Hypothesis I_nonempty : I <> [].

Lemma grouped_chars : Forall (fun c => is_digit c \/ c = ch ".") (grouped I).
Proof.
  apply forall_join.
  - constructor; [right; reflexivity | constructor].
  - rewrite groups_concat. eapply Forall_impl; [|exact I_digits].
    intros c H. left. exact H.
Qed.

Lemma grouped_without_points :
  filter (fun x => negb (x =? ch ".")%N) (grouped I) = I.
Proof.
  unfold grouped. rewrite filter_join by reflexivity.
  rewrite filter_concat, groups_concat. apply filter_keep.
  eapply Forall_impl; [|exact I_digits].
  intros c H. char_facts.
Qed.

Lemma grouped_nonempty : grouped I <> [].
Proof.
  intros E. pose proof grouped_without_points as H. rewrite E in H.
  simpl in H. auto.
Qed.

End Grouped.

Section Brl.
Variable I : str.
Variables d1 d2 : char.
Hypothesis I_digits : Forall is_digit I.
Hypothesis d1_digit : is_digit d1.
Hypothesis d2_digit : is_digit d2.

Abbreviation G := (grouped I).

Lemma cleaned_brl :
  cleaned (brl_text I d1 d2) = grouped I ++ lit "," ++ [d1; d2].
Proof.
  unfold cleaned, brl_text.
  assert (S : strip (lit "R$ " ++ G ++ lit "," ++ [d1; d2])
              = lit "R$" ++ lit " " ++ G ++ lit "," ++ [d1; d2]).
  { change (lit "R$ " ++ G ++ lit "," ++ [d1; d2])
      with (82%N :: (36%N :: 32%N :: G ++ 44%N :: [d1; d2])).
    replace (36%N :: 32%N :: G ++ 44%N :: [d1; d2])
      with ((36%N :: 32%N :: G ++ [44%N; d1]) ++ [d2])
      by (simpl; rewrite <- app_assoc; reflexivity).
    rewrite strip_keep; [|reflexivity|apply digit_not_space; assumption].
    simpl. rewrite <- app_assoc. reflexivity. }
  rewrite S, replace_marker_first. simpl app at 1.
  rewrite (replace_absent 82%N [36%N]).
  - rewrite (replace_char_remove (ch " ")). simpl.
    apply filter_keep. apply Forall_app. split.
    + eapply Forall_impl; [|exact (grouped_chars I I_digits)].
      intros c [H| ->]; [char_facts | reflexivity].
    + pose proof d1_digit. pose proof d2_digit.
      repeat constructor; char_facts.
  - change (lit " " ++ G ++ lit "," ++ [d1; d2])
      with (32%N :: G ++ 44%N :: [d1; d2]).
    constructor; [discriminate|]. apply Forall_app. split.
    + eapply Forall_impl; [|exact (grouped_chars I I_digits)].
      intros c [H| ->]; [apply is_digit_range in H; lia | discriminate].
    + pose proof d1_digit as H1. pose proof d2_digit as H2.
      apply is_digit_range in H1. apply is_digit_range in H2.
      repeat constructor; lia.
Qed.

Lemma settled_brl :
  settled (grouped I ++ lit "," ++ [d1; d2]) = plain_text I d1 d2.
Proof.
  unfold settled, plain_text.
  assert (K : contains (ch ",") (G ++ lit "," ++ [d1; d2]) = true).
  { unfold contains. rewrite existsb_app. apply orb_true_iff. right.
    reflexivity. }
  assert (T : map comma_to_point (I ++ lit "," ++ [d1; d2])
              = I ++ lit "." ++ [d1; d2]).
  { rewrite map_app. f_equal.
    - rewrite <- (map_id I) at 2. apply map_ext_Forall.
      eapply Forall_impl; [|exact I_digits].
      intros c H. apply digit_keeps_comma_to_point. exact H.
    - change (map comma_to_point (lit "," ++ [d1; d2]))
        with (ch "." :: [comma_to_point d1; comma_to_point d2]).
      rewrite (digit_keeps_comma_to_point d1 d1_digit),
        (digit_keeps_comma_to_point d2 d2_digit).
      reflexivity. }
  assert (F : filter (fun x => negb (x =? ch ".")%N) (lit "," ++ [d1; d2])
              = lit "," ++ [d1; d2]).
  { apply filter_keep. pose proof d1_digit. pose proof d2_digit.
    repeat constructor; char_facts. }
  rewrite K. destruct (contains (ch ".") _) eqn:P; simpl andb; cbv iota.
  - rewrite (replace_char_remove (ch ".")), filter_app, F.
    rewrite (grouped_without_points I I_digits).
    rewrite (replace_char_map (ch ",") (ch ".")). exact T.
  - rewrite (replace_char_map (ch ",") (ch ".")).
    apply contains_false in P. apply filter_keep in P.
    rewrite filter_app, F, (grouped_without_points I I_digits) in P.
    rewrite <- P. exact T.
Qed.

End Brl.

(** ** Reading the text of an amount *)

Lemma strip_c_keep (x y : char) (mid : str) :
  is_c_space x = false -> is_c_space y = false ->
  strip_c (x :: mid ++ [y]) = x :: mid ++ [y].
Proof.
  intros Hx Hy. unfold strip_c.
  assert (L1 : lstrip_c (x :: mid ++ [y]) = x :: mid ++ [y])
    by (cbn [lstrip_c]; rewrite Hx; reflexivity).
  assert (R : rev (x :: mid ++ [y]) = y :: rev (x :: mid))
    by (change (x :: mid ++ [y]) with ((x :: mid) ++ [y]); apply rev_unit).
  assert (L2 : lstrip_c (y :: rev (x :: mid)) = y :: rev (x :: mid))
    by (cbn [lstrip_c]; rewrite Hy; reflexivity).
  rewrite L1, R, L2, <- R. apply rev_involutive.
Qed.

Lemma underscores_ok_plain (prev : char) (s : str) :
  prev <> ch "_" -> Forall (fun c => c <> ch "_") s ->
  underscores_ok prev s = true.
Proof.
  intros Hp H. revert prev Hp.
  induction H as [|c s Hc H IH]; intros prev Hp; cbn [underscores_ok].
  - destruct (N.eqb_spec prev (ch "_")); [contradiction | reflexivity].
  - destruct (N.eqb_spec c (ch "_")); [contradiction|].
    destruct (N.eqb_spec prev (ch "_")); [contradiction|].
    cbn [negb orb andb]. apply IH. exact Hc.
Qed.

Lemma drop_underscores_plain (s : str) :
  Forall (fun c => c <> ch "_") s -> drop_underscores s = s.
Proof.
  intros H. apply filter_keep. eapply Forall_impl; [|exact H].
  intros c Hc. cbv beta. destruct (N.eqb_spec c (ch "_")); [contradiction|].
  reflexivity.
Qed.

Lemma number_of_two (ds : list Z) (a b : Z) :
  number_of (ds ++ [a; b]) = 100 * number_of ds + 10 * a + b.
Proof.
  change [a; b] with ([a] ++ [b]).
  rewrite app_assoc, !number_of_snoc. ring.
Qed.

Section Reading.
Context {U : Unicode}.

Lemma to_ascii_ascii (s : str) :
  Forall (fun c => (c <? 128)%N = true) s -> to_ascii s = Some s.
Proof.
  induction 1 as [|c s Hc H IH]; simpl; [reflexivity|].
  rewrite Hc, IH. reflexivity.
Qed.

Variable I : str.
Variables d1 d2 : char.
Hypothesis I_digits : Forall is_digit I.
Hypothesis I_nonempty : I <> [].
Hypothesis d1_digit : is_digit d1.
Hypothesis d2_digit : is_digit d2.

Lemma plain_text_chars :
  Forall (fun c => is_digit c \/ c = ch ".") (plain_text I d1 d2).
Proof.
  unfold plain_text. apply Forall_app. split.
  - eapply Forall_impl; [|exact I_digits]. auto.
  - constructor; [right; reflexivity|]. repeat constructor; auto.
Qed.

Lemma float_of_plain_text :
  float_of_str (plain_text I d1 d2)
  = Some (decimal_value false
            (100 * number_of (values I) + 10 * (Z.of_N d1 - 48)
             + (Z.of_N d2 - 48)) (- 2)).
Proof.
  pose proof plain_text_chars as C.
  unfold float_of_str.
  rewrite to_ascii_ascii.
  2:{ eapply Forall_impl; [|exact C].
      intros c [H| ->]; [char_facts | reflexivity]. }
  destruct I as [|i0 I'] eqn:EI; [contradiction|].
  assert (Hi : is_digit i0) by (inversion I_digits; assumption).
  assert (S : strip_c (plain_text (i0 :: I') d1 d2) = plain_text (i0 :: I') d1 d2).
  { unfold plain_text.
    change ((i0 :: I') ++ lit "." ++ [d1; d2])
      with (i0 :: I' ++ 46%N :: [d1; d2]).
    replace (I' ++ 46%N :: [d1; d2]) with ((I' ++ [46%N; d1]) ++ [d2])
      by (rewrite <- app_assoc; reflexivity).
    apply strip_c_keep; apply digit_not_c_space; assumption. }
  rewrite S.
  assert (NU : Forall (fun c => c <> ch "_") (plain_text (i0 :: I') d1 d2)).
  { eapply Forall_impl; [|exact C].
    intros c [H| ->]; [apply is_digit_range in H | ];
      change (ch "_") with 95%N; [lia | discriminate]. }
  rewrite (underscores_ok_plain 0%N _ ltac:(discriminate) NU).
  rewrite (drop_underscores_plain _ NU).
  assert (T : take_sign (plain_text (i0 :: I') d1 d2)
              = (false, plain_text (i0 :: I') d1 d2)).
  { unfold plain_text. simpl. apply is_digit_range in Hi.
    destruct (N.eqb_spec i0 45) as [E|_]; [lia|].
    destruct (N.eqb_spec i0 43) as [E|_]; [lia|].
    reflexivity. }
  rewrite T. unfold strtod, plain_text.
  rewrite (take_digits_app _ _ I_digits).
  change (take_digits (lit "." ++ [d1; d2])) with (@nil Z, 46%N :: [d1; d2]).
  cbn [fst snd]. change (46 =? ch ".")%N with true. cbv iota.
  change [d1; d2] with ([d1; d2] ++ []).
  rewrite (take_digits_app [d1; d2] []) by (repeat constructor; assumption).
  cbn [take_digits fst snd values map app length].
  rewrite app_nil_r. cbn [exponent].
  rewrite app_comm_cons, number_of_two. reflexivity.
Qed.

End Reading.

(** ** There and back *)

Lemma or_else_keeps (x y : str) : x <> [] -> or_else x y = x.
Proof. destruct x; [congruence | reflexivity]. Qed.

Lemma float_of_int_amount (c : Z) :
  0 < c < 2 ^ 52 ->
  exists a, 1 <= a /\ float_of_int c = Ok (Ffin false (c * 2 ^ a) (- a)).
Proof.
  intros H. unfold float_of_int.
  replace (c <? 0) with false by (symmetry; apply Z.ltb_ge; lia).
  rewrite Z.abs_eq by lia.
  destruct (binary64_fine c 1 51 ltac:(lia) ltac:(lia) ltac:(lia)
              ltac:(change (2 ^ (51 + 1)) with (2 ^ 52); lia))
    as (m & a & E & Ha & Hm & _).
  rewrite round_half_even_exact in Hm. subst m.
  exists a. split; [lia|]. rewrite E. reflexivity.
Qed.

(** The text of [c] cents: the reais in groups of three, a comma, and two
    digits of cents. *)
Definition brl_of (c : Z) : str :=
  brl_text (digits (c / 100)) (digit_char (c mod 100 / 10))
           (digit_char (c mod 100 mod 10)).

Lemma cents_to_brl_value (c : Z) :
  0 < c < 100 * 2 ^ 45 -> cents_to_brl c = Ok (brl_of c).
Proof.
  intros H. unfold cents_to_brl.
  destruct (float_of_int_amount c) as (a1 & Ha1 & E1).
  { change (2 ^ 45) with 35184372088832 in H.
    change (2 ^ 52) with 4503599627370496. lia. }
  rewrite E1. cbn [rbind]. unfold fdiv, f100. cbn [xorb].
  assert (P1 : 0 < 2 ^ a1) by (apply Z.pow_pos_nonneg; lia).
  destruct (amount_float (numerator (c * 2 ^ a1) (- a1) * denominator 0)
              (numerator 100 0 * denominator (- a1)) c H) as (m & a & E & Ha & Hm & B).
  { rewrite denominator_neg by lia. change (numerator 100 0) with 100. lia. }
  { rewrite numerator_neg, denominator_neg by lia.
    change (denominator 0) with 1. change (numerator 100 0) with 100. ring. }
  rewrite E. unfold format_2f.
  rewrite (hundredths_of_amount m a c Ha B).
  pose proof (Z.mod_pos_bound c 100 ltac:(lia)) as F.
  assert (Q : 0 <= c / 100) by (apply Z.div_pos; lia).
  rewrite format_two_digits by lia.
  assert (D1 : is_digit (digit_char (c mod 100 / 10))).
  { apply digit_char_digit.
    split; [apply Z.div_pos; lia | apply Z.lt_succ_r, Z.div_lt_upper_bound; lia]. }
  assert (D2 : is_digit (digit_char (c mod 100 mod 10))).
  { apply digit_char_digit. pose proof (Z.mod_pos_bound (c mod 100) 10). lia. }
  cbn [app]. change (lit "." ++ ?x) with (ch "." :: x).
  rewrite split_on_once.
  - rewrite or_else_keeps.
    + reflexivity.
    + apply grouped_nonempty; [apply digits_all; lia | apply digits_nonempty; lia].
  - eapply Forall_impl; [|apply (digits_all _ Q)].
    intros x Hx. apply is_digit_range in Hx. change (ch ".") with 46%N. lia.
  - apply is_digit_range in D1. apply is_digit_range in D2.
    change (ch ".") with 46%N. repeat constructor; lia.
Qed.

Section RoundTrip.
Context {U : Unicode}.

Lemma parse_brl_of (c : Z) :
  0 < c < 100 * 2 ^ 45 -> parse_amount_to_cents (brl_of c) = Ok c.
Proof.
  intros H.
  pose proof (Z.mod_pos_bound c 100 ltac:(lia)) as F.
  assert (Q : 0 <= c / 100) by (apply Z.div_pos; lia).
  assert (V1 : 0 <= c mod 100 / 10 <= 9).
  { split; [apply Z.div_pos; lia | apply Z.lt_succ_r, Z.div_lt_upper_bound; lia]. }
  assert (V2 : 0 <= c mod 100 mod 10 <= 9).
  { pose proof (Z.mod_pos_bound (c mod 100) 10). lia. }
  pose proof (digits_all _ Q) as DI.
  pose proof (digits_nonempty _ Q) as NI.
  pose proof (digit_char_digit _ V1) as D1.
  pose proof (digit_char_digit _ V2) as D2.
  change (parse_amount_to_cents (brl_of c))
    with (cents_of_text (settled (cleaned (brl_of c)))).
  unfold brl_of.
  rewrite (cleaned_brl _ _ _ DI D1 D2), (settled_brl _ _ _ DI D1 D2).
  unfold cents_of_text.
  rewrite (float_of_plain_text _ _ _ DI NI D1 D2).
  rewrite (values_digits _ Q), !digit_char_value by assumption.
  replace (100 * (c / 100) + 10 * (c mod 100 / 10) + c mod 100 mod 10)
    with c.
  2:{ pose proof (Z.div_mod c 100). pose proof (Z.div_mod (c mod 100) 10). lia. }
  unfold decimal_value.
  change (10 ^ Z.max 0 (- 2)) with 1. change (10 ^ Z.max 0 (- - 2)) with 100.
  destruct (amount_float (c * 1) 100 c H ltac:(lia) ltac:(ring))
    as (m & a & E & Ha & Hm & B).
  rewrite E. cbn [fle_zero orb].
  replace (m =? 0) with false by (symmetry; apply Z.eqb_neq; lia).
  apply round_times_100; assumption.
Qed.

(** C5, as the program has it. For every amount of cents [c] above 0 and
    below [100 * 2^45] (3 518 437 208 883 200), [cents_to_brl] returns a
    text, and [parse_amount_to_cents] reads that text back as [c]. *)
Theorem brl_roundtrip (c : Z) :
  0 < c < 100 * 2 ^ 45 ->
  exists s, cents_to_brl c = Ok s /\ parse_amount_to_cents s = Ok c.
Proof.
  intros H. exists (brl_of c). split.
  - apply cents_to_brl_value. exact H.
  - apply parse_brl_of. exact H.
Qed.

End RoundTrip.

(** C5, as the specification words it: for every amount above 0.  The
    amount of 3 518 437 208 883 205 cents is shown with its cents, but the
    float read back from the text, times 100, falls halfway between two
    ints, and [round] takes the even one: a cent is lost. *)
Lemma brl_roundtrip_loses_a_cent :
  cents_to_brl 3518437208883205 = Ok (lit "R$ 35.184.372.088.832,05")
  /\ @parse_amount_to_cents basic_latin (lit "R$ 35.184.372.088.832,05")
     = Ok 3518437208883204.
Proof. split; vm_compute; reflexivity. Qed.

(** The theorem at the Basic Latin database and R$ 1.234,56. *)
Lemma brl_roundtrip_1234_56 :
  exists s,
    cents_to_brl 123456 = Ok s
    /\ @parse_amount_to_cents basic_latin s = Ok 123456.
Proof.
  apply (@brl_roundtrip basic_latin 123456). split; reflexivity.
Defined.

(** * Further properties *)

(** ** Dates, once normalised *)

(** The ten characters of a date of the calendar. *)
Lemma isoformat_chars (y m d : Z) :
  valid_date y m d = true ->
  1 <= y <= 9999 /\ 1 <= m <= 12 /\ 1 <= d <= 31
  /\ isoformat y m d
     = [digit_char (y / 1000); digit_char (y / 100 mod 10);
        digit_char (y / 10 mod 10); digit_char (y mod 10); ch "-";
        digit_char (m / 10); digit_char (m mod 10); ch "-";
        digit_char (d / 10); digit_char (d mod 10)].
Proof.
  unfold valid_date. rewrite !andb_true_iff, !Z.leb_le.
  intros [[[[[Y1 Y2] M1] M2] D1] D2].
  assert (D3 : d <= 31).
  { unfold days_in_month in D2.
    destruct (m =? 2); [destruct (is_leap y)|destruct (_ || _)]; lia. }
  repeat (split; [lia|]).
  unfold isoformat.
  rewrite format_four_digits, !format_two_digits by lia. reflexivity.
Qed.

Lemma tenth_digit (v : Z) : 0 <= v <= 99 -> 0 <= v / 10 <= 9.
Proof.
  intros H. split; [apply Z.div_pos; lia|].
  apply Z.lt_succ_r, Z.div_lt_upper_bound; lia.
Qed.

Lemma unit_digit (v : Z) : 0 <= v mod 10 <= 9.
Proof. pose proof (Z.mod_pos_bound v 10). lia. Qed.

Lemma four_digits (y : Z) :
  0 <= y < 10000 ->
  0 <= y / 1000 <= 9
  /\ y = ((y / 1000 * 10 + y / 100 mod 10) * 10 + y / 10 mod 10) * 10
         + y mod 10.
Proof.
  intros H.
  replace (y / 1000) with (y / 10 / 10 / 10)
    by (rewrite !Z.div_div by lia; reflexivity).
  replace (y / 100) with (y / 10 / 10)
    by (rewrite !Z.div_div by lia; reflexivity).
  pose proof (Z.div_mod y 10 ltac:(lia)) as E1.
  pose proof (Z.mod_pos_bound y 10 ltac:(lia)) as B1.
  remember (y / 10) as a1 eqn:A1. remember (y mod 10) as r1 eqn:R1.
  pose proof (Z.div_mod a1 10 ltac:(lia)) as E2.
  pose proof (Z.mod_pos_bound a1 10 ltac:(lia)) as B2.
  remember (a1 / 10) as a2 eqn:A2. remember (a1 mod 10) as r2 eqn:R2.
  pose proof (Z.div_mod a2 10 ltac:(lia)) as E3.
  pose proof (Z.mod_pos_bound a2 10 ltac:(lia)) as B3.
  remember (a2 / 10) as a3 eqn:A3. remember (a2 mod 10) as r3 eqn:R3.
  lia.
Qed.

Section Normalised.
Context {U : Unicode}.

Lemma to_decimal_digit_char (v : Z) :
  0 <= v <= 9 -> to_decimal (digit_char v) = Some v.
Proof.
  intros H. rewrite to_decimal_ascii by (unfold digit_char; lia).
  unfold ascii_digit, digit_char.
  replace ((48 <=? Z.to_N (48 + v)) && (Z.to_N (48 + v) <=? 57))%N with true
    by (symmetry; apply andb_true_iff; split; apply N.leb_le; lia).
  f_equal. lia.
Qed.

(** What [normalize_date_to_iso] returns is a date of the calendar in its
    ISO writing. *)
Lemma normalize_date_value (s r : str) :
  normalize_date_to_iso s = Ok r ->
  exists y m d, valid_date y m d = true /\ r = isoformat y m d.
Proof.
  unfold normalize_date_to_iso.
  destruct (strptime_date match_ymd (strip s)) as [[[y m] d]|] eqn:E1.
  - intros [= <-]. apply strptime_date_some in E1 as [_ V].
    exists y, m, d. auto.
  - destruct (strptime_date match_dmy (strip s)) as [[[y m] d]|] eqn:E2;
      [|discriminate].
    intros [= <-]. apply strptime_date_some in E2 as [_ V].
    exists y, m, d. auto.
Qed.

(** The ISO writing of a date is read as that date. *)
Lemma normalize_isoformat (y m d : Z) :
  valid_date y m d = true ->
  normalize_date_to_iso (isoformat y m d) = Ok (isoformat y m d).
Proof.
  intros V. destruct (isoformat_chars y m d V) as (Hy & Hm & Hd & E).
  pose proof (four_digits y ltac:(lia)) as [Y3 Y].
  assert (S : strip (isoformat y m d) = isoformat y m d).
  { rewrite E.
    apply (strip_keep _ _ [_; _; _; _; _; _; _; _]);
      apply digit_not_space, digit_char_digit;
      [exact Y3 | apply unit_digit]. }
  assert (M : match_ymd (isoformat y m d) = Some (y, m, d, [])).
  { unfold isoformat.
    apply match_ymd_complete.
    - rewrite format_four_digits by lia.
      exists (digit_char (y / 1000)), (digit_char (y / 100 mod 10)),
        (digit_char (y / 10 mod 10)), (digit_char (y mod 10)),
        (y / 1000), (y / 100 mod 10), (y / 10 mod 10), (y mod 10).
      split; [reflexivity|].
      rewrite !to_decimal_digit_char by (exact Y3 || apply unit_digit).
      repeat (split; [reflexivity|]). exact Y.
    - split; [lia | right; reflexivity].
    - split; [lia | right; left; reflexivity]. }
  unfold normalize_date_to_iso. rewrite S.
  replace (strptime_date match_ymd (isoformat y m d)) with (Some (y, m, d)).
  - reflexivity.
  - symmetry. apply strptime_date_some. auto.
Qed.

(** X1. A normalised date is a fixed point of [normalize_date_to_iso]:
    what the function returns, it accepts, and returns unchanged. *)
Theorem normalize_date_idempotent (s r : str) :
  normalize_date_to_iso s = Ok r -> normalize_date_to_iso r = Ok r.
Proof.
  intros H. apply normalize_date_value in H as (y & m & d & V & ->).
  apply normalize_isoformat. exact V.
Qed.

End Normalised.

Lemma normalize_date_idempotent_dmy :
  @normalize_date_to_iso basic_latin (lit "2024-03-05") = Ok (lit "2024-03-05").
Proof.
  apply (@normalize_date_idempotent basic_latin (lit " 5/3/2024 ")).
  reflexivity.
Defined.

(** ** The order of normalised dates *)

(** The first comparison that is not [Eq]. *)
Definition chain (c k : comparison) : comparison :=
  match c with
  | Eq => k
  | _ => c
  end.

(** Dates in the order of time. *)
Definition date_compare (a b : Z * Z * Z) : comparison :=
  let '(y, m, d) := a in
  let '(y', m', d') := b in
  chain (y ?= y') (chain (m ?= m') (d ?= d')).

Lemma str_compare_cons (x y : char) (a b : str) :
  str_compare (x :: a) (y :: b) = chain (x ?= y)%N (str_compare a b).
Proof. simpl. destruct (x ?= y)%N; reflexivity. Qed.

Lemma digit_char_compare (a b : Z) :
  0 <= a <= 9 -> 0 <= b <= 9 ->
  (digit_char a ?= digit_char b)%N = (a ?= b).
Proof.
  intros Ha Hb. unfold digit_char.
  rewrite Z2N.inj_compare by lia. apply Z.add_compare_mono_l.
Qed.

(** Two digits are compared as the number they write. *)
Lemma chain_digits (a b a' b' : Z) (k : comparison) :
  0 <= b <= 9 -> 0 <= b' <= 9 ->
  chain (a ?= a') (chain (b ?= b') k) = chain (10 * a + b ?= 10 * a' + b') k.
Proof.
  intros Hb Hb'. unfold chain.
  destruct (Z.compare_spec a a') as [E|E|E];
    destruct (Z.compare_spec b b') as [F|F|F];
    destruct (Z.compare_spec (10 * a + b) (10 * a' + b')) as [G|G|G];
    try reflexivity; lia.
Qed.

(** Texts against dates. *)
Lemma isoformat_compare (y m d y' m' d' : Z) :
  valid_date y m d = true -> valid_date y' m' d' = true ->
  str_compare (isoformat y m d) (isoformat y' m' d')
  = date_compare (y, m, d) (y', m', d').
Proof.
  intros V V'.
  destruct (isoformat_chars y m d V) as (Hy & Hm & Hd & ->).
  destruct (isoformat_chars y' m' d' V') as (Hy' & Hm' & Hd' & ->).
  destruct (four_digits y ltac:(lia)) as [Y3 Y].
  destruct (four_digits y' ltac:(lia)) as [Y3' Y'].
  pose proof (Z.div_mod m 10 ltac:(lia)) as M.
  pose proof (Z.div_mod m' 10 ltac:(lia)) as M'.
  pose proof (Z.div_mod d 10 ltac:(lia)) as D.
  pose proof (Z.div_mod d' 10 ltac:(lia)) as D'.
  rewrite !str_compare_cons.
  change (str_compare [] []) with Eq.
  change (ch "-" ?= ch "-")%N with Eq. cbn [chain].
  rewrite !digit_char_compare
    by (try apply unit_digit; try apply tenth_digit; lia).
  pose proof (unit_digit (y / 100)). pose proof (unit_digit (y / 10)).
  pose proof (unit_digit y). pose proof (unit_digit (y' / 100)).
  pose proof (unit_digit (y' / 10)). pose proof (unit_digit y').
  pose proof (unit_digit m). pose proof (unit_digit m').
  pose proof (unit_digit d). pose proof (unit_digit d').
  remember (y / 1000) as q3. remember (y / 100 mod 10) as q2.
  remember (y / 10 mod 10) as q1. remember (y mod 10) as q0.
  remember (y' / 1000) as p3. remember (y' / 100 mod 10) as p2.
  remember (y' / 10 mod 10) as p1. remember (y' mod 10) as p0.
  remember (m / 10) as m1. remember (m mod 10) as m0.
  remember (m' / 10) as n1. remember (m' mod 10) as n0.
  remember (d / 10) as d1. remember (d mod 10) as d0.
  remember (d' / 10) as e1. remember (d' mod 10) as e0.
  rewrite (chain_digits q3 q2), (chain_digits _ q1), (chain_digits _ q0),
    (chain_digits m1 m0), (chain_digits d1 d0) by assumption.
  unfold date_compare.
  replace (10 * (10 * (10 * q3 + q2) + q1) + q0) with y by lia.
  replace (10 * (10 * (10 * p3 + p2) + p1) + p0) with y' by lia.
  rewrite <- M, <- M', <- D, <- D'.
  destruct (d ?= d'); reflexivity.
Qed.

(** X2. The ISO writings of two dates of the calendar compare, as texts,
    the way the dates compare in time: the order of the column [date] is
    the order of the days. *)
Theorem isoformat_order (y m d y' m' d' : Z) :
  valid_date y m d = true -> valid_date y' m' d' = true ->
  str_compare (isoformat y m d) (isoformat y' m' d')
  = date_compare (y, m, d) (y', m', d').
Proof. apply isoformat_compare. Qed.

(** The fifth of March against the tenth of February, a year later. *)
Lemma isoformat_order_sample :
  str_compare (isoformat 2024 3 5) (isoformat 2025 2 10) = Lt.
Proof.
  rewrite (isoformat_order 2024 3 5 2025 2 10); reflexivity.
Defined.

(** ** Amounts in plain writing *)

Lemma lstrip_keep (s : str) :
  Forall (fun c => is_space c = false) s -> lstrip s = s.
Proof. destruct 1 as [|c s Hc _]; simpl; [|rewrite Hc]; reflexivity. Qed.

Lemma strip_plain (s : str) :
  Forall (fun c => is_space c = false) s -> strip s = s.
Proof.
  intros H. unfold strip, rstrip. rewrite (lstrip_keep s H).
  rewrite lstrip_keep by (apply Forall_rev; exact H).
  apply rev_involutive.
Qed.

(** A text without white space and without the letter R goes through the
    cleaning step as it is. *)
Lemma cleaned_plain (s : str) :
  Forall (fun c => is_space c = false /\ c <> 82%N) s -> cleaned s = s.
Proof.
  intros H. unfold cleaned. rewrite strip_plain.
  - rewrite (replace_absent 82%N [36%N]).
    + rewrite (replace_char_remove (ch " ")). apply filter_keep.
      eapply Forall_impl; [|exact H].
      intros c [S _]. cbv beta.
      destruct (N.eqb_spec c (ch " ")) as [->|]; [discriminate | reflexivity].
    + eapply Forall_impl; [|exact H]. intros c [_ R]. exact R.
  - eapply Forall_impl; [|exact H]. intros c [S _]. exact S.
Qed.

(** The characters of a numeral: digits, the two separators and the
    minus sign. *)
Definition is_numeral_char (c : char) : Prop :=
  is_digit c \/ c = ch "." \/ c = ch "," \/ c = ch "-".

Lemma cleaned_numeral (s : str) : Forall is_numeral_char s -> cleaned s = s.
Proof.
  intros H. apply cleaned_plain. eapply Forall_impl; [|exact H].
  intros c [D|[->|[->| ->]]]; try (split; [reflexivity | discriminate]).
  split; [apply digit_not_space; exact D|].
  apply is_digit_range in D. lia.
Qed.

Lemma contains_absent (c : char) (s : str) :
  Forall (fun x => x <> c) s -> contains c s = false.
Proof.
  unfold contains. induction 1 as [|x s Hx _ IH]; simpl; [reflexivity|].
  rewrite IH. destruct (N.eqb_spec c x); [congruence | reflexivity].
Qed.

Lemma digits_no (c : char) (I : str) :
  (c < 48 \/ 57 < c)%N -> Forall is_digit I -> Forall (fun x => x <> c) I.
Proof.
  intros Hc H. eapply Forall_impl; [|exact H].
  intros x D. apply is_digit_range in D. lia.
Qed.

Section Plain.
Context {U : Unicode}.
Variable I : str.
Hypothesis I_digits : Forall is_digit I.
Hypothesis I_nonempty : I <> [].

(** The float a text of digits is read as. *)
Lemma float_of_digits :
  float_of_str I = Some (decimal_value false (number_of (values I)) 0).
Proof.
  unfold float_of_str.
  rewrite to_ascii_ascii
    by (eapply Forall_impl; [|exact I_digits]; intros c H; char_facts).
  assert (S : strip_c I = I).
  { destruct I as [|x t] eqn:E; [contradiction|].
    destruct (exists_last (l := x :: t) ltac:(discriminate)) as (mid & y & E').
    assert (Hy : is_digit y).
    { rewrite Forall_forall in I_digits. apply I_digits. rewrite E'.
      apply in_or_app. right. left. reflexivity. }
    assert (Hx : is_digit x) by (inversion I_digits; assumption).
    destruct mid as [|x' mid'].
    - injection E' as -> ->. unfold strip_c. simpl.
      rewrite (digit_not_c_space _ Hy). simpl.
      rewrite (digit_not_c_space _ Hy). reflexivity.
    - injection E' as <- ->.
      apply strip_c_keep; apply digit_not_c_space; assumption. }
  rewrite S.
  assert (NU : Forall (fun c => c <> ch "_") I)
    by (apply digits_no; [change (ch "_") with 95%N; lia | exact I_digits]).
  rewrite (underscores_ok_plain 0%N _ ltac:(discriminate) NU).
  rewrite (drop_underscores_plain _ NU).
  assert (T : take_sign I = (false, I)).
  { destruct I as [|x t]; [reflexivity|].
    assert (Hx : is_digit x) by (inversion I_digits; assumption).
    apply is_digit_range in Hx. simpl.
    destruct (N.eqb_spec x 45) as [E|_]; [lia|].
    destruct (N.eqb_spec x 43) as [E|_]; [lia|].
    reflexivity. }
  rewrite T. unfold strtod.
  rewrite <- (app_nil_r I) at 1.
  rewrite (take_digits_app _ _ I_digits).
  cbn [take_digits fst snd length].
  rewrite (app_nil_r (values I)).
  destruct (values I) as [|v vs] eqn:E.
  - destruct I; [contradiction | discriminate].
  - cbn [app exponent]. rewrite app_nil_r. reflexivity.
Qed.

Variables d1 d2 : char.
Hypothesis d1_digit : is_digit d1.
Hypothesis d2_digit : is_digit d2.

Lemma settled_point : settled (plain_text I d1 d2) = plain_text I d1 d2.
Proof.
  unfold settled.
  replace (contains (ch ",") (plain_text I d1 d2)) with false.
  - rewrite andb_false_r. reflexivity.
  - symmetry. apply contains_absent. unfold plain_text.
    apply Forall_app. split.
    + apply digits_no; [change (ch ",") with 44%N; lia | exact I_digits].
    + pose proof d1_digit as H1. pose proof d2_digit as H2.
      apply is_digit_range in H1. apply is_digit_range in H2.
      change (ch ",") with 44%N. repeat constructor; try lia. discriminate.
Qed.

Lemma settled_comma :
  settled (I ++ lit "," ++ [d1; d2]) = plain_text I d1 d2.
Proof.
  unfold settled.
  replace (contains (ch ".") (I ++ lit "," ++ [d1; d2])) with false.
  - cbn [andb].
    replace (contains (ch ",") (I ++ lit "," ++ [d1; d2])) with true
      by (symmetry; unfold contains; rewrite existsb_app;
          apply orb_true_iff; right; reflexivity).
    rewrite (replace_char_map (ch ",") (ch ".")).
    change (map comma_to_point (I ++ lit "," ++ [d1; d2])
            = plain_text I d1 d2).
    rewrite map_app. unfold plain_text. f_equal.
    + rewrite <- (map_id I) at 2. apply map_ext_Forall.
      eapply Forall_impl; [|exact I_digits].
      intros c H. apply digit_keeps_comma_to_point in H. exact H.
    + change (map comma_to_point (lit "," ++ [d1; d2]))
        with (ch "." :: [comma_to_point d1; comma_to_point d2]).
      rewrite (digit_keeps_comma_to_point d1 d1_digit),
        (digit_keeps_comma_to_point d2 d2_digit).
      reflexivity.
  - symmetry. apply contains_absent.
    apply Forall_app. split.
    + apply digits_no; [change (ch ".") with 46%N; lia | exact I_digits].
    + pose proof d1_digit as H1. pose proof d2_digit as H2.
      apply is_digit_range in H1. apply is_digit_range in H2.
      change (ch ".") with 46%N. repeat constructor; try lia. discriminate.
Qed.

Lemma numeral_chars (sep : char) :
  sep = ch "." \/ sep = ch "," ->
  Forall is_numeral_char (I ++ sep :: [d1; d2]).
Proof.
  intros Hs. apply Forall_app. split.
  - eapply Forall_impl; [|exact I_digits]. intros c H. left. exact H.
  - constructor; [right; destruct Hs; auto|].
    constructor; [left; assumption|].
    constructor; [left; assumption | constructor].
Qed.

(** The cents a decimal value of hundredths is read as. *)
Lemma cents_of_hundredths (c : Z) :
  0 < c < 100 * 2 ^ 45 ->
  (let valor := decimal_value false c (- 2) in
   if fle_zero valor then Err NonPositiveAmount
   else round (fmul valor f100)) = Ok c.
Proof.
  intros H. unfold decimal_value.
  change (10 ^ Z.max 0 (- 2)) with 1. change (10 ^ Z.max 0 (- - 2)) with 100.
  destruct (amount_float (c * 1) 100 c H ltac:(lia) ltac:(ring))
    as (m & a & E & Ha & Hm & B).
  cbv zeta. rewrite E. cbn [fle_zero orb].
  replace (m =? 0) with false by (symmetry; apply Z.eqb_neq; lia).
  apply round_times_100; assumption.
Qed.

Lemma cents_of_units (n : Z) :
  0 < n < 2 ^ 45 ->
  (let valor := decimal_value false n 0 in
   if fle_zero valor then Err NonPositiveAmount
   else round (fmul valor f100)) = Ok (100 * n).
Proof.
  intros H. unfold decimal_value.
  change (10 ^ Z.max 0 0) with 1. change (10 ^ Z.max 0 (- 0)) with 1.
  destruct (amount_float (n * 1) 1 (100 * n) ltac:(lia) ltac:(lia)
              ltac:(ring)) as (m & a & E & Ha & Hm & B).
  cbv zeta. rewrite E. cbn [fle_zero orb].
  replace (m =? 0) with false by (symmetry; apply Z.eqb_neq; lia).
  apply round_times_100; try assumption. lia.
Qed.

(** X3. An amount written with digits only, or with digits, a point or a
    comma, and two more digits, is read exactly: so many reais and so many
    cents, for every amount below [100 * 2^45] cents. *)
Theorem parse_amount_plain :
  let n := number_of (values I) in
  let f := 10 * (Z.of_N d1 - 48) + (Z.of_N d2 - 48) in
  0 < 100 * n + f < 100 * 2 ^ 45 ->
  parse_amount_to_cents (I ++ lit "." ++ [d1; d2]) = Ok (100 * n + f)
  /\ parse_amount_to_cents (I ++ lit "," ++ [d1; d2]) = Ok (100 * n + f)
  /\ (0 < n -> parse_amount_to_cents I = Ok (100 * n)).
Proof.
  intros n f H.
  assert (F : float_of_str (plain_text I d1 d2)
              = Some (decimal_value false (100 * n + f) (- 2))).
  { rewrite (float_of_plain_text I d1 d2 I_digits I_nonempty d1_digit d2_digit).
    subst n f. do 2 f_equal. ring. }
  pose proof (cents_of_hundredths _ H) as C.
  split; [|split].
  - change (parse_amount_to_cents (I ++ lit "." ++ [d1; d2]))
      with (cents_of_text (settled (cleaned (plain_text I d1 d2)))).
    rewrite cleaned_numeral by (apply numeral_chars; auto).
    rewrite settled_point. unfold cents_of_text. rewrite F. exact C.
  - change (parse_amount_to_cents (I ++ lit "," ++ [d1; d2]))
      with (cents_of_text (settled (cleaned (I ++ lit "," ++ [d1; d2])))).
    rewrite cleaned_numeral by (apply numeral_chars; auto).
    rewrite settled_comma. unfold cents_of_text. rewrite F. exact C.
  - intros Hn.
    change (parse_amount_to_cents I)
      with (cents_of_text (settled (cleaned I))).
    rewrite cleaned_numeral
      by (eapply Forall_impl; [|exact I_digits]; intros c D; left; exact D).
    assert (S : settled I = I).
    { unfold settled.
      rewrite (contains_absent (ch ","))
        by (apply digits_no; [change (ch ",") with 44%N; lia | exact I_digits]).
      rewrite andb_false_r. reflexivity. }
    rewrite S. unfold cents_of_text. rewrite float_of_digits.
    apply cents_of_units.
    pose proof d1_digit as H1. pose proof d2_digit as H2.
    apply is_digit_range in H1. apply is_digit_range in H2.
    subst f. fold n. lia.
Qed.

End Plain.

(** The theorem at 0012,50: leading zeros are read as none. *)
Lemma parse_amount_plain_sample :
  @parse_amount_to_cents basic_latin (lit "0012,50") = Ok 1250.
Proof.
  apply (@parse_amount_plain basic_latin (lit "0012")
           ltac:(repeat constructor) ltac:(discriminate)
           (ch "5") (ch "0") eq_refl eq_refl).
  split; reflexivity.
Defined.

(** ** Amounts that are refused *)

Lemma lstrip_c_keep (s : str) :
  Forall (fun c => is_c_space c = false) s -> lstrip_c s = s.
Proof. destruct 1 as [|c s Hc _]; simpl; [|rewrite Hc]; reflexivity. Qed.

Lemma strip_c_plain (s : str) :
  Forall (fun c => is_c_space c = false) s -> strip_c s = s.
Proof.
  intros H. unfold strip_c. rewrite (lstrip_c_keep s H).
  rewrite lstrip_c_keep by (apply Forall_rev; exact H).
  apply rev_involutive.
Qed.

(** A character [float()] takes as it is: of ASCII, no white space, no
    underscore. *)
Definition is_plain_char (c : char) : Prop :=
  (c <? 128)%N = true /\ is_c_space c = false /\ c <> ch "_".

Lemma digit_is_plain (c : char) : is_digit c -> is_plain_char c.
Proof.
  intros H. split; [char_facts|]. split; [apply digit_not_c_space; exact H|].
  apply is_digit_range in H. change (ch "_") with 95%N. lia.
Qed.

(** The digits of a numeral, with the power of ten of its last one. *)
Lemma strtod_digits (neg : bool) (I : str) :
  Forall is_digit I -> I <> [] ->
  strtod neg I = Some (decimal_value neg (number_of (values I)) 0).
Proof.
  intros HI NI. unfold strtod.
  rewrite <- (app_nil_r I) at 1.
  rewrite (take_digits_app _ _ HI).
  cbn [take_digits fst snd length].
  destruct (values I) as [|v vs] eqn:E.
  - destruct I; [contradiction | discriminate].
  - cbn [app exponent]. rewrite !app_nil_r. reflexivity.
Qed.

Lemma strtod_plain_text (neg : bool) (I : str) (d1 d2 : char) :
  Forall is_digit I -> I <> [] -> is_digit d1 -> is_digit d2 ->
  strtod neg (plain_text I d1 d2)
  = Some (decimal_value neg
            (100 * number_of (values I) + 10 * (Z.of_N d1 - 48)
             + (Z.of_N d2 - 48)) (- 2)).
Proof.
  intros HI NI H1 H2. unfold strtod, plain_text.
  rewrite (take_digits_app _ _ HI).
  change (take_digits (lit "." ++ [d1; d2])) with (@nil Z, 46%N :: [d1; d2]).
  cbn [fst snd]. change (46 =? ch ".")%N with true. cbv iota.
  change [d1; d2] with ([d1; d2] ++ []).
  rewrite (take_digits_app [d1; d2] []) by (repeat constructor; assumption).
  cbn [take_digits fst snd values map app length].
  rewrite app_nil_r. cbn [exponent].
  pose proof (number_of_two (values I) (Z.of_N d1 - 48) (Z.of_N d2 - 48)) as T.
  destruct (values I ++ [Z.of_N d1 - 48; Z.of_N d2 - 48]) as [|z l] eqn:E.
  - apply app_eq_nil in E as [_ E]. discriminate.
  - rewrite T. reflexivity.
Qed.

(** A value with the minus sign is not above zero, whatever its size. *)
Lemma fle_zero_minus (m x : Z) : fle_zero (decimal_value true m x) = true.
Proof.
  unfold decimal_value, binary64.
  destruct (_ =? 0); [reflexivity|].
  destruct (1024 <=? _); reflexivity.
Qed.

Section Refused.
Context {U : Unicode}.

Lemma float_of_str_plain (t : str) :
  Forall is_plain_char t ->
  float_of_str t
  = (let (neg, body) := take_sign t in
     match strtod neg body with
     | Some f => Some f
     | None => inf_or_nan neg body
     end).
Proof.
  intros H. unfold float_of_str.
  rewrite to_ascii_ascii
    by (eapply Forall_impl; [|exact H]; intros c [A _]; exact A).
  rewrite strip_c_plain
    by (eapply Forall_impl; [|exact H]; intros c [_ [A _]]; exact A).
  assert (NU : Forall (fun c => c <> ch "_") t)
    by (eapply Forall_impl; [|exact H]; intros c [_ [_ A]]; exact A).
  rewrite (underscores_ok_plain 0%N _ ltac:(discriminate) NU).
  rewrite (drop_underscores_plain _ NU). reflexivity.
Qed.

(** Nothing, or white space only, is no amount. *)
Lemma parse_amount_blank (s : str) :
  strip s = [] -> parse_amount_to_cents s = Err InvalidAmount.
Proof.
  intros H. unfold parse_amount_to_cents. rewrite H. reflexivity.
Qed.

Variable I : str.
Variables d1 d2 : char.
Hypothesis I_digits : Forall is_digit I.
Hypothesis I_nonempty : I <> [].
Hypothesis d1_digit : is_digit d1.
Hypothesis d2_digit : is_digit d2.

Lemma minus_plain_chars :
  Forall is_plain_char (ch "-" :: plain_text I d1 d2).
Proof.
  constructor; [repeat split; discriminate|].
  unfold plain_text. apply Forall_app. split.
  - eapply Forall_impl; [|exact I_digits]. apply digit_is_plain.
  - constructor; [repeat split; discriminate|].
    repeat constructor; apply digit_is_plain; assumption.
Qed.

Lemma minus_numeral_chars (sep : char) :
  sep = ch "." \/ sep = ch "," ->
  Forall is_numeral_char (ch "-" :: I ++ sep :: [d1; d2]).
Proof.
  intros Hs. constructor; [right; right; right; reflexivity|].
  apply Forall_app. split.
  - eapply Forall_impl; [|exact I_digits]. intros c H. left. exact H.
  - constructor; [right; destruct Hs; auto|].
    constructor; [left; assumption|].
    constructor; [left; assumption | constructor].
Qed.

Lemma settled_minus_comma :
  settled (ch "-" :: I ++ lit "," ++ [d1; d2]) = ch "-" :: plain_text I d1 d2.
Proof.
  pose proof (settled_comma I I_digits d1 d2 d1_digit d2_digit) as S.
  unfold settled in *.
  change (contains (ch ".") (ch "-" :: I ++ lit "," ++ [d1; d2]))
    with (contains (ch ".") (I ++ lit "," ++ [d1; d2])).
  change (contains (ch ",") (ch "-" :: I ++ lit "," ++ [d1; d2]))
    with (contains (ch ",") (I ++ lit "," ++ [d1; d2])).
  destruct (contains (ch ".") (I ++ lit "," ++ [d1; d2]));
    destruct (contains (ch ",") (I ++ lit "," ++ [d1; d2]));
    cbn [andb] in *.
  - rewrite (replace_char_remove (ch ".")) in *.
    cbn [filter]. change (negb (ch "-" =? ch ".")%N) with true. cbv iota.
    rewrite (replace_char_map (ch ",") (ch ".")) in *.
    cbn [map]. change (ch "-" =? ch ",")%N with false. cbv iota.
    f_equal. exact S.
  - f_equal. exact S.
  - rewrite (replace_char_map (ch ",") (ch ".")) in *.
    cbn [map]. change (ch "-" =? ch ",")%N with false. cbv iota.
    f_equal. exact S.
  - f_equal. exact S.
Qed.

(** X4. A numeral with a minus sign, and a numeral of value zero, are
    refused as not above zero: whole, or with a comma and two digits of
    cents. *)
Theorem parse_amount_not_positive :
  let n := number_of (values I) in
  let f := 10 * (Z.of_N d1 - 48) + (Z.of_N d2 - 48) in
  parse_amount_to_cents (ch "-" :: I) = Err NonPositiveAmount
  /\ parse_amount_to_cents (ch "-" :: I ++ lit "," ++ [d1; d2])
     = Err NonPositiveAmount
  /\ (n = 0 -> parse_amount_to_cents I = Err NonPositiveAmount)
  /\ (n = 0 -> f = 0 ->
      parse_amount_to_cents (I ++ lit "," ++ [d1; d2])
      = Err NonPositiveAmount).
Proof.
  intros n f.
  assert (DI : Forall is_numeral_char I)
    by (eapply Forall_impl; [|exact I_digits]; intros c D; left; exact D).
  assert (SI : settled I = I).
  { unfold settled.
    rewrite (contains_absent (ch ","))
      by (apply digits_no; [change (ch ",") with 44%N; lia | exact I_digits]).
    rewrite andb_false_r. reflexivity. }
  split; [|split; [|split]].
  - change (parse_amount_to_cents (ch "-" :: I))
      with (cents_of_text (settled (cleaned (ch "-" :: I)))).
    rewrite cleaned_numeral
      by (constructor; [right; right; right; reflexivity | exact DI]).
    assert (S : settled (ch "-" :: I) = ch "-" :: I).
    { unfold settled in *.
      change (contains (ch ",") (ch "-" :: I)) with (contains (ch ",") I).
      rewrite (contains_absent (ch ",") I)
        by (apply digits_no; [change (ch ",") with 44%N; lia | exact I_digits]).
      rewrite andb_false_r. reflexivity. }
    rewrite S. unfold cents_of_text.
    rewrite float_of_str_plain.
    + change (take_sign (ch "-" :: I)) with (true, I). cbv iota beta.
      rewrite (strtod_digits true I I_digits I_nonempty).
      rewrite fle_zero_minus. reflexivity.
    + constructor; [repeat split; discriminate|].
      eapply Forall_impl; [|exact I_digits]. apply digit_is_plain.
  - change (parse_amount_to_cents (ch "-" :: I ++ lit "," ++ [d1; d2]))
      with (cents_of_text
              (settled (cleaned (ch "-" :: I ++ lit "," ++ [d1; d2])))).
    rewrite cleaned_numeral by (apply minus_numeral_chars; auto).
    rewrite settled_minus_comma. unfold cents_of_text.
    rewrite float_of_str_plain by apply minus_plain_chars.
    change (take_sign (ch "-" :: plain_text I d1 d2))
      with (true, plain_text I d1 d2). cbv iota beta.
    rewrite (strtod_plain_text true I d1 d2) by assumption.
    rewrite fle_zero_minus. reflexivity.
  - intros Hn.
    change (parse_amount_to_cents I)
      with (cents_of_text (settled (cleaned I))).
    rewrite cleaned_numeral, SI by exact DI.
    unfold cents_of_text. rewrite (float_of_digits I I_digits I_nonempty).
    fold n. rewrite Hn. reflexivity.
  - intros Hn Hf.
    change (parse_amount_to_cents (I ++ lit "," ++ [d1; d2]))
      with (cents_of_text (settled (cleaned (I ++ lit "," ++ [d1; d2])))).
    rewrite cleaned_numeral by (apply numeral_chars; auto).
    rewrite (settled_comma I I_digits d1 d2 d1_digit d2_digit).
    unfold cents_of_text.
    rewrite (float_of_plain_text I d1 d2 I_digits I_nonempty d1_digit d2_digit).
    fold n. replace (100 * n + 10 * (Z.of_N d1 - 48) + (Z.of_N d2 - 48))
      with 0 by (subst f; lia).
    reflexivity.
Qed.

End Refused.

(** The theorem at the text -5. *)
Lemma parse_amount_not_positive_sample :
  @parse_amount_to_cents basic_latin (lit "-5") = Err NonPositiveAmount.
Proof.
  exact (proj1 (@parse_amount_not_positive basic_latin (lit "5")
                  (ch "0") (ch "0") ltac:(repeat constructor)
                  ltac:(discriminate) eq_refl eq_refl)).
Defined.

(** ** Amounts that are no numbers *)

(** The letters of [inf], [infinity] and [nan], in either case. *)
Definition is_inf_nan_letter (c : char) : Prop :=
  In (ascii_lower c) (lit "afinty").

Lemma inf_nan_letter_facts (c : char) :
  is_inf_nan_letter c ->
  is_plain_char c /\ is_space c = false /\ c <> 82%N
  /\ is_ascii_digit c = false
  /\ c <> ch "." /\ c <> ch "," /\ c <> ch "-" /\ c <> ch "+".
Proof.
  unfold is_inf_nan_letter, ascii_lower, is_plain_char, is_space, is_c_space,
    is_ascii_digit.
  change (lit "afinty") with [97; 102; 105; 110; 116; 121]%N.
  change (ch "_") with 95%N. change (ch ".") with 46%N.
  change (ch ",") with 44%N. change (ch "-") with 45%N.
  change (ch "+") with 43%N.
  intros H.
  assert (R : (c = 65 \/ c = 70 \/ c = 73 \/ c = 78 \/ c = 84 \/ c = 89
               \/ c = 97 \/ c = 102 \/ c = 105 \/ c = 110 \/ c = 116
               \/ c = 121)%N).
  { destruct ((65 <=? c) && (c <=? 90))%N eqn:E.
    - apply andb_true_iff in E as [A B].
      apply N.leb_le in A. apply N.leb_le in B.
      cbn [In] in H. lia.
    - apply andb_false_iff in E.
      assert (c < 65 \/ 90 < c)%N
        by (destruct E as [E|E]; apply N.leb_gt in E; lia).
      cbn [In] in H. lia. }
  repeat (destruct R as [->|R]; [repeat split; (discriminate || reflexivity)|]).
  subst c. repeat split; (discriminate || reflexivity).
Qed.

Lemma letters_of (t name : str) :
  map ascii_lower t = name -> incl name (lit "afinty") ->
  Forall is_inf_nan_letter t.
Proof.
  intros E H. apply Forall_forall. intros c Hc.
  apply H. rewrite <- E. apply in_map. exact Hc.
Qed.

Section NoNumber.
Context {U : Unicode}.

(** A text of such letters is read by its name. *)
Lemma float_of_letters (t : str) :
  Forall is_inf_nan_letter t -> t <> [] ->
  float_of_str (settled (cleaned t)) = inf_or_nan false t.
Proof.
  intros H NT.
  rewrite cleaned_plain
    by (eapply Forall_impl; [|exact H];
        intros c L; apply inf_nan_letter_facts in L; tauto).
  assert (S : settled t = t).
  { unfold settled. rewrite (contains_absent (ch ",")).
    - rewrite andb_false_r. reflexivity.
    - eapply Forall_impl; [|exact H].
      intros c L; apply inf_nan_letter_facts in L; tauto. }
  rewrite S, float_of_str_plain
    by (eapply Forall_impl; [|exact H];
        intros c L; apply inf_nan_letter_facts in L; tauto).
  destruct t as [|x t']; [contradiction|].
  assert (L : is_inf_nan_letter x) by (inversion H; assumption).
  apply inf_nan_letter_facts in L
    as (_ & _ & _ & D & P & _ & Mi & Pl).
  unfold take_sign.
  destruct (N.eqb_spec x (ch "-")); [contradiction|].
  destruct (N.eqb_spec x (ch "+")); [contradiction|].
  unfold strtod. cbn [take_digits]. rewrite D.
  destruct (N.eqb_spec x (ch ".")); [contradiction|].
  reflexivity.
Qed.

(** X5. Three kinds of text that are no amounts. Nothing, or white space
    only, is refused as an invalid amount.  The names of the infinity, in
    any case of the letters, are read as a float above zero, so they pass
    the check of the sign, and it is [round] that fails, with an
    OverflowError; the name of the NaN passes it too, and [round] fails
    with a ValueError of its own. *)
Theorem parse_amount_no_number (s t : str) :
  (strip s = [] -> parse_amount_to_cents s = Err InvalidAmount)
  /\ (map ascii_lower t = lit "inf" \/ map ascii_lower t = lit "infinity" ->
      parse_amount_to_cents t = Err InfinityToInteger)
  /\ (map ascii_lower t = lit "nan" ->
      parse_amount_to_cents t = Err NanToInteger).
Proof.
  split; [apply parse_amount_blank|].
  split.
  - intros E.
    assert (L : Forall is_inf_nan_letter t).
    { destruct E as [E|E]; apply (letters_of _ _ E);
        intros c Hc; cbn in Hc |- *; tauto. }
    assert (NT : t <> []) by (destruct E as [E|E]; destruct t; discriminate).
    change (parse_amount_to_cents t)
      with (cents_of_text (settled (cleaned t))).
    unfold cents_of_text. rewrite (float_of_letters t L NT).
    unfold inf_or_nan.
    destruct E as [-> | ->]; reflexivity.
  - intros E.
    assert (L : Forall is_inf_nan_letter t)
      by (apply (letters_of _ _ E); intros c Hc; cbn in Hc |- *; tauto).
    assert (NT : t <> []) by (destruct t; discriminate).
    change (parse_amount_to_cents t)
      with (cents_of_text (settled (cleaned t))).
    unfold cents_of_text. rewrite (float_of_letters t L NT).
    unfold inf_or_nan. rewrite E. reflexivity.
Qed.

End NoNumber.

(** ** The display text of any amount *)

(** A ratio below [2^(K+1)], with [K] below 1023, gives a finite float, of
    a value that is not above [2^(K+1)]. *)
Lemma binary64_finite (neg : bool) (n d K : Z) :
  0 <= n -> 0 < d -> 0 <= K <= 1022 -> n < d * 2 ^ (K + 1) ->
  exists m e,
    binary64 neg n d = Ffin neg m e
    /\ 0 <= m
    /\ numerator m e <= 2 ^ (K + 1) * denominator e.
Proof.
  intros Hn Hd HK H. unfold binary64.
  destruct (Z.eqb_spec n 0) as [->|N0].
  { exists 0, 0. split; [reflexivity|]. split; [lia|].
    unfold numerator, denominator. simpl Z.max. rewrite Z.pow_0_r.
    assert (0 < 2 ^ (K + 1)) by (apply Z.pow_pos_nonneg; lia). lia. }
  assert (Hn' : 0 < n) by lia.
  pose proof (floor_log2_upper n d K Hn' Hd ltac:(lia) H) as F.
  unfold ulp_exponent.
  remember (Z.max (floor_log2 n d - 52) (- 1074)) as e eqn:Ee.
  assert (He : - 1074 <= e <= K - 52) by lia.
  remember (Z.max 0 (- e)) as a eqn:Ea.
  remember (Z.max 0 e) as b eqn:Eb.
  remember (K + 1 - e) as p eqn:Ep.
  assert (Hp : 53 <= p) by lia.
  assert (Pa : 0 < 2 ^ a) by (apply Z.pow_pos_nonneg; lia).
  assert (Pb : 0 < 2 ^ b) by (apply Z.pow_pos_nonneg; lia).
  assert (Pp : 0 < 2 ^ p) by (apply Z.pow_pos_nonneg; lia).
  assert (PK : 0 < 2 ^ (K + 1)) by (apply Z.pow_pos_nonneg; lia).
  assert (Q : 2 ^ (K + 1) * 2 ^ a = 2 ^ b * 2 ^ p).
  { rewrite <- !Z.pow_add_r by lia. f_equal. lia. }
  remember (round_half_even (n * 2 ^ a) (d * 2 ^ b)) as m eqn:Em.
  assert (D0 : 0 < d * 2 ^ b) by (apply Z.mul_pos_pos; lia).
  assert (M0 : 0 <= m).
  { subst m. apply round_half_even_nonneg; [|exact D0].
    apply Z.mul_nonneg_nonneg; lia. }
  assert (M1 : m <= 2 ^ p).
  { pose proof (round_half_even_near (n * 2 ^ a) (d * 2 ^ b) D0) as R.
    rewrite <- Em in R.
    assert (B : n * 2 ^ a < d * 2 ^ b * 2 ^ p).
    { replace (d * 2 ^ b * 2 ^ p) with (d * 2 ^ (K + 1) * 2 ^ a)
        by (rewrite <- !Z.mul_assoc, Q; reflexivity).
      apply Z.mul_lt_mono_pos_r; assumption. }
    remember (d * 2 ^ b) as D eqn:ED. remember (2 ^ p) as P eqn:EP.
    remember (n * 2 ^ a) as N eqn:EN.
    assert (m * D < (P + 1) * D) by lia.
    assert (m < P + 1) by (apply (Z.mul_lt_mono_pos_r D); lia).
    lia. }
  assert (L : Z.log2 m <= p).
  { rewrite <- (Z.log2_pow2 p) by lia. apply Z.log2_le_mono. exact M1. }
  replace (1024 <=? Z.log2 m + e) with false
    by (symmetry; apply Z.leb_gt; lia).
  exists m, e. split; [reflexivity|]. split; [exact M0|].
  unfold numerator, denominator. rewrite <- Ea, <- Eb.
  rewrite Q. rewrite (Z.mul_comm (2 ^ b)).
  apply Z.mul_le_mono_nonneg_r; lia.
Qed.

(** The float of an int below [2^1023]. *)
Lemma float_of_int_finite (c : Z) :
  Z.abs c < 2 ^ 1023 ->
  exists m e,
    float_of_int c = Ok (Ffin (c <? 0) m e)
    /\ 0 <= m /\ numerator m e <= 2 ^ 1023 * denominator e.
Proof.
  intros H. unfold float_of_int.
  destruct (binary64_finite (c <? 0) (Z.abs c) 1 1022) as (m & e & E & M & B);
    try lia.
  exists m, e. rewrite E. auto.
Qed.

(** The hundredths [format(x, ".2f")] shows. *)
Definition hundredths (m e : Z) : Z :=
  round_half_even (numerator m e * 100) (denominator e).

Lemma hundredths_nonneg (m e : Z) : 0 <= m -> 0 <= hundredths m e.
Proof.
  intros H. apply round_half_even_nonneg.
  - unfold numerator. apply Z.mul_nonneg_nonneg; [|lia].
    apply Z.mul_nonneg_nonneg; [lia | apply Z.pow_nonneg; lia].
  - unfold denominator. apply Z.pow_pos_nonneg; lia.
Qed.

(** The digits before the point, with the sign. *)
Definition whole_text (neg : bool) (h : Z) : str :=
  (if neg then lit "-" else []) ++ digits (h / 100).

Lemma two_digits_no_point (h : Z) :
  0 <= h -> Forall (fun x => x <> ch ".") (format_0d 2 (h mod 100)).
Proof.
  intros H. pose proof (Z.mod_pos_bound h 100 ltac:(lia)) as B.
  rewrite format_two_digits by lia.
  assert (D1 : is_digit (digit_char (h mod 100 / 10)))
    by (apply digit_char_digit, tenth_digit; lia).
  assert (D2 : is_digit (digit_char (h mod 100 mod 10)))
    by (apply digit_char_digit, unit_digit).
  apply is_digit_range in D1. apply is_digit_range in D2.
  change (ch ".") with 46%N. repeat constructor; lia.
Qed.

Lemma whole_text_no_point (neg : bool) (h : Z) :
  0 <= h -> Forall (fun x => x <> ch ".") (whole_text neg h).
Proof.
  intros H. unfold whole_text. apply Forall_app. split.
  - destruct neg; [repeat constructor; discriminate | constructor].
  - apply digits_no; [change (ch ".") with 46%N; lia|].
    apply digits_all. apply Z.div_pos; lia.
Qed.

Lemma whole_text_nonempty (neg : bool) (h : Z) :
  0 <= h -> whole_text neg h <> [].
Proof.
  intros H E. unfold whole_text in E. apply app_eq_nil in E as [_ E].
  apply (digits_nonempty (h / 100)); [apply Z.div_pos; lia | exact E].
Qed.

(** The text of a finite float, cut at its point. *)
Lemma format_2f_split (neg : bool) (m e : Z) :
  0 <= m ->
  split_on (ch ".") (format_2f (Ffin neg m e))
  = [whole_text neg (hundredths m e); format_0d 2 (hundredths m e mod 100)].
Proof.
  intros H. pose proof (hundredths_nonneg m e H) as Hh.
  unfold format_2f. fold (hundredths m e).
  rewrite app_assoc. fold (whole_text neg (hundredths m e)).
  change (lit "." ++ ?x) with (ch "." :: x).
  apply split_on_once;
    [apply whole_text_no_point | apply two_digits_no_point]; exact Hh.
Qed.

Lemma grouped_keeps (s : str) : s <> [] -> grouped s <> [].
Proof.
  intros H E. apply H. rewrite <- (groups_concat s).
  unfold grouped in E. destruct (groups_of_three s) as [|g [|g' gs]].
  - reflexivity.
  - simpl in E. subst g. reflexivity.
  - change (join (lit ".") (g :: g' :: gs))
      with (g ++ lit "." ++ join (lit ".") (g' :: gs)) in E.
    apply app_eq_nil in E as [_ E]. discriminate.
Qed.

(** What [cents_to_brl] returns, by the float its division gives. *)
Lemma cents_to_brl_of_float (c : Z) (neg : bool) (m e m' e' : Z) :
  float_of_int c = Ok (Ffin neg m e) ->
  fdiv (Ffin neg m e) f100 = Ffin neg m' e' -> 0 <= m' ->
  cents_to_brl c
  = Ok (lit "R$ " ++ grouped (whole_text neg (hundredths m' e')) ++ lit ","
        ++ format_0d 2 (hundredths m' e' mod 100)).
Proof.
  intros E1 E2 H. unfold cents_to_brl. rewrite E1. cbn [rbind].
  rewrite E2, (format_2f_split neg m' e' H).
  fold (grouped (whole_text neg (hundredths m' e'))).
  rewrite or_else_keeps; [reflexivity|].
  apply grouped_keeps, whole_text_nonempty, hundredths_nonneg. exact H.
Qed.

(** The division and the format never fail below [2^1023], and the text
    of the float has its one point. *)
Lemma cents_to_brl_returns (c : Z) :
  Z.abs c < 2 ^ 1023 ->
  exists whole d1 d2,
    cents_to_brl c = Ok (lit "R$ " ++ whole ++ lit "," ++ [d1; d2])
    /\ whole <> [] /\ is_digit d1 /\ is_digit d2.
Proof.
  intros H.
  destruct (float_of_int_finite c H) as (m & e & E1 & M & B).
  assert (Pd : 0 < denominator e)
    by (unfold denominator; apply Z.pow_pos_nonneg; lia).
  assert (Pn : 0 <= numerator m e).
  { unfold numerator. apply Z.mul_nonneg_nonneg; [lia|].
    apply Z.pow_nonneg; lia. }
  destruct (binary64_finite (xorb (c <? 0) false)
              (numerator m e * denominator 0)
              (numerator 100 0 * denominator e) 1022)
    as (m' & e' & E2 & M' & _).
  - change (denominator 0) with 1. lia.
  - change (numerator 100 0) with 100. lia.
  - lia.
  - change (denominator 0) with 1. change (numerator 100 0) with 100.
    change (1022 + 1) with 1023.
    assert (0 < 2 ^ 1023) by (apply Z.pow_pos_nonneg; lia).
    nia.
  - pose proof (hundredths_nonneg m' e' M') as Hh.
    pose proof (Z.mod_pos_bound (hundredths m' e') 100 ltac:(lia)) as Hm.
    exists (grouped (whole_text (c <? 0) (hundredths m' e'))),
      (digit_char (hundredths m' e' mod 100 / 10)),
      (digit_char (hundredths m' e' mod 100 mod 10)).
    split; [|split; [|split]].
    + rewrite (cents_to_brl_of_float c (c <? 0) m e m' e' E1); [| |exact M'].
      * rewrite format_two_digits by lia. reflexivity.
      * unfold fdiv, f100. rewrite E2, xorb_false_r. reflexivity.
    + apply grouped_keeps, whole_text_nonempty. exact Hh.
    + apply digit_char_digit, tenth_digit. lia.
    + apply digit_char_digit, unit_digit.
Qed.

(** X6. [cents_to_brl] returns a text for every int below [2^1023] in
    size, so for every integer a row can hold: neither the conversion to a
    float, nor the division, nor the unpacking of the two parts of the
    formatted text fails.  The text is "R$ ", something, a comma and two
    digits. *)
Theorem cents_to_brl_total (c : Z) :
  Z.abs c < 2 ^ 1023 ->
  exists whole d1 d2,
    cents_to_brl c = Ok (lit "R$ " ++ whole ++ lit "," ++ [d1; d2])
    /\ whole <> [] /\ is_digit d1 /\ is_digit d2.
Proof. apply cents_to_brl_returns. Qed.

(** The theorem at the least integer a row can hold. *)
Lemma cents_to_brl_total_sample :
  exists whole d1 d2,
    cents_to_brl (- 2 ^ 63) = Ok (lit "R$ " ++ whole ++ lit "," ++ [d1; d2])
    /\ whole <> [] /\ is_digit d1 /\ is_digit d2.
Proof. apply cents_to_brl_total. reflexivity. Defined.

(** ** The groups of a display text *)

Lemma slice_length (a b : nat) (s : str) :
  length (slice a b s) = Nat.min (b - a) (length s - a).
Proof. unfold slice. rewrite length_firstn, length_skipn. reflexivity. Qed.

(** The first group has one to three characters, the others three. *)
Lemma groups_of_three_shape (s : str) :
  s <> [] ->
  exists g gs,
    groups_of_three s = g :: gs
    /\ (1 <= length g <= 3)%nat
    /\ Forall (fun x => length x = 3%nat) gs.
Proof.
  intros H.
  assert (N : (0 < length s)%nat) by (destruct s; [contradiction | simpl; lia]).
  unfold groups_of_three, range_down3. rewrite map_map.
  pose proof (Nat.div_mod_eq (length s + 2) 3) as E.
  pose proof (Nat.mod_upper_bound (length s + 2) 3 ltac:(lia)) as B.
  destruct ((length s + 2) / 3)%nat as [|k] eqn:K; [lia|].
  rewrite seq_S, map_app.
  change (map ?f [(0 + k)%nat]) with [f k]. rewrite rev_unit.
  eexists. eexists. split; [reflexivity|]. split.
  - rewrite slice_length. lia.
  - apply Forall_rev. apply Forall_map. apply Forall_forall.
    intros j Hj. apply in_seq in Hj. rewrite slice_length. lia.
Qed.

(** X7. The display text of an amount from 0 to below [100 * 2^45] cents
    shows the amount exactly: after "R$ " come the digits of the reais, cut
    from the right into groups of three joined by points, then a comma and
    the two digits of the cents. *)
Theorem cents_to_brl_shape (c : Z) :
  0 <= c < 100 * 2 ^ 45 ->
  exists g gs,
    cents_to_brl c
    = Ok (lit "R$ " ++ join (lit ".") (g :: gs) ++ lit ","
          ++ [digit_char (c mod 100 / 10); digit_char (c mod 100 mod 10)])
    /\ concat (g :: gs) = digits (c / 100)
    /\ (1 <= length g <= 3)%nat
    /\ Forall (fun x => length x = 3%nat) gs.
Proof.
  intros H.
  assert (V : cents_to_brl c = Ok (brl_of c)).
  { destruct (Z.eq_dec c 0) as [->|N]; [reflexivity|].
    apply cents_to_brl_value. lia. }
  assert (Q : 0 <= c / 100) by (apply Z.div_pos; lia).
  destruct (groups_of_three_shape (digits (c / 100)) (digits_nonempty _ Q))
    as (g & gs & E & G & GS).
  exists g, gs. split; [|split; [|split]]; try assumption.
  - rewrite V. unfold brl_of, brl_text, grouped. rewrite E. reflexivity.
  - rewrite <- E. apply groups_concat.
Qed.

(** The theorem at 1 234 567 reais and 89 cents. *)
Lemma cents_to_brl_shape_sample :
  exists g gs,
    cents_to_brl 123456789
    = Ok (lit "R$ " ++ join (lit ".") (g :: gs) ++ lit ",89")
    /\ concat (g :: gs) = lit "1234567".
Proof.
  destruct (cents_to_brl_shape 123456789) as (g & gs & E & C & _).
  - split; [discriminate | reflexivity].
  - exists g, gs. split; [exact E | exact C].
Defined.

(** ** What the listing prints *)

(** The amounts of a table are integers of SQLite. *)
Definition int64_amounts (t : Store) : Prop :=
  Forall (fun r => fits_int64 (row_amount_cents r) = true) (rows t).

Lemma in_limit {A} (n : Z) (xs : list A) (x : A) :
  In x (limit n xs) -> In x xs.
Proof.
  unfold limit. destruct (n <? 0); [auto | apply in_firstn].
Qed.

Lemma select_last_rows (n : Z) (t : Store) (rs : list Listed) (l : Listed) :
  select_last n t = Ok rs -> In l rs ->
  exists r, In r (rows t) /\ l = selected r.
Proof.
  unfold select_last, bind_int.
  destruct (fits_int64 n); [|discriminate]. intros [= <-] H.
  apply in_map_iff in H as (r & <- & Hr).
  exists r. split; [|reflexivity].
  apply in_limit in Hr.
  eapply Permutation_in; [symmetry; apply order_by_perm | exact Hr].
Qed.

Lemma listed_line_returns (l : Listed) :
  fits_int64 (l_amount_cents l) = true -> exists line, listed_line l = Ok line.
Proof.
  intros H. apply fits_int64_range in H.
  destruct (cents_to_brl_returns (l_amount_cents l)) as (s & d1 & d2 & E & _).
  - assert (2 ^ 63 < 2 ^ 1023) by (apply Z.pow_lt_mono_r; lia). lia.
  - unfold listed_line. rewrite E. eexists. reflexivity.
Qed.

Lemma listed_lines_return (rs : list Listed) :
  Forall (fun l => fits_int64 (l_amount_cents l) = true) rs ->
  exists lines, Forall2 (fun l line => listed_line l = Ok line) rs lines.
Proof.
  induction 1 as [|l rs H _ (lines & IH)].
  - exists []. constructor.
  - destruct (listed_line_returns l H) as (line & E).
    exists (line :: lines). constructor; assumption.
Qed.

Lemma print_listed_run (rs : list Listed) (lines : list str) (w : World) :
  Forall2 (fun l line => listed_line l = Ok line) rs lines ->
  print_listed rs w = (Ok tt, printed w lines).
Proof.
  intros H. revert w.
  induction H as [|l line rs lines E _ IH]; intros w.
  - simpl. rewrite printed_nil. reflexivity.
  - cbn [print_listed]. unfold bind at 1, lift. rewrite E.
    unfold bind at 1, print. rewrite IH.
    unfold printed. cbn [db stdout]. rewrite <- app_assoc. reflexivity.
Qed.

(** The title of the listing: an empty line comes with it. *)
Definition listing_title : str := 10%N :: lit "Últimas transações:".

(** The listing of a table whose amounts are integers of SQLite. *)
Lemma list_last_run (n : Z) (w : World) :
  int64_amounts (db w) -> fits_int64 n = true ->
  exists rs lines,
    select_last n (db w) = Ok rs
    /\ Forall2 (fun l line => listed_line l = Ok line) rs lines
    /\ list_last n w
       = (Ok tt,
          printed w (listing_title :: lines
                     ++ match rs with
                        | [] => [lit "(vazio)"]
                        | _ :: _ => []
                        end)).
Proof.
  intros T Hn.
  destruct (select_last n (db w)) as [rs|e] eqn:E.
  2:{ unfold select_last, bind_int in E. rewrite Hn in E. discriminate. }
  destruct (listed_lines_return rs) as (lines & L).
  { apply Forall_forall. intros l Hl.
    destruct (select_last_rows n (db w) rs l E Hl) as (r & Hr & ->).
    unfold int64_amounts in T. rewrite Forall_forall in T.
    apply (T r Hr). }
  exists rs, lines. split; [reflexivity|]. split; [exact L|].
  unfold list_last. unfold bind at 1, query. rewrite E.
  unfold bind at 1, print.
  unfold bind at 1. rewrite (print_listed_run rs lines _ L).
  unfold printed. cbn [db stdout].
  destruct rs as [|r rs'].
  - unfold print. cbn [db stdout]. rewrite <- !app_assoc. reflexivity.
  - unfold ret. rewrite app_nil_r, <- app_assoc. reflexivity.
Qed.

(** X8. On a table whose amounts are integers of SQLite, and for a limit
    that is one, [list_last] raises nothing and writes nothing to the
    table: it prints the title, then one line for each row it fetched, in
    their order, and the note "(vazio)" exactly when it fetched none.  A
    limit that is no integer of SQLite is an OverflowError, before anything
    is printed. *)
Theorem list_last_prints (n : Z) (w : World) :
  int64_amounts (db w) ->
  (fits_int64 n = true ->
   exists rs lines,
     select_last n (db w) = Ok rs
     /\ Forall2 (fun l line => listed_line l = Ok line) rs lines
     /\ list_last n w
        = (Ok tt,
           printed w (listing_title :: lines
                      ++ match rs with
                         | [] => [lit "(vazio)"]
                         | _ :: _ => []
                         end)))
  /\ (fits_int64 n = false -> list_last n w = (Err IntTooLargeForSqlite, w)).
Proof.
  intros T. split.
  - apply list_last_run. exact T.
  - intros Hn. unfold list_last, bind, query, select_last, bind_int.
    rewrite Hn. reflexivity.
Qed.

(** The theorem at a table of one row. *)
Lemma list_last_prints_sample :
  exists lines,
    list_last 10 {| db := sample_table; stdout := [] |}
    = (Ok tt, {| db := sample_table; stdout := listing_title :: lines |})
    /\ length lines = 1%nat.
Proof.
  destruct (proj1 (list_last_prints 10 {| db := sample_table; stdout := [] |}
                     ltac:(repeat constructor)) eq_refl)
    as (rs & lines & E & L & R).
  injection E as <-.
  exists lines. split.
  - rewrite R. unfold printed. cbn [db stdout app]. rewrite app_nil_r.
    reflexivity.
  - apply Forall2_length in L. rewrite <- L. reflexivity.
Defined.

(** ** The table over the calls *)

(** What a call of the writer does to the table: nothing, or the INSERT of
    a transaction of a positive 64-bit amount, which was no duplicate when
    duplicates were not allowed. *)
Definition table_step (allow : bool) (t t' : Store) : Prop :=
  t' = t
  \/ exists tx now,
       t' = inserted tx now t
       /\ 0 < amount_cents tx < 2 ^ 63
       /\ (allow = false -> is_duplicate tx t = Ok false).

Lemma save_transaction_step (utcnow : datetime) (tx : Transaction)
    (allow : bool) (w : World) :
  table_step allow (db w) (db (snd (save_transaction utcnow tx allow w))).
Proof.
  unfold save_transaction, bind, query, execute, ret, raise.
  assert (I : forall D : allow = false -> is_duplicate tx (db w) = Ok false,
             table_step allow (db w)
               (db (snd (match insert tx (isoformat_seconds utcnow ++ lit "Z")
                                 (db w) with
                         | Ok (a, t) => (Ok a, {| db := t; stdout := stdout w |})
                         | Err e => (Err e, w)
                         end)))).
  { intros D. rewrite insert_cases.
    destruct (fits_int64 (amount_cents tx)) eqn:F; [|left; reflexivity].
    destruct (next_id (db w)) as [id|e]; [|left; reflexivity].
    destruct (0 <? amount_cents tx) eqn:P; [|left; reflexivity].
    right. exists tx, (isoformat_seconds utcnow ++ lit "Z").
    split; [reflexivity|]. split; [|exact D].
    apply fits_int64_range in F. apply Z.ltb_lt in P. lia. }
  destruct allow; simpl.
  - apply I. discriminate.
  - destruct (is_duplicate tx (db w)) as [[|]|e] eqn:E; simpl.
    + left; reflexivity.
    + apply I. reflexivity.
    + left; reflexivity.
Qed.

Section Calls.
Context {U : Unicode}.

Lemma add_step (k : ExpenseOrIncome) (utcnow : datetime)
    (d a c desc acc pm : str) (tg : option str) (allow : bool) (w : World) :
  table_step allow (db w)
    (db (snd (add k utcnow d a c desc acc pm tg allow w))).
Proof.
  rewrite add_run.
  destruct (normalize_date_to_iso d) as [date_iso|e]; [|left; reflexivity].
  destruct (parse_amount_to_cents a) as [cents|e]; [|left; reflexivity].
  apply (save_transaction_step utcnow _ allow (printed w (notices k c pm))).
Qed.

End Calls.

(** *** Nothing is rewritten *)

(** The rows of [t] are still there, as they were, and at most one more
    follows them. *)
Definition appended (t t' : Store) : Prop :=
  exists new, rows t' = rows t ++ new /\ (length new <= 1)%nat.

Lemma table_step_appended (allow : bool) (t t' : Store) :
  table_step allow t t' -> appended t t'.
Proof.
  intros [->|(tx & now & -> & _)].
  - exists []. rewrite app_nil_r. split; [reflexivity | simpl; lia].
  - eexists. split; [reflexivity | simpl; lia].
Qed.

(** X9. No call deletes or changes a row: after [save_transaction],
    [add_expense] or [add_income], whatever they return, the table has the
    rows it had, in their order, followed by at most one new row; and
    [list_last] leaves the table as it was. *)
Theorem table_append_only {U : Unicode} :
  (forall utcnow tx allow w,
     appended (db w) (db (snd (save_transaction utcnow tx allow w))))
  /\ (forall utcnow d a c desc acc pm tg allow w,
        appended (db w)
          (db (snd (add_expense utcnow d a c desc acc pm tg allow w))))
  /\ (forall utcnow d a c desc acc pm tg allow w,
        appended (db w)
          (db (snd (add_income utcnow d a c desc acc pm tg allow w))))
  /\ (forall n w, db (snd (list_last n w)) = db w).
Proof.
  split; [|split; [|split]].
  - intros. eapply table_step_appended, save_transaction_step.
  - intros. eapply table_step_appended, add_step.
  - intros. eapply table_step_appended, add_step.
  - apply list_last_db.
Qed.

(** *** The rows are well formed *)

(** The ids are distinct and run from 1 to the counter, the amounts are
    positive 64-bit integers, and the two stamps of a row are the same. *)
Definition well_formed (t : Store) : Prop :=
  NoDup (map row_id (rows t))
  /\ 0 <= sequence t
  /\ Forall (fun r => 1 <= row_id r <= sequence t
                      /\ 0 < row_amount_cents r < 2 ^ 63
                      /\ row_created_at r = row_updated_at r) (rows t).

Lemma inserted_well_formed (tx : Transaction) (now : str) (t : Store) :
  0 < amount_cents tx < 2 ^ 63 ->
  well_formed t -> well_formed (inserted tx now t).
Proof.
  intros A (ND & S & F). unfold well_formed, inserted. cbn [rows sequence].
  pose proof (fresh_id_counter t) as M.
  assert (N : forall r, In r (rows t) -> row_id r < fresh_id t)
    by (apply next_id_fresh).
  split; [|split].
  - rewrite map_app. cbn [map new_row row_id].
    apply NoDup_app; [exact ND | repeat constructor; auto |].
    intros x Hx [<-|[]]. apply in_map_iff in Hx as (r & E & Hr).
    apply N in Hr. lia.
  - lia.
  - apply Forall_app. split.
    + rewrite Forall_forall in *. intros r Hr.
      destruct (F r Hr) as (I & B & C). pose proof (N r Hr).
      repeat split; try tauto; lia.
    + constructor; [|constructor]. cbn.
      repeat split; lia.
Qed.

Lemma table_step_well_formed (allow : bool) (t t' : Store) :
  table_step allow t t' -> well_formed t -> well_formed t'.
Proof.
  intros [->|(tx & now & -> & A & _)] H; [exact H|].
  apply inserted_well_formed; assumption.
Qed.

(** X10. The table stays well formed. The table [init_db] creates is, and
    every call keeps it so: no two rows share an id, every id is at least
    1 and at most the AUTOINCREMENT counter, every amount is above zero and
    a 64-bit integer, and [created_at] equals [updated_at] in every row. *)
Theorem table_well_formed {U : Unicode} :
  well_formed (init_db None)
  /\ (forall t, well_formed t -> well_formed (init_db (Some t)))
  /\ (forall utcnow tx allow w,
        well_formed (db w) ->
        well_formed (db (snd (save_transaction utcnow tx allow w))))
  /\ (forall utcnow d a c desc acc pm tg allow w,
        well_formed (db w) ->
        well_formed
          (db (snd (add_expense utcnow d a c desc acc pm tg allow w))))
  /\ (forall utcnow d a c desc acc pm tg allow w,
        well_formed (db w) ->
        well_formed
          (db (snd (add_income utcnow d a c desc acc pm tg allow w))))
  /\ (forall n w, well_formed (db w) -> well_formed (db (snd (list_last n w)))).
Proof.
  split; [|split; [|split; [|split; [|split]]]].
  - repeat split; [constructor | reflexivity | constructor].
  - auto.
  - intros. eapply table_step_well_formed; [apply save_transaction_step|auto].
  - intros. eapply table_step_well_formed; [apply add_step|auto].
  - intros. eapply table_step_well_formed; [apply add_step|auto].
  - intros n w H. rewrite list_last_db. exact H.
Qed.

(** *** No duplicates come in *)

(** The tuple a duplicate is defined by. *)
Definition row_tuple (r : Row) : ExpenseOrIncome * str * Z * str * str :=
  (row_type r, row_date r, row_amount_cents r, row_category r,
   ifnull (row_description r)).

Definition duplicate_free (t : Store) : Prop := NoDup (map row_tuple (rows t)).

Lemma inserted_duplicate_free (tx : Transaction) (now : str) (t : Store) :
  0 < amount_cents tx < 2 ^ 63 ->
  is_duplicate tx t = Ok false ->
  duplicate_free t -> duplicate_free (inserted tx now t).
Proof.
  intros A D H. unfold duplicate_free, inserted. cbn [rows].
  rewrite map_app. apply NoDup_app; [exact H | repeat constructor; auto |].
  intros x Hx [<-|[]]. apply in_map_iff in Hx as (r & E & Hr).
  rewrite is_duplicate_value in D by (apply fits_int64_range; lia).
  injection D as D. unfold count_matching in D.
  assert (C : (0 <? Z.of_nat (length (filter
                 (matches (kind tx) (date_iso tx) (amount_cents tx)
                    (category tx) (ifnull (description tx))) (rows t))))
              = true).
  { apply count_positive_iff. exists r. split; [exact Hr|].
    apply matches_same_tuple. unfold row_tuple in E. cbn in E.
    injection E as E1 E2 E3 E4 E5. repeat split; assumption. }
  congruence.
Qed.

Lemma table_step_duplicate_free (t t' : Store) :
  table_step false t t' -> duplicate_free t -> duplicate_free t'.
Proof.
  intros [->|(tx & now & -> & A & D)] H; [exact H|].
  apply inserted_duplicate_free; auto.
Qed.

(** X11. Without [allow_duplicate], no duplicate comes into the table: if
    no two rows agree on kind, date, amount, category and description (a
    NULL description counting as the empty text), then the same holds
    after [save_transaction], [add_expense] and [add_income], whatever
    they return. *)
Theorem table_duplicate_free {U : Unicode} :
  (forall utcnow tx w,
     duplicate_free (db w) ->
     duplicate_free (db (snd (save_transaction utcnow tx false w))))
  /\ (forall utcnow d a c desc acc pm tg w,
        duplicate_free (db w) ->
        duplicate_free
          (db (snd (add_expense utcnow d a c desc acc pm tg false w))))
  /\ (forall utcnow d a c desc acc pm tg w,
        duplicate_free (db w) ->
        duplicate_free
          (db (snd (add_income utcnow d a c desc acc pm tg false w)))).
Proof.
  split; [|split]; intros.
  - eapply table_step_duplicate_free; [apply save_transaction_step|auto].
  - eapply table_step_duplicate_free; [apply add_step|auto].
  - eapply table_step_duplicate_free; [apply add_step|auto].
Qed.

(** The table is well formed after a first write. *)
Lemma table_well_formed_first_write :
  well_formed (db (snd (save_transaction sample_clock sample_tx false
                          blank_world))).
Proof.
  apply (proj1 (proj2 (proj2 (@table_well_formed basic_latin)))).
  apply (proj1 (@table_well_formed basic_latin)).
Defined.

(** A second write of the same transaction is refused, and the table stays
    free of duplicates. *)
Lemma table_duplicate_free_second_write :
  duplicate_free
    (db (snd (save_transaction sample_clock sample_tx false
                (written sample_clock sample_tx blank_world)))).
Proof.
  apply (proj1 (@table_duplicate_free basic_latin)).
  repeat constructor. simpl. tauto.
Defined.

(** ** A saved transaction is listed *)

Lemma str_compare_refl (a : str) : str_compare a a = Eq.
Proof. apply str_compare_eq. reflexivity. Qed.

(** The row that is before every other one is fetched first. *)
Lemma order_by_head (rs : list Row) (x : Row) :
  In x rs ->
  (forall r, In r rs -> r = x \/ ~ row_before r x) ->
  exists rest, order_by_date_id_desc rs = x :: rest.
Proof.
  intros Hx H.
  pose proof (order_by_perm rs) as P.
  pose proof (order_by_sorted rs) as S.
  destruct (order_by_date_id_desc rs) as [|h tl].
  - apply Permutation_sym, Permutation_nil in P. subst rs. contradiction.
  - assert (Hh : In h rs)
      by (eapply Permutation_in; [symmetry; exact P | left; reflexivity]).
    destruct (H h Hh) as [->|N]; [eexists; reflexivity|].
    exfalso. apply N.
    assert (Hx' : In x (h :: tl)) by (eapply Permutation_in; eauto).
    destruct Hx' as [->|Hx'].
    + right. split; [reflexivity | lia].
    + inversion S as [|? ? _ F]. subst.
      rewrite Forall_forall in F. apply F. exact Hx'.
Qed.

(** X12. A transaction that was saved is listed, and listed first when no
    row of the table has a later date: after a [save_transaction] that
    returned an id, [list_last] with a limit of 1 or more fetches, first
    of all, the row of that id with the fields of the transaction. *)
Theorem saved_is_listed_first (utcnow : datetime) (tx : Transaction)
    (allow : bool) (w w' : World) (id n : Z) :
  save_transaction utcnow tx allow w = (Ok id, w') ->
  (forall r, In r (rows (db w)) ->
             str_compare (row_date r) (date_iso tx) <> Gt) ->
  1 <= n < 2 ^ 63 ->
  exists rest,
    select_last n (db w')
    = Ok ({| l_id := id; l_type := kind tx; l_date := date_iso tx;
             l_amount_cents := amount_cents tx; l_category := category tx;
             l_description := ifnull (description tx);
             l_account := Some (account tx);
             l_payment_method := Some (payment_method tx) |} :: rest).
Proof.
  intros E D Hn.
  destruct (save_transaction_cases utcnow tx allow w) as [[e He]|[He _]];
    rewrite He in E; [discriminate|].
  injection E as <- <-.
  set (now := isoformat_seconds utcnow ++ lit "Z").
  set (x := new_row (fresh_id (db w)) tx now).
  destruct (order_by_head (rows (db w) ++ [x]) x) as (rest & O).
  - apply in_or_app. right. left. reflexivity.
  - intros r Hr. apply in_app_or in Hr as [Hr|[<-|[]]]; [|left; reflexivity].
    right. intros [G|[Eq L]].
    + apply (D r Hr). exact G.
    + apply next_id_fresh in Hr. subst x. cbn in L. lia.
  - unfold select_last, bind_int.
    replace (fits_int64 n) with true
      by (symmetry; apply fits_int64_range; lia).
    cbn [rbind]. unfold written, inserted. cbn [db rows]. fold now. fold x.
    rewrite O. unfold limit.
    replace (n <? 0) with false by (symmetry; apply Z.ltb_ge; lia).
    destruct (Z.to_nat n) as [|k] eqn:K; [lia|].
    cbn [firstn map]. eexists. reflexivity.
Qed.

(** The theorem at a table of four rows, two of them of the day of the
    transaction: the new row is fetched before both, its id being the
    larger, and before the rows of the days before. *)
Lemma saved_is_listed_first_sample :
  exists rest,
    select_last 3
      (db (written sample_clock sample_tx
             {| db := sample_ledger; stdout := [] |}))
    = Ok ({| l_id := 5; l_type := expense; l_date := lit "2024-03-05";
             l_amount_cents := 1250; l_category := lit "Lazer";
             l_description := [];
             l_account := Some (lit "principal");
             l_payment_method := Some (lit "pix") |} :: rest).
Proof.
  apply (saved_is_listed_first sample_clock sample_tx false
           {| db := sample_ledger; stdout := [] |}
           (written sample_clock sample_tx
              {| db := sample_ledger; stdout := [] |}) 5 3).
  - reflexivity.
  - intros r [<-|[<-|[<-|[<-|[]]]]]; discriminate.
  - split; [discriminate | reflexivity].
Defined.

(** ** When the validators print *)

(** The list a category is checked against. *)
Definition recommended (k : ExpenseOrIncome) : list str :=
  match k with
  | income => INCOME_CATEGORIES
  | expense => EXPENSE_CATEGORIES
  end.

Lemma str_in_In (x : str) (xs : list str) : str_in x xs = true <-> In x xs.
Proof.
  unfold str_in. rewrite existsb_exists. split.
  - intros (y & Hy & E). apply str_eqb_eq in E. subst. exact Hy.
  - intros H. exists x. split; [exact H | apply str_eqb_eq; reflexivity].
Qed.

Lemma only_outros_in_both (c : str) :
  In c EXPENSE_CATEGORIES -> In c INCOME_CATEGORIES -> c = lit "Outros".
Proof.
  intros H1 H2. cbv in H2.
  repeat (destruct H2 as [H2|H2]; [subst c|]);
    try contradiction; try reflexivity;
    cbv in H1; exfalso;
    repeat (destruct H1 as [H1|H1]; [discriminate|]); exact H1.
Qed.

Section Advisories.
Context {U : Unicode}.

(** X13. When the validators print their advisory. [validate_category]
    prints one line exactly when the value it returns is not in the list
    of its kind, and [validate_payment_method] exactly when what was typed
    is not blank and the value it returns is not in the list; so a blank
    input, which gives the default, draws no advisory.  The only category
    that is silent under both kinds is "Outros". *)
Theorem advisory_exactly (k : ExpenseOrIncome) (c m : str) :
  (snd (validate_category k c) = []
   <-> In (fst (validate_category k c)) (recommended k))
  /\ (snd (validate_payment_method m) = []
      <-> lower (strip m) = []
          \/ In (fst (validate_payment_method m)) PAYMENT_METHODS)
  /\ (length (snd (validate_category k c)) <= 1)%nat
  /\ (length (snd (validate_payment_method m)) <= 1)%nat
  /\ (strip c = [] -> snd (validate_category k c) = [])
  /\ (strip m = [] -> snd (validate_payment_method m) = [])
  /\ (snd (validate_category expense c) = []
      /\ snd (validate_category income c) = []
      <-> fst (validate_category k c) = lit "Outros").
Proof.
  assert (A : forall k', snd (validate_category k' c) = []
                         <-> In (fst (validate_category k' c)) (recommended k')).
  { intros k'. unfold validate_category. cbn [fst snd].
    replace (if kind_eqb k' income then INCOME_CATEGORIES
             else EXPENSE_CATEGORIES) with (recommended k')
      by (destruct k'; reflexivity).
    rewrite <- str_in_In.
    destruct (str_in _ (recommended k')); simpl; split;
      congruence. }
  assert (V : forall k' k'', fst (validate_category k' c)
                              = fst (validate_category k'' c))
    by reflexivity.
  split; [apply A|]. split; [|split; [|split; [|split; [|split]]]].
  - unfold validate_payment_method. cbn [fst snd].
    destruct (lower (strip m)) as [|x t] eqn:E.
    + split; [auto | reflexivity].
    + cbn [or_else]. rewrite <- str_in_In.
      destruct (str_in (x :: t) PAYMENT_METHODS); simpl; split;
        try congruence; try (intros [H|H]; congruence); auto.
  - unfold validate_category. cbn [snd].
    destruct (negb _); simpl; lia.
  - unfold validate_payment_method. cbn [snd].
    destruct (lower (strip m)); [simpl; lia|].
    destruct (negb _); simpl; lia.
  - intros E. apply A. unfold validate_category. cbn [fst]. rewrite E.
    destruct k; cbv; tauto.
  - intros E. unfold validate_payment_method. cbn [snd]. rewrite E.
    rewrite (lower_ascii []) by constructor. reflexivity.
  - rewrite !A. rewrite (V expense k), (V income k). split.
    + intros [H1 H2]. apply only_outros_in_both; assumption.
    + intros ->. split; cbv; tauto.
Qed.

End Advisories.

(** ** What the facade stores *)

Section Stored.
Context {U : Unicode}.

(** A text that is not empty and has no white space at its ends. *)
Definition trimmed (s : str) : Prop := s <> [] /\ strip s = s.

(** A row in canonical form: an ISO date of the calendar, a positive
    64-bit amount, a category, an account and a payment method that are
    trimmed, the method in lower case, a description without white space
    at its ends, and the same two stamps. *)
Definition canonical (r : Row) : Prop :=
  (exists y m d, valid_date y m d = true /\ row_date r = isoformat y m d)
  /\ 0 < row_amount_cents r < 2 ^ 63
  /\ trimmed (row_category r)
  /\ (exists desc, row_description r = Some desc /\ strip desc = desc)
  /\ (exists acc, row_account r = Some acc /\ trimmed acc)
  /\ (exists pm, row_payment_method r = Some pm /\ trimmed pm
                 /\ lower pm = pm)
  /\ row_created_at r = row_updated_at r.

Lemma trimmed_or_else (s d : str) :
  trimmed d -> trimmed (or_else (strip s) d).
Proof.
  intros H. destruct (strip s) as [|x t] eqn:E; [exact H|].
  cbn [or_else]. split; [discriminate|].
  rewrite <- E. apply strip_idempotent.
Qed.

Lemma trimmed_method (m : str) :
  trimmed (fst (validate_payment_method m))
  /\ lower (fst (validate_payment_method m)) = fst (validate_payment_method m).
Proof.
  rewrite validate_payment_method_value.
  destruct (lower (strip m)) as [|x t] eqn:E; cbn [or_else].
  - split; [split; [discriminate | reflexivity] | apply lower_lit_pix].
  - rewrite <- E. split; [split|].
    + rewrite E. discriminate.
    + apply lower_stripped, strip_idempotent.
    + apply lower_idempotent.
Qed.

Lemma add_stores (k : ExpenseOrIncome) (utcnow : datetime)
    (d a c desc acc pm : str) (tg : option str) (allow : bool)
    (w w' : World) (id : Z) :
  add k utcnow d a c desc acc pm tg allow w = (Ok id, w') ->
  exists r,
    rows (db w') = rows (db w) ++ [r]
    /\ canonical r
    /\ row_id r = id /\ row_type r = k /\ row_tags r = tg
    /\ forall r', In r' (rows (db w)) -> row_id r' < id.
Proof.
  rewrite add_run.
  destruct (normalize_date_to_iso d) as [date_iso|e] eqn:D; [|discriminate].
  destruct (parse_amount_to_cents a) as [cents|e]; [|discriminate].
  apply normalize_date_value in D as (y & m & dd & V & ->).
  set (tx := assembled k (isoformat y m dd) cents c desc acc pm tg).
  set (w0 := printed w (notices k c pm)).
  destruct (save_transaction_cases utcnow tx allow w0) as [[e He]|[He A]];
    rewrite He; [discriminate|].
  intros [= <- <-].
  eexists. split; [reflexivity|].
  split; [|split; [reflexivity|split; [reflexivity|split; [reflexivity|]]]].
  - unfold canonical. cbn.
    split; [exists y, m, dd; auto|]. split; [exact A|].
    split; [apply trimmed_or_else; split; [discriminate | reflexivity]|].
    split; [eexists; split; [reflexivity | apply strip_idempotent]|].
    split.
    { eexists. split; [reflexivity|].
      apply trimmed_or_else; split; [discriminate | reflexivity]. }
    split; [|reflexivity].
    eexists. split; [reflexivity|]. apply trimmed_method.
  - intros r' Hr. apply (next_id_fresh (db w0)). exact Hr.
Qed.

(** X14. What [add_expense] and [add_income] store is in canonical form.
    When either returns an id, exactly one row was added to the table, of
    that id, above every id of the table, and of the kind of the call; its
    date is a date of the calendar in ISO writing, its amount is positive,
    its category, account and payment method are not empty and have no
    white space around them, the method is in lower case, and the tags are
    those of the call. *)
Theorem facade_stores_canonical :
  (forall utcnow d a c desc acc pm tg allow w w' id,
     add_expense utcnow d a c desc acc pm tg allow w = (Ok id, w') ->
     exists r,
       rows (db w') = rows (db w) ++ [r]
       /\ canonical r
       /\ row_id r = id /\ row_type r = expense /\ row_tags r = tg
       /\ forall r', In r' (rows (db w)) -> row_id r' < id)
  /\ (forall utcnow d a c desc acc pm tg allow w w' id,
        add_income utcnow d a c desc acc pm tg allow w = (Ok id, w') ->
        exists r,
          rows (db w') = rows (db w) ++ [r]
          /\ canonical r
          /\ row_id r = id /\ row_type r = income /\ row_tags r = tg
          /\ forall r', In r' (rows (db w)) -> row_id r' < id).
Proof. split; intros; eapply add_stores; eassumption. Qed.

End Stored.

(** ** The display text of a negative amount *)

(** The sign does not enter the rounding. *)
Lemma binary64_sign (neg : bool) (n d m e : Z) :
  binary64 false n d = Ffin false m e -> binary64 neg n d = Ffin neg m e.
Proof.
  unfold binary64. destruct (n =? 0); [intros [= <- <-]; reflexivity|].
  destruct (1024 <=? _); [discriminate|].
  intros [= <- <-]. reflexivity.
Qed.

(** The float of an amount, and its hundredth part. *)
Lemma amount_division (c : Z) :
  0 < c < 100 * 2 ^ 45 ->
  exists m e m' e',
    binary64 false c 1 = Ffin false m e
    /\ binary64 false (numerator m e * denominator 0)
         (numerator 100 0 * denominator e) = Ffin false m' e'
    /\ 0 <= m' /\ hundredths m' e' = c.
Proof.
  intros H.
  assert (H52 : 0 < c < 2 ^ 52).
  { change (2 ^ 45) with 35184372088832 in H.
    change (2 ^ 52) with 4503599627370496. lia. }
  destruct (binary64_fine c 1 51 ltac:(lia) ltac:(lia) ltac:(lia)
              ltac:(change (2 ^ (51 + 1)) with (2 ^ 52); lia))
    as (m & a1 & E1 & Ha1 & Hm & _).
  rewrite round_half_even_exact in Hm. subst m.
  assert (P1 : 0 < 2 ^ a1) by (apply Z.pow_pos_nonneg; lia).
  destruct (amount_float (numerator (c * 2 ^ a1) (- a1) * denominator 0)
              (numerator 100 0 * denominator (- a1)) c H)
    as (m' & a & E & Ha & Hm' & B).
  { rewrite denominator_neg by lia. change (numerator 100 0) with 100. lia. }
  { rewrite numerator_neg, denominator_neg by lia.
    change (denominator 0) with 1. change (numerator 100 0) with 100. ring. }
  exists (c * 2 ^ a1), (- a1), m', (- a).
  split; [exact E1|]. split; [exact E|]. split; [lia|].
  apply hundredths_of_amount; assumption.
Qed.

(** X15. [cents_to_brl] has no case for the sign. For an amount below
    zero, the minus sign is grouped with the digits of the reais as if it
    were one of them; so, when these digits fill their groups of three,
    the sign stands alone before a point: -123 reais are shown as
    "R$ -.123,00". *)
Theorem cents_to_brl_negative (c : Z) :
  0 < c < 100 * 2 ^ 45 ->
  cents_to_brl (- c)
  = Ok (lit "R$ " ++ grouped (ch "-" :: digits (c / 100)) ++ lit ","
        ++ [digit_char (c mod 100 / 10); digit_char (c mod 100 mod 10)])
  /\ ((length (digits (c / 100)) mod 3 = 0)%nat ->
      exists rest,
        grouped (ch "-" :: digits (c / 100)) = lit "-." ++ rest).
Proof.
  intros H. split.
  - destruct (amount_division c H) as (m & e & m' & e' & E1 & E2 & M & Hh).
    rewrite (cents_to_brl_of_float (- c) true m e m' e').
    + rewrite Hh. unfold whole_text.
      rewrite format_two_digits
        by (pose proof (Z.mod_pos_bound c 100); lia).
      reflexivity.
    + unfold float_of_int.
      replace (- c <? 0) with true by (symmetry; apply Z.ltb_lt; lia).
      replace (Z.abs (- c)) with c by lia.
      rewrite (binary64_sign true _ _ _ _ E1). reflexivity.
    + unfold fdiv, f100. cbn [xorb]. apply binary64_sign. exact E2.
    + exact M.
  - intros L.
    assert (Q : 0 <= c / 100) by (apply Z.div_pos; lia).
    pose proof (digits_nonempty _ Q) as NE.
    destruct (groups_of_three_shape (ch "-" :: digits (c / 100))
                ltac:(discriminate)) as (g & gs & E & G & GS).
    pose proof (groups_concat (ch "-" :: digits (c / 100))) as C.
    rewrite E in C. cbn [concat] in C.
    assert (LG : (length (concat gs) = 3 * length gs)%nat).
    { clear - GS. induction GS as [|x gs Hx _ IH]; [reflexivity|].
      cbn [concat length]. rewrite length_app, Hx, IH. lia. }
    assert (LC : (length g + 3 * length gs
                  = S (length (digits (c / 100))))%nat).
    { rewrite <- LG, <- length_app, C. reflexivity. }
    assert (G1 : length g = 1%nat).
    { apply Nat.Div0.mod_divides in L as (k & L). lia. }
    destruct g as [|x [|y g']]; try discriminate.
    injection C as -> C.
    destruct gs as [|g1 gs'].
    + cbn in C. symmetry in C. contradiction.
    + unfold grouped. rewrite E.
      change (join (lit ".") ([ch "-"] :: g1 :: gs'))
        with (lit "-." ++ join (lit ".") (g1 :: gs')).
      eexists. reflexivity.
Qed.

(** The theorem at -123 reais. *)
Lemma cents_to_brl_negative_sample :
  cents_to_brl (- 12300) = Ok (lit "R$ -.123,00").
Proof.
  exact (proj1 (cents_to_brl_negative 12300
                  (conj eq_refl eq_refl))).
Defined.

(** ** The listing in time *)

(** [a] is listed before [b]: whenever their dates are dates of the
    calendar in ISO writing, the day of [a] is not before the day of [b],
    and on the same day the id of [a] is not the smaller one. *)
Definition newest_first (a b : Listed) : Prop :=
  forall y m d y' m' d',
    valid_date y m d = true -> valid_date y' m' d' = true ->
    l_date a = isoformat y m d -> l_date b = isoformat y' m' d' ->
    match date_compare (y, m, d) (y', m', d') with
    | Gt => True
    | Eq => l_id b <= l_id a
    | Lt => False
    end.

Lemma listed_before_newest (a b : Listed) :
  listed_before a b -> newest_first a b.
Proof.
  intros H y m d y' m' d' V V' Ea Eb.
  rewrite <- (isoformat_compare y m d y' m' d' V V'), <- Ea, <- Eb.
  destruct H as [->|[-> L]]; [exact I|].
  rewrite str_compare_refl. exact L.
Qed.

Lemma strongly_sorted_impl {A} (R Q : A -> A -> Prop) (xs : list A) :
  (forall a b, R a b -> Q a b) ->
  StronglySorted R xs -> StronglySorted Q xs.
Proof.
  intros H. induction 1 as [|x xs _ IH F]; constructor; [exact IH|].
  eapply Forall_impl; [|exact F]. intros b. apply H.
Qed.

Lemma strongly_sorted_limit {A} (R : A -> A -> Prop) (n : Z) (xs : list A) :
  StronglySorted R xs -> StronglySorted R (limit n xs).
Proof.
  intros H. unfold limit.
  destruct (n <? 0); [exact H | apply strongly_sorted_firstn; exact H].
Qed.

(** X16. The listing is in the order of time. For every table and every
    limit SQLite takes, the rows [list_last] fetches are such that a row
    never comes before a row of a later day, and among the rows of one day
    the larger id comes first. *)
Theorem list_last_chronological (n : Z) (t : Store) :
  fits_int64 n = true ->
  exists rs, select_last n t = Ok rs /\ StronglySorted newest_first rs.
Proof.
  intros H. unfold select_last, bind_int. rewrite H. cbn [rbind].
  eexists. split; [reflexivity|].
  apply (strongly_sorted_impl listed_before); [apply listed_before_newest|].
  apply strongly_sorted_map with (R := row_before); [auto|].
  apply strongly_sorted_limit, order_by_sorted.
Qed.

(** The theorem at a table of four rows on three days, and no limit. *)
Lemma list_last_chronological_sample :
  exists rs,
    select_last (- 1) sample_ledger = Ok rs
    /\ StronglySorted newest_first rs.
Proof. apply list_last_chronological. reflexivity. Defined.

(** ** What the facade raises *)



Section Raised.
Context {U : Unicode}.





End Raised.





(** ** The session at the terminal *)

Section Session.
Context {U : Unicode}.

(** What a call of the facade without [allow_duplicate] does to the table:
    a step of the writer, and the row it adds, if any, is canonical. *)
Definition entry_step (t t' : Store) : Prop :=
  table_step false t t'
  /\ (t' = t \/ exists r, rows t' = rows t ++ [r] /\ canonical r).

Lemma add_entry_step (k : ExpenseOrIncome) (now : datetime)
    (d a c desc acc pm : str) (tg : option str) (w : World) :
  entry_step (db w) (db (snd (add k now d a c desc acc pm tg false w))).
Proof.
  split; [apply add_step|].
  destruct (add k now d a c desc acc pm tg false w) as [[id|e] w'] eqn:E.
  - right. destruct (add_stores _ _ _ _ _ _ _ _ _ _ _ _ _ E)
      as (r & R & C & _).
    exists r. auto.
  - left. rewrite add_run in E.
    destruct (normalize_date_to_iso d) as [date_iso|e1];
      [|injection E as _ <-; reflexivity].
    destruct (parse_amount_to_cents a) as [cents|e1];
      [|injection E as _ <-; reflexivity].
    destruct (save_transaction_cases now
                (assembled k date_iso cents c desc acc pm tg) false
                (printed w (notices k c pm))) as [[e1 He]|[He _]];
      rewrite He in E; [|discriminate].
    injection E as _ <-. reflexivity.
Qed.

(** The table after some entries. *)
Inductive reached : Store -> Store -> Prop :=
| reached_here (t : Store) : reached t t
| reached_next (t t' t'' : Store) :
    reached t t' -> entry_step t' t'' -> reached t t''.

Lemma reached_trans (t t' t'' : Store) :
  reached t t' -> reached t' t'' -> reached t t''.
Proof.
  intros H1 H2. induction H2 as [|? ? ? _ IH S]; [exact H1|].
  eapply reached_next; [apply IH; exact H1 | exact S].
Qed.

Lemma reached_step (t t' : Store) : entry_step t t' -> reached t t'.
Proof. intros H. eapply reached_next; [apply reached_here | exact H]. Qed.

(** The console later in the session: the table was reached by calls, and
    some of the lines were read. *)
Definition follows (c c' : Console) : Prop :=
  reached (table c) (table c') /\ exists read, stdin c = read ++ stdin c'.

Lemma follows_refl (c : Console) : follows c c.
Proof. split; [apply reached_here | exists []; reflexivity]. Qed.

Lemma follows_trans (c c' c'' : Console) :
  follows c c' -> follows c' c'' -> follows c c''.
Proof.
  intros [R1 (r1 & E1)] [R2 (r2 & E2)]. split.
  - eapply reached_trans; eassumption.
  - exists (r1 ++ r2). rewrite E1, E2, app_assoc. reflexivity.
Qed.

Lemma follows_same (c c' : Console) :
  table c' = table c -> stdin c' = stdin c -> follows c c'.
Proof.
  intros T S. split; [rewrite T; apply reached_here|].
  exists []. rewrite S. reflexivity.
Qed.

Lemma follows_length (c c' : Console) :
  follows c c' -> (length (stdin c') <= length (stdin c))%nat.
Proof. intros [_ (r & ->)]. rewrite length_app. lia. Qed.

(** The console after some more was written. *)
Definition wrote (c : Console) (outs : list output) : Console :=
  {| table := table c; stdin := stdin c; screen := screen c ++ outs;
     clock := clock c |}.

Lemma say_all_run (lines : list str) (c : Console) :
  say_all lines c = (Returned tt, wrote c (map Printed lines)).
Proof.
  revert c. induction lines as [|l ls IH]; intros c.
  - destruct c. unfold wrote. cbn. rewrite app_nil_r. reflexivity.
  - cbn [say_all]. unfold cbind, say. rewrite IH.
    unfold wrote, write. cbn. rewrite <- app_assoc. reflexivity.
Qed.

(** A statement that keeps to the session. *)
Definition sound {A} (m : Cli A) : Prop :=
  forall c r c', m c = (r, c') -> follows c c'.

(** A statement that raises nothing. *)
Definition returns {A} (m : Cli A) : Prop :=
  forall c, exists a c', m c = (Returned a, c').

Lemma sound_cbind {A B} (m : Cli A) (f : A -> Cli B) :
  sound m -> (forall a, sound (f a)) -> sound (cbind m f).
Proof.
  intros Hm Hf c r c'. unfold cbind.
  destruct (m c) as [[a|x] c1] eqn:E; intros H.
  - eapply follows_trans; [eapply Hm; exact E | eapply Hf; exact H].
  - injection H as <- <-. eapply Hm. exact E.
Qed.

Lemma sound_catch {A} (m : Cli A) (h : exception -> Cli A) :
  sound m -> (forall x, sound (h x)) -> sound (catch m h).
Proof.
  intros Hm Hh c r c'. unfold catch.
  destruct (m c) as [[a|x] c1] eqn:E; intros H.
  - injection H as <- <-. eapply Hm. exact E.
  - eapply follows_trans; [eapply Hm; exact E | eapply Hh; exact H].
Qed.

Lemma returns_catch {A} (m : Cli A) (h : exception -> Cli A) :
  (forall x, returns (h x)) -> returns (catch m h).
Proof.
  intros Hh c. unfold catch. destruct (m c) as [[a|x] c1].
  - eauto.
  - apply Hh.
Qed.

Lemma sound_say (line : str) : sound (say line).
Proof. intros c r c' [= <- <-]. apply follows_same; reflexivity. Qed.

Lemma returns_say (line : str) : returns (say line).
Proof. intros c. eexists. eexists. reflexivity. Qed.

Lemma sound_read_clock : sound read_clock.
Proof. intros c r c' [= <- <-]. apply follows_same; reflexivity. Qed.

(** What [input] gives: a line of the input, or EOFError at its end. *)
Lemma input_cases (prompt : str) (c : Console) (r : outcome str)
    (c' : Console) :
  input prompt c = (r, c') ->
  table c' = table c
  /\ match r with
     | Returned line => stdin c = line :: stdin c'
     | Threw x => x = EOFError /\ stdin c = [] /\ stdin c' = []
     end.
Proof.
  unfold input. cbn [stdin write table].
  destruct (stdin c) as [|line rest] eqn:E; intros [= <- <-]; cbn.
  - auto.
  - auto.
Qed.

Lemma sound_input (prompt : str) : sound (input prompt).
Proof.
  intros c r c' H. apply input_cases in H as [T S]. split.
  - rewrite T. apply reached_here.
  - destruct r as [line|x].
    + exists [line]. rewrite S. reflexivity.
    + destruct S as (_ & -> & ->). exists []. reflexivity.
Qed.

Lemma call_table {A} (m : M A) (c : Console) :
  table (snd (call m c)) = db (snd (m {| db := table c; stdout := [] |}))
  /\ stdin (snd (call m c)) = stdin c.
Proof.
  unfold call. destruct (m _) as [r w]. split; reflexivity.
Qed.

Variable library_message : exception -> str.

Lemma sound_call_add (k : ExpenseOrIncome) (now : datetime)
    (d a c desc acc pm : str) :
  sound (call (add k now d a c desc acc pm None false)).
Proof.
  intros c0 r c' H.
  pose proof (call_table (add k now d a c desc acc pm None false) c0) as [T S].
  rewrite H in T, S. cbn [snd] in T, S. split.
  - rewrite T. apply reached_step, add_entry_step.
  - exists []. rewrite S. reflexivity.
Qed.

Lemma sound_entry (k : ExpenseOrIncome) : sound (entry library_message k).
Proof.
  unfold entry.
  replace (match k with
           | expense => add_expense
           | income => add_income
           end) with (add k) by (destruct k; reflexivity).
  apply sound_catch; [|intros x; apply sound_say].
  do 5 (apply sound_cbind; [apply sound_input | intros ?]). 
  apply sound_cbind; [apply sound_input | intros ?].
  apply sound_cbind; [apply sound_read_clock | intros now].
  apply sound_cbind; [apply sound_call_add | intros id].
  apply sound_say.
Qed.

Lemma returns_entry (k : ExpenseOrIncome) : returns (entry library_message k).
Proof. apply returns_catch. intros x. apply returns_say. Qed.

(** A turn of the loop. It keeps to the session; when the loop goes on, a
    line was read; and what it raises is the end of the input, unless the
    table holds an amount that is no integer of SQLite. *)
Lemma turn_cases (c : Console) (r : outcome bool) (c' : Console) :
  turn library_message c = (r, c') ->
  follows c c'
  /\ match r with
     | Returned true => (length (stdin c') < length (stdin c))%nat
     | Returned false => True
     | Threw x =>
         (x = EOFError /\ stdin c' = []) \/ ~ int64_amounts (table c)
     end.
Proof.
  unfold turn. unfold cbind at 1. rewrite say_all_run.
  set (c0 := wrote c (map Printed menu)).
  assert (F0 : follows c c0) by (apply follows_same; reflexivity).
  unfold cbind at 1.
  destruct (input (lit "Escolha: ") c0) as [[op|x] c1] eqn:I.
  2:{ intros [= <- <-].
      pose proof (sound_input _ _ _ _ I) as F1.
      apply input_cases in I as (_ & -> & _ & E).
      split; [exact (follows_trans _ _ _ F0 F1) | left; auto]. }
  pose proof (sound_input _ _ _ _ I) as F1.
  apply input_cases in I as (T1 & S1).
  assert (L1 : (length (stdin c1) < length (stdin c))%nat).
  { change (stdin c) with (stdin c0). rewrite S1. simpl. lia. }
  assert (F : follows c c1) by exact (follows_trans _ _ _ F0 F1).
  destruct (str_eqb (strip op) (lit "0")).
  { intros [= <- <-]. auto. }
  assert (E : forall k,
             (_ <-- entry library_message k ;; cret true) c1 = (r, c') ->
             follows c c'
             /\ match r with
                | Returned true => (length (stdin c') < length (stdin c))%nat
                | Returned false => True
                | Threw x =>
                    (x = EOFError /\ stdin c' = [])
                    \/ ~ int64_amounts (table c)
                end).
  { intros k. unfold cbind.
    destruct (returns_entry k c1) as (u & c2 & R). rewrite R.
    intros [= <- <-].
    pose proof (sound_entry k _ _ _ R) as F2.
    split; [exact (follows_trans _ _ _ F F2)|].
    apply follows_length in F2. lia. }
  destruct (str_eqb (strip op) (lit "1")); [apply E|].
  destruct (str_eqb (strip op) (lit "2")); [apply E|].
  destruct (str_eqb (strip op) (lit "3")).
  - unfold cbind.
    pose proof (call_table (list_last 10) c1) as [T S].
    destruct (call (list_last 10) c1) as [[u|x] c2] eqn:R;
      cbn [snd] in T, S; intros [= <- <-].
    + split; [|rewrite S; exact L1].
      eapply follows_trans; [exact F|].
      apply follows_same; [|exact S].
      rewrite T. apply list_last_db.
    + split.
      * eapply follows_trans; [exact F|].
        apply follows_same; [|exact S].
        rewrite T. apply list_last_db.
      * right. intros A.
        destruct (list_last_run 10 {| db := table c1; stdout := [] |})
          as (rs & lines & _ & _ & Q).
        -- cbn [db]. rewrite T1. exact A.
        -- reflexivity.
        -- unfold call in R. rewrite Q in R. discriminate.
  - unfold cbind, say. intros [= <- <-]. split; [|exact L1].
    eapply follows_trans; [exact F|]. apply follows_same; reflexivity.
Qed.

Lemma reached_int64 (t t' : Store) :
  reached t t' -> int64_amounts t -> int64_amounts t'.
Proof.
  induction 1 as [|t t' t'' _ IH S]; [auto|].
  intros H. specialize (IH H).
  destruct S as [[->|(tx & now & -> & A & _)] _]; [exact IH|].
  unfold int64_amounts, inserted. cbn [rows].
  apply Forall_app. split; [exact IH|].
  constructor; [|constructor]. cbn. apply fits_int64_range. lia.
Qed.

(** The loop, with turns enough for the lines of the input. *)
Lemma turns_run (fuel : nat) (c : Console) :
  (length (stdin c) < fuel)%nat ->
  exists r c',
    turns library_message fuel c = Some (r, c')
    /\ follows c c'
    /\ match r with
       | Returned _ => True
       | Threw x =>
           (x = EOFError /\ stdin c' = []) \/ ~ int64_amounts (table c)
       end.
Proof.
  revert c. induction fuel as [|fuel IH]; intros c L; [lia|].
  cbn [turns].
  destruct (turn library_message c) as [[[|]|x] c1] eqn:T;
    apply turn_cases in T as [F O].
  - destruct (IH c1 ltac:(lia)) as (r & c' & E & F' & O').
    exists r, c'. split; [exact E|].
    split; [exact (follows_trans _ _ _ F F')|].
    destruct r as [u|y]; [exact I|].
    destruct O' as [O'|O']; [left; exact O'|].
    right. intros A. apply O'.
    destruct F as [R _]. eapply reached_int64; eassumption.
  - exists (Returned tt), c1. auto.
  - exists (Threw x), c1. auto.
Qed.

Lemma cli_loop_run (c : Console) :
  exists r c',
    cli_loop library_message c = Some (r, c')
    /\ follows c c'
    /\ match r with
       | Returned _ => True
       | Threw x =>
           (x = EOFError /\ stdin c' = []) \/ ~ int64_amounts (table c)
       end.
Proof.
  unfold cli_loop. rewrite say_all_run. cbn [snd].
  destruct (turns_run (S (length (stdin c))) (wrote c (map Printed banner)))
    as (r & c' & E & F & O).
  - cbn [wrote stdin]. lia.
  - exists r, c'. split; [exact E|]. split; [|exact O].
    eapply follows_trans; [|exact F]. apply follows_same; reflexivity.
Qed.

(** X18. The session ends, and ends in one of two ways. On a table whose
    amounts are integers of SQLite, [cli_loop] returns, at an option 0, or
    raises EOFError, with every line of the input read; nothing an entry
    or a listing raises ends it.  The lines left unread are the last ones
    of the input. *)
Theorem cli_loop_ends (c : Console) :
  int64_amounts (table c) ->
  exists r c',
    cli_loop library_message c = Some (r, c')
    /\ (r = Returned tt \/ (r = Threw EOFError /\ stdin c' = []))
    /\ exists read, stdin c = read ++ stdin c'.
Proof.
  intros A. destruct (cli_loop_run c) as (r & c' & E & [_ S] & O).
  exists r, c'. split; [exact E|]. split; [|exact S].
  destruct r as [[]|x]; [left; reflexivity|].
  destruct O as [[-> O]|O]; [right; auto | contradiction].
Qed.

Lemma reached_appended (t t' : Store) :
  reached t t' -> exists new, rows t' = rows t ++ new.
Proof.
  induction 1 as [|t t' t'' _ (new & E) S].
  - exists []. rewrite app_nil_r. reflexivity.
  - destruct S as [S _]. apply table_step_appended in S as (new' & E' & _).
    exists (new ++ new'). rewrite E', E, app_assoc. reflexivity.
Qed.

Lemma reached_well_formed (t t' : Store) :
  reached t t' -> well_formed t -> well_formed t'.
Proof.
  induction 1 as [|t t' t'' _ IH S]; [auto|].
  intros H. eapply table_step_well_formed; [exact (proj1 S) | apply IH; exact H].
Qed.

Lemma reached_duplicate_free (t t' : Store) :
  reached t t' -> duplicate_free t -> duplicate_free t'.
Proof.
  induction 1 as [|t t' t'' _ IH S]; [auto|].
  intros H.
  eapply table_step_duplicate_free; [exact (proj1 S) | apply IH; exact H].
Qed.

Lemma reached_canonical (t t' : Store) :
  reached t t' -> Forall canonical (rows t) -> Forall canonical (rows t').
Proof.
  induction 1 as [|t t' t'' _ IH S]; [auto|].
  intros H. specialize (IH H).
  destruct S as [_ [->|(r & -> & C)]]; [exact IH|].
  apply Forall_app. split; [exact IH|].
  constructor; [exact C | constructor].
Qed.

(** X19. What a session does to the table. Whatever is typed, and however
    the session ends, the rows the table had are still there, as they
    were, followed by the new ones; a well-formed table stays well formed;
    the entries being made without [allow_duplicate], a table free of
    duplicates stays free of them; and, the entries going through the
    validation, a table of canonical rows stays one. *)
Theorem cli_loop_keeps_table (c : Console) (r : outcome unit) (c' : Console) :
  cli_loop library_message c = Some (r, c') ->
  (exists new, rows (table c') = rows (table c) ++ new)
  /\ (well_formed (table c) -> well_formed (table c'))
  /\ (duplicate_free (table c) -> duplicate_free (table c'))
  /\ (Forall canonical (rows (table c)) ->
      Forall canonical (rows (table c'))).
Proof.
  intros E. destruct (cli_loop_run c) as (r0 & c0 & E0 & [R _] & _).
  rewrite E in E0. injection E0 as <- <-.
  split; [|split; [|split]].
  - apply reached_appended. exact R.
  - apply reached_well_formed. exact R.
  - apply reached_duplicate_free. exact R.
  - apply reached_canonical. exact R.
Qed.

(** X20. The program from its start, on a database file that does not
    exist yet: for every input and every clock, [init_db(); cli_loop()]
    ends, by the option 0 or by EOFError at the end of the input, and the
    table it leaves is well formed, free of duplicates, and made of
    canonical rows. *)
Theorem main_from_scratch (lines : list str) (clock : nat -> datetime) :
  exists r c',
    main library_message None lines clock = Some (r, c')
    /\ (r = Returned tt \/ (r = Threw EOFError /\ stdin c' = []))
    /\ well_formed (table c')
    /\ duplicate_free (table c')
    /\ Forall canonical (rows (table c')).
Proof.
  unfold main.
  set (c := {| table := init_db None; stdin := lines; screen := [];
               clock := clock |}).
  destruct (cli_loop_run c) as (r & c' & E & [R _] & O).
  exists r, c'. split; [exact E|]. split; [|split; [|split]].
  - destruct r as [[]|x]; [left; reflexivity|].
    destruct O as [[-> O]|O]; [right; auto|].
    exfalso. apply O. constructor.
  - apply (reached_well_formed _ _ R).
    repeat split; [constructor | reflexivity | constructor].
  - apply (reached_duplicate_free _ _ R). constructor.
  - apply (reached_canonical _ _ R). constructor.
Qed.

End Session.

(** ** An entry at the terminal *)

Section Entry.
Context {U : Unicode}.
Variable library_message : exception -> str.

Ltac run_entry :=
  cbv beta iota zeta
      delta [catch cbind input read_clock call say write stdin table screen
             clock].

(** X21. An entry asks its six questions whatever the answers are: a date
    that is none does not cut them short.  With six lines to read, it calls
    [add_expense] or [add_income] on them, a blank account being
    "principal" and a blank method "pix", without tags and without
    [allow_duplicate]; it then prints the id, or "ERRO: " and the message
    of what was raised, and the next line of the input is left for the
    menu.  With fewer lines, it stores nothing, and prints the message of
    EOFError. *)
Theorem entry_reads_six_lines (k : ExpenseOrIncome) (c : Console) :
  (forall d a cat desc acc pm rest,
     stdin c = d :: a :: cat :: desc :: acc :: pm :: rest ->
     let run := match k with
                | expense => add_expense
                | income => add_income
                end (clock c 0%nat) d a cat desc
                  (or_else acc (lit "principal")) (or_else pm (lit "pix"))
                  None false {| db := table c; stdout := [] |} in
     exists outs,
       entry library_message k c
       = (Returned tt,
          {| table := db (snd run); stdin := rest;
             screen := screen c ++ outs;
             clock := fun i => clock c (S i) |})
       /\ last outs (Asked [])
          = Printed match fst run with
                    | Ok tx_id => registered k tx_id
                    | Err e =>
                        lit "ERRO: " ++ message library_message (Raised e)
                    end)
  /\ ((length (stdin c) < 6)%nat ->
      exists outs,
        entry library_message k c
        = (Returned tt,
           {| table := table c; stdin := [];
              screen := screen c ++ outs; clock := clock c |})
        /\ last outs (Asked [])
           = Printed (lit "ERRO: " ++ message library_message EOFError)).
Proof.
  destruct c as [t lines scr clk]. cbn [stdin table screen clock]. split.
  - intros d a cat desc acc pm rest ->. cbv zeta. unfold entry. run_entry.
    destruct (match k with
              | expense => add_expense
              | income => add_income
              end (clk 0%nat) d a cat desc (or_else acc (lit "principal"))
                (or_else pm (lit "pix")) None false _) as [[tx_id|e] w];
      run_entry.
    + eexists. split.
      * rewrite <- !app_assoc. reflexivity.
      * rewrite !app_assoc. apply last_last.
    + eexists. split.
      * rewrite <- !app_assoc. reflexivity.
      * rewrite !app_assoc. apply last_last.
  - intros L. unfold entry.
    destruct lines as [|d [|a [|cat [|desc [|acc [|pm rest]]]]]];
      [| | | | | |simpl in L; lia];
      run_entry; (eexists; split;
        [rewrite <- ?app_assoc; reflexivity
        |rewrite ?app_assoc; apply last_last]).
Qed.

End Entry.

(** ** A session *)

(** The messages of the exceptions the libraries raise, as CPython 3.11
    and SQLite 3.40 word them. *)
Definition library_texts (x : exception) : str :=
  match x with
  | EOFError => lit "EOF when reading a line"
  | Raised NanToInteger => lit "cannot convert float NaN to integer"
  | Raised InfinityToInteger => lit "cannot convert float infinity to integer"
  | Raised IntTooLargeForFloat => lit "int too large to convert to float"
  | Raised IntTooLargeForSqlite =>
      lit "Python int too large to convert to SQLite INTEGER"
  | Raised OperationalError => lit "database or disk is full"
  | Raised IntegrityError => lit "CHECK constraint failed: amount_cents > 0"
  | Raised UnpackError => lit "not enough values to unpack (expected 2, got 1)"
  | Raised _ => []
  end.

(** An expense is entered, with the defaults for its account and method;
    the transactions are listed; the session is closed. *)
Definition sample_console : Console :=
  {| table := init_db None;
     stdin := [lit "1"; lit "05/03/2024"; lit "12,50"; lit "Lazer";
               lit "cinema"; []; []; lit "3"; lit "0"];
     screen := [];
     clock := fun _ => sample_clock |}.

(** The theorem on the end of a session, at the sample session. *)
Lemma cli_loop_ends_sample :
  exists r c',
    @cli_loop basic_latin library_texts sample_console = Some (r, c')
    /\ (r = Returned tt \/ (r = Threw EOFError /\ stdin c' = []))
    /\ exists read, stdin sample_console = read ++ stdin c'.
Proof.
  apply (@cli_loop_ends basic_latin library_texts sample_console).
  constructor.
Defined.

(** The theorem on the table of a session, at the sample session: one row
    is added. *)
Lemma cli_loop_keeps_table_sample :
  exists r c',
    @cli_loop basic_latin library_texts sample_console = Some (r, c')
    /\ length (rows (table c')) = 1%nat
    /\ (exists new, rows (table c') = rows (table sample_console) ++ new)
    /\ (well_formed (table sample_console) -> well_formed (table c'))
    /\ (duplicate_free (table sample_console) -> duplicate_free (table c'))
    /\ (Forall (@canonical basic_latin) (rows (table sample_console)) ->
        Forall (@canonical basic_latin) (rows (table c'))).
Proof.
  eexists. eexists. split; [vm_compute; reflexivity|].
  split; [reflexivity|].
  eapply (@cli_loop_keeps_table basic_latin library_texts sample_console).
  vm_compute. reflexivity.
Defined.

(** The theorem on the stored rows, at a first expense. *)
Lemma facade_stores_canonical_sample :
  exists r,
    rows (db (snd (@add_expense basic_latin sample_clock (lit "05/03/2024")
                     (lit "R$ 12,50") (lit " Lazer ") (lit "cinema ")
                     [] (lit "PIX") None false blank_world)))
    = [r]
    /\ @canonical basic_latin r.
Proof.
  destruct (proj1 (@facade_stores_canonical basic_latin) sample_clock
              (lit "05/03/2024") (lit "R$ 12,50") (lit " Lazer ")
              (lit "cinema ") [] (lit "PIX") None false blank_world
              (snd (@add_expense basic_latin sample_clock (lit "05/03/2024")
                      (lit "R$ 12,50") (lit " Lazer ") (lit "cinema ")
                      [] (lit "PIX") None false blank_world))
              1 ltac:(vm_compute; reflexivity))
    as (r & E & C & _).
  exists r. split; [exact E | exact C].
Defined.
